(** * olu: entity store with a derived reference graph

    A shallow embedding of the graph engine ([pkg/graph]), the reference
    model ([pkg/models]), the two storage backends ([pkg/storage]) and the
    patch handler of the HTTP server ([pkg/server]), together with the
    properties of the specification that were checked against them.

    Conventions of the embedding:
    - Go's [int] is modelled by [Z]; where Go code adds to an [int] the
      64-bit wrap-around is written out with [wrap64].
    - a Go [map[string]T] is a [gmap string T]; iteration over a Go map
      ([for k, v := range m]) has no specified order, the model enumerates
      with [map_to_list].
    - [float64] values (what [encoding/json] produces for every JSON
      number) are modelled by their finite binary expansion [mant * 2^expo].
    - a runtime panic is an explicit outcome ([None] of an [option], or a
      dedicated constructor), never silently dropped. *)

From Stdlib Require Import ZArith String Ascii DecimalString Lia.
From stdpp Require Import base option list gmap strings sorting fin_maps.

#[local] Set Warnings "-register-all".
#[local] Open Scope string_scope.
#[local] Open Scope list_scope.
#[local] Open Scope Z_scope.

(* ------------------------------------------------------------------ *)
(** ** Machine integers and number formatting *)

Definition wrap64 (z : Z) : Z := (z + 2 ^ 63) mod 2 ^ 64 - 2 ^ 63.

(** [fmt.Sprintf("%d", z)] *)
Definition decimal (z : Z) : string := NilZero.string_of_int (Z.to_int z).

(* ------------------------------------------------------------------ *)
(** ** The [strings] functions used by the graph codec *)

Module gostrings.

(** [strings.Cut(s, sep)] for a one-byte separator: the text before and
    after the FIRST occurrence of [sep]. *)
Fixpoint Cut (sep : ascii) (s : string) : option (string * string) :=
  match s with
  | EmptyString => None
  | String c s' =>
      if Ascii.eqb c sep then Some (EmptyString, s')
      else match Cut sep s' with
           | Some (a, b) => Some (String c a, b)
           | None => None
           end
  end.

(** [strings.SplitN(s, sep, 2)] *)
Definition SplitN2 (sep : ascii) (s : string) : list string :=
  match Cut sep s with
  | Some (a, b) => [a; b]
  | None => [s]
  end.

(** [strings.Split(s, sep)]: every piece between separators, so a string
    with [n] separators yields [n+1] pieces (some possibly empty). *)
Fixpoint Split (sep : ascii) (s : string) : list string :=
  match s with
  | EmptyString => [EmptyString]
  | String c s' =>
      if Ascii.eqb c sep then EmptyString :: Split sep s'
      else match Split sep s' with
           | x :: xs => String c x :: xs
           | [] => [String c EmptyString]
           end
  end.

(** [strings.Join(parts, sep)] *)
Fixpoint Join (parts : list string) (sep : string) : string :=
  match parts with
  | [] => EmptyString
  | [p] => p
  | p :: ps => p +:+ sep +:+ Join ps sep
  end.

(** The ASCII white space of [strings.TrimSpace] (tab, newline, vertical
    tab, form feed, carriage return, space).  The multi-byte Unicode
    spaces that Go also strips are outside this byte-level model. *)
Definition is_space (c : ascii) : bool :=
  let n := nat_of_ascii c in
  ((9 <=? n)%nat && (n <=? 13)%nat) || (n =? 32)%nat.

Fixpoint TrimLeft (s : string) : string :=
  match s with
  | String c s' => if is_space c then TrimLeft s' else s
  | EmptyString => EmptyString
  end.

(** remove trailing white space: a character is kept when something
    that is kept follows it, or when it is not white space itself *)
Fixpoint TrimRight (s : string) : string :=
  match s with
  | EmptyString => EmptyString
  | String c s' =>
      match TrimRight s' with
      | EmptyString => if is_space c then EmptyString else String c EmptyString
      | t => String c t
      end
  end.

Definition TrimSpace (s : string) : string := TrimRight (TrimLeft s).

(** [bufio.MaxScanTokenSize]: a line and its newline have to fit a
    buffer of this many bytes. *)
Definition MaxScanTokenSize : Z := 65536.

(** the lines up to the first one that does not fit the buffer: there
    the scanner stops with [ErrTooLong] *)
Fixpoint scan_fitting (ls : list string) : list string :=
  match ls with
  | [] => []
  | l :: ls' =>
      if Z.of_nat (String.length l) <? MaxScanTokenSize then l :: scan_fitting ls'
      else []
  end.

(** The lines a [bufio.Scanner] yields (default split function) before it
    stops: the pieces between newlines, the empty piece after a final
    newline not being a line.  A carriage return before the newline is
    stripped by the scanner; [Load] trims every line anyway. *)
Definition ScanLines (content : string) : list string :=
  scan_fitting
    match reverse (Split "010"%char content) with
    | EmptyString :: ls => reverse ls
    | ls => reverse ls
    end.

End gostrings.

(* ------------------------------------------------------------------ *)
(** ** UTF-8, as [unicode/utf8] and [encoding/json] treat it *)

Module utf8.

Definition byte (c : ascii) : Z := Z.of_N (N_of_ascii c).

Definition between (lo hi : Z) (c : ascii) : bool :=
  (lo <=? byte c) && (byte c <=? hi).

(** the number of bytes of the encoding that a byte starts, 0 for a byte
    that starts none (the table [first]) *)
Definition lead_size (c1 : ascii) : nat :=
  let b := byte c1 in
  if b <? 128 then 1%nat
  else if b <? 194 then 0%nat
  else if b <? 224 then 2%nat
  else if b <? 240 then 3%nat
  else if b <? 245 then 4%nat
  else 0%nat.

(** the second bytes that may follow a lead byte (the table
    [acceptRanges]) *)
Definition second_ok (c1 c2 : ascii) : bool :=
  let b := byte c1 in
  if b =? 224 then between 160 191 c2
  else if b =? 237 then between 128 159 c2
  else if b =? 240 then between 144 191 c2
  else if b =? 244 then between 128 143 c2
  else between 128 191 c2.

Definition continuation (c : ascii) : bool := between 128 191 c.

(** U+FFFD, encoded *)
Definition RuneError : string :=
  String "239" (String "191" (String "189" EmptyString)).

(** What decoding the JSON encoding of a string yields: the encoder walks
    the string with [utf8.DecodeRuneInString] and writes [\ufffd] for every
    byte at which no valid encoding starts; valid encodings come back as
    they are. *)
Fixpoint coerce (s : string) : string :=
  match s with
  | EmptyString => EmptyString
  | String c1 s1 =>
      let invalid := RuneError +:+ coerce s1 in
      match lead_size c1, s1 with
      | 1%nat, _ => String c1 (coerce s1)
      | 2%nat, String c2 s2 =>
          if second_ok c1 c2 then String c1 (String c2 (coerce s2)) else invalid
      | 3%nat, String c2 (String c3 s3) =>
          if second_ok c1 c2 && continuation c3
          then String c1 (String c2 (String c3 (coerce s3))) else invalid
      | 4%nat, String c2 (String c3 (String c4 s4)) =>
          if second_ok c1 c2 && continuation c3 && continuation c4
          then String c1 (String c2 (String c3 (String c4 (coerce s4)))) else invalid
      | _, _ => invalid
      end
  end.

End utf8.

(* ------------------------------------------------------------------ *)
(** ** JSON values and the reference model ([pkg/models]) *)

(** A finite [float64]: the value [mant * 2 ^ expo]. *)
Record float64 := F64 { mant : Z; expo : Z }.

(** the range of a Go [int] *)
Definition int_in_range (z : Z) : bool := (- 2 ^ 63 <=? z) && (z <? 2 ^ 63).

(** the integer part of the value: truncation toward zero *)
Definition float64_trunc (f : float64) : Z :=
  if 0 <=? expo f then mant f * 2 ^ expo f
  else Z.quot (mant f) (2 ^ (- expo f)).

(** [int(v)] on a [float64]: truncation toward zero into the 64 bits of
    an [int].  For a value outside the range of [int] the language leaves
    the result to the implementation; on amd64 it is the smallest [int],
    which is what is taken here. *)
Definition int_of_float64 (f : float64) : Z :=
  let t := float64_trunc f in
  if int_in_range t then t else - 2 ^ 63.

(** the float is an exact integer *)
Definition float64_is_integer (f : float64) : bool :=
  if 0 <=? expo f then true
  else Z.rem (mant f) (2 ^ (- expo f)) =? 0.

(** The value of the nearest [float64] to an integer: the integer itself
    below [2^53], above it the nearest multiple of the spacing of the
    53-bit mantissas, a tie going to the even mantissa. *)
Definition round_to_float64 (z : Z) : Z :=
  let a := Z.abs z in
  if a <? 2 ^ 53 then z
  else
    let ulp := 2 ^ (Z.log2 a - 52) in
    let q := a / ulp in
    let r := a mod ulp in
    let q' := if 2 * r <? ulp then q
              else if ulp <? 2 * r then q + 1
              else if Z.even q then q else q + 1 in
    Z.sgn z * (q' * ulp).

(** The [float64] that decoding yields for the digits of an [int]
    ([strconv.ParseFloat] rounds to nearest, ties to even). *)
Definition float64_of_int (z : Z) : float64 := F64 (round_to_float64 z) 0.

(** What an [interface{}] holds in this program: the shapes produced by
    [encoding/json] (numbers are [float64]) and the [int]s the code itself
    stores under ["id"]. *)
Inductive json :=
| JNull
| JBool (b : bool)
| JFloat (f : float64)
| JInt (z : Z)
| JString (s : string)
| JArray (l : list json)
| JObject (m : gmap string json).

(** [v.(string)] in its comma-ok form, applied to a map lookup: succeeds
    only on a present string. *)
Definition as_string (o : option json) : option string :=
  match o with
  | Some (JString s) => Some s
  | _ => None
  end.

Module models.

Record Reference := { Type_ : string; Entity : string; ID : Z }.

(** [IsReference]: the reference it returns, [None] for its [false]. *)
Definition IsReference (v : json) : option Reference :=
  match v with
  | JObject m =>
      match as_string (m !! "type"), as_string (m !! "entity"), m !! "id" with
      | Some typeVal, Some entityVal, Some idVal =>
          if String.eqb typeVal "REF" then
            match idVal with
            | JFloat f =>
                Some {| Type_ := typeVal; Entity := entityVal; ID := int_of_float64 f |}
            | JInt z =>
                Some {| Type_ := typeVal; Entity := entityVal; ID := z |}
            | _ => None
            end
          else None
      | _, _, _ => None
      end
  | _ => None
  end.

End models.

(** [fmt.Sprintf("%s:%d", entity, id)] *)
Definition node_id (entity : string) (id : Z) : string :=
  entity +:+ ":" +:+ decimal id.

(* ------------------------------------------------------------------ *)
(** ** The in-memory indexed graph ([pkg/graph]) *)

Module graph.

Record IndexedGraph := {
  adjacency : gmap string (gmap string string);
  reverse : gmap string (gmap string string);
  index : gmap string (list string)
}.

Definition NewIndexedGraph : IndexedGraph :=
  {| adjacency := ∅; reverse := ∅; index := ∅ |}.

(** The block that occurs in [AddNode], [AddEdge] and [Load]:
    [if _, exists := adjacency[n]; !exists { adjacency[n] = make(..);
    reverse[n] = make(..) }].  The test reads [adjacency] only. *)
Definition ensure_node (n : string)
    (ar : gmap string (gmap string string) * gmap string (gmap string string))
    : gmap string (gmap string string) * gmap string (gmap string string) :=
  match ar.1 !! n with
  | Some _ => ar
  | None => (<[n := ∅]> ar.1, <[n := ∅]> ar.2)
  end.

(** [m[k1][k2] = v] on a map of maps: storing into the nil map that a
    missing [k1] yields is a runtime panic ([None]). *)
Definition store2 (k1 k2 v : string) (m : gmap string (gmap string string))
    : option (gmap string (gmap string string)) :=
  match m !! k1 with
  | Some inner => Some (<[k1 := <[k2 := v]> inner]> m)
  | None => None
  end.

(** [adjacency[from][to] = rel; reverse[to][from] = rel] *)
Definition put_edge (from to rel : string)
    (ar : gmap string (gmap string string) * gmap string (gmap string string))
    : option (gmap string (gmap string string) * gmap string (gmap string string)) :=
  adj ← store2 from to rel ar.1;
  rev ← store2 to from rel ar.2;
  Some (adj, rev).

(** [index[k] = append(index[k], n)] *)
Definition index_append (k n : string) (ix : gmap string (list string))
    : gmap string (list string) :=
  <[k := default [] (ix !! k) ++ [n]]> ix.

Definition AddNode (nodeID nodeType : string) (g : IndexedGraph) : IndexedGraph :=
  let ar := ensure_node nodeID (adjacency g, reverse g) in
  {| adjacency := ar.1;
     reverse := ar.2;
     index := if decide (nodeType = "") then index g
              else index_append nodeType nodeID (index g) |}.

Definition RemoveNode (nodeID : string) (g : IndexedGraph) : IndexedGraph :=
  {| adjacency := delete nodeID <$> delete nodeID (adjacency g);
     reverse := delete nodeID <$> delete nodeID (reverse g);
     index := omap (λ nodes,
                      match filter (λ n, n ≠ nodeID) nodes with
                      | [] => None
                      | filtered => Some filtered
                      end) (index g) |}.

Definition AddEdge (from to relationship : string) (g : IndexedGraph)
    : option IndexedGraph :=
  ar ← put_edge from to relationship
         (ensure_node to (ensure_node from (adjacency g, reverse g)));
  Some {| adjacency := ar.1;
          reverse := ar.2;
          index := index_append ("relationship:" +:+ relationship) from (index g) |}.

Definition RemoveEdge (from to : string) (g : IndexedGraph) : IndexedGraph :=
  {| adjacency := alter (delete to) from (adjacency g);
     reverse := alter (delete from) to (reverse g);
     index := index g |}.

(** Both return a copy; a missing node yields the empty map. *)
Definition GetNeighbors (nodeID : string) (g : IndexedGraph) : gmap string string :=
  default ∅ (adjacency g !! nodeID).

Definition GetIncomingEdges (nodeID : string) (g : IndexedGraph) : gmap string string :=
  default ∅ (reverse g !! nodeID).

Inductive PathResult :=
| PathFound (path : list string)
| ErrNodeNotFound (node : string)
| ErrNoPath
| PanicIndex.

(** The inner loop of [FindPath] over the neighbours of [current]. *)
Definition enqueue_neighbors (path : list string) (neighbors : list string)
    (qv : list (list string) * gset string) : list (list string) * gset string :=
  foldl (λ qv neighbor,
           if decide (neighbor ∈ qv.2) then qv
           else (qv.1 ++ [path ++ [neighbor]], {[neighbor]} ∪ qv.2))
        qv neighbors.

(** The [for len(queue) > 0] loop of [FindPath]; [None] when [fuel]
    iterations did not finish it. *)
Fixpoint bfs (fuel : nat) (adj : gmap string (gmap string string))
    (to : string) (maxDepth : Z)
    (queue : list (list string)) (visited : gset string) : option PathResult :=
  match fuel with
  | O => None
  | S fuel' =>
      match queue with
      | [] => Some ErrNoPath
      | path :: queue' =>
          if Z.of_nat (length path) >? maxDepth then
            bfs fuel' adj to maxDepth queue' visited
          else
            match last path with
            | None => Some PanicIndex
            | Some current =>
                if decide (current = to) then Some (PathFound path)
                else
                  let qv := enqueue_neighbors path
                              (map_to_list (default ∅ (adj !! current))).*1
                              (queue', visited) in
                  bfs fuel' adj to maxDepth qv.1 qv.2
            end
      end
  end.

(** every node name that occurs as a key or as a neighbour *)
Definition all_nodes (adj : gmap string (gmap string string)) : gset string :=
  dom adj ∪ map_fold (λ _ inner acc, dom inner ∪ acc) ∅ adj.

(** One iteration per dequeued path and one for the empty queue; every
    node is enqueued at most once. *)
Definition bfs_fuel (adj : gmap string (gmap string string)) : nat :=
  S (S (size (all_nodes adj))).

Definition FindPath (from to : string) (maxDepth : Z) (g : IndexedGraph)
    : option PathResult :=
  match adjacency g !! from with
  | None => Some (ErrNodeNotFound from)
  | Some _ =>
      match adjacency g !! to with
      | None => Some (ErrNodeNotFound to)
      | Some _ =>
          bfs (bfs_fuel (adjacency g)) (adjacency g) to maxDepth [[from]] {[from]}
      end
  end.

(** [Save]: the text written to the graph file. *)
Definition save_line (nodeID : string) (neighbors : gmap string string) : string :=
  nodeID +:+ ":" +:+
  gostrings.Join (map (λ nr, nr.1 +:+ ":" +:+ nr.2) (map_to_list neighbors)) " " +:+
  String "010"%char EmptyString.

Definition Save (g : IndexedGraph) : string :=
  foldr (λ nn acc, save_line nn.1 nn.2 +:+ acc) EmptyString (map_to_list (adjacency g)).

(** The body of the inner [for _, neighbor := range neighbors] of [Load]. *)
Definition load_neighbor (nodeID neighbor : string)
    (ar : gmap string (gmap string string) * gmap string (gmap string string))
    : option (gmap string (gmap string string) * gmap string (gmap string string)) :=
  if decide (neighbor = "") then Some ar
  else match gostrings.SplitN2 ":"%char neighbor with
       | [neighborID; relType] => put_edge nodeID neighborID relType (ensure_node neighborID ar)
       | _ => Some ar
       end.

(** The body of the [for scanner.Scan()] loop of [Load]. *)
Definition load_line (raw : string)
    (ar : gmap string (gmap string string) * gmap string (gmap string string))
    : option (gmap string (gmap string string) * gmap string (gmap string string)) :=
  let line := gostrings.TrimSpace raw in
  if decide (line = "") then Some ar
  else match gostrings.SplitN2 ":"%char line with
       | [nodeID; rest] =>
           let ar1 := ensure_node nodeID ar in
           if decide (rest = "") then Some ar1
           else foldl (λ acc neighbor, ar' ← acc; load_neighbor nodeID neighbor ar')
                      (Some ar1) (gostrings.Split " "%char rest)
       | _ => Some ar
       end.

Definition load_lines (lines : list string)
    : option (gmap string (gmap string string) * gmap string (gmap string string)) :=
  foldl (λ acc raw, ar ← acc; load_line raw ar) (Some (∅, ∅)) lines.

(** [Load]: [file] is the content of the graph file, [None] when the
    file does not exist (the graph is then left as it is).  The result is
    the graph after the call, [None] for a run-time panic; the [error]
    that [Load] returns when the scanner stops is not part of it. *)
Definition Load (file : option string) (g : IndexedGraph) : option IndexedGraph :=
  match file with
  | None => Some g
  | Some content =>
      ar ← load_lines (gostrings.ScanLines content);
      Some {| adjacency := ar.1; reverse := ar.2; index := ∅ |}
  end.

Definition Clear (g : IndexedGraph) : IndexedGraph := NewIndexedGraph.

(** [UpdateFromEntity(entity, id, data)] *)
Definition UpdateFromEntity (entity : string) (id : Z) (data : gmap string json)
    (g : IndexedGraph) : option IndexedGraph :=
  let nodeID := node_id entity id in
  let nodeType := default "" (as_string (data !! "type")) in
  foldl (λ acc kv,
           g' ← acc;
           match models.IsReference kv.2 with
           | Some ref =>
               AddEdge nodeID (node_id (models.Entity ref) (models.ID ref)) kv.1 g'
           | None => Some g'
           end)
        (Some (AddNode nodeID nodeType g)) (map_to_list data).

Definition NodeCount (g : IndexedGraph) : nat := size (adjacency g).

Definition EdgeCount (g : IndexedGraph) : nat :=
  map_fold (λ _ neighbors count, (count + size neighbors)%nat) 0%nat (adjacency g).

(** [p] follows adjacency entries: every two successive nodes of [p] are
    joined by an edge. *)
Fixpoint is_path (adj : gmap string (gmap string string)) (p : list string) : Prop :=
  match p with
  | u :: ((v :: _) as rest) =>
      is_Some (inner ← adj !! u; inner !! v) ∧ is_path adj rest
  | _ => True
  end.

(** the work that remains in [bfs]: queued paths plus nodes not yet visited *)
Definition bfs_measure (N : gset string) (qv : list (list string) * gset string) : nat :=
  (length qv.1 + size (N ∖ qv.2))%nat.

(** the graph of a single edge [users:1 -next-> users:2] *)
Definition one_edge_graph : IndexedGraph :=
  default NewIndexedGraph (AddEdge "users:1" "users:2" "next" NewIndexedGraph).

(** The graph operations as data, to speak about arbitrary sequences. *)
Inductive op :=
| OpAddNode (nodeID nodeType : string)
| OpAddEdge (from to relationship : string)
| OpRemoveNode (nodeID : string)
| OpRemoveEdge (from to : string)
| OpUpdateFromEntity (entity : string) (id : Z) (data : gmap string json)
| OpLoad (file : option string)
| OpClear.

Definition run (o : op) (g : IndexedGraph) : option IndexedGraph :=
  match o with
  | OpAddNode n t => Some (AddNode n t g)
  | OpAddEdge f t r => AddEdge f t r g
  | OpRemoveNode n => Some (RemoveNode n g)
  | OpRemoveEdge f t => Some (RemoveEdge f t g)
  | OpUpdateFromEntity e i d => UpdateFromEntity e i d g
  | OpLoad file => Load file g
  | OpClear => Some (Clear g)
  end.

Definition run_all (ops : list op) (g : IndexedGraph) : option IndexedGraph :=
  foldl (λ acc o, g' ← acc; run o g') (Some g) ops.

(** [adj[u][v]] as an optional relationship *)
Definition edge (m : gmap string (gmap string string)) (u v : string) : option string :=
  inner ← m !! u; inner !! v.

(** The mirror invariant of the two maps: [adj[u][v] == r] exactly when
    [rev[v][u] == r]. *)
Definition mirror_maps (adj rev : gmap string (gmap string string)) : Prop :=
  ∀ u v r, edge adj u v = Some r ↔ edge rev v u = Some r.

(** Both maps have the same nodes. *)
Definition same_nodes (adj rev : gmap string (gmap string string)) : Prop :=
  ∀ n, is_Some (adj !! n) ↔ is_Some (rev !! n).

(** the same two properties of a pair of maps under construction *)
Definition pair_consistent
    (ar : gmap string (gmap string string) * gmap string (gmap string string)) : Prop :=
  same_nodes ar.1 ar.2 ∧ mirror_maps ar.1 ar.2.

Definition mirror (g : IndexedGraph) : Prop :=
  mirror_maps (adjacency g) (reverse g).

(** The invariant the operations maintain: the mirror property, and the
    equality of the key sets it relies on. *)
Definition consistent (g : IndexedGraph) : Prop :=
  same_nodes (adjacency g) (reverse g) ∧ mirror g.

End graph.

(* ------------------------------------------------------------------ *)
(** ** The reference predicate as the specification words it *)

(** "an object with [type=="REF"], a non-empty string [entity], and an
    integer-valued [id>=1]; floating-point ids are accepted when they are
    exact integers". *)
Definition spec_reference (v : json) : bool :=
  match v with
  | JObject m =>
      match as_string (m !! "type"), as_string (m !! "entity"), m !! "id" with
      | Some typeVal, Some entityVal, Some idVal =>
          String.eqb typeVal "REF" && negb (String.eqb entityVal "") &&
          match idVal with
          | JFloat f => float64_is_integer f && (1 <=? int_of_float64 f)
          | JInt z => 1 <=? z
          | _ => false
          end
      | _, _, _ => false
      end
  | _ => false
  end.

(** The integer that [IsReference] takes from the value of ["id"]: the
    [int] itself, or the conversion [int(v)] of a [float64]. *)
Definition id_of_number (idVal : json) : option Z :=
  match idVal with
  | JFloat f => Some (int_of_float64 f)
  | JInt z => Some z
  | _ => None
  end.

(** The condition of the specification without the test for exactness:
    an object with [type == "REF"], a non-empty string [entity] and a
    number under ["id"] whose integer is at least 1; [ref] is the
    reference with that entity and that integer. *)
Definition reference_by_conversion (v : json) (ref : models.Reference) : Prop :=
  ∃ m idVal,
    v = JObject m ∧
    as_string (m !! "type") = Some "REF" ∧
    as_string (m !! "entity") = Some (models.Entity ref) ∧
    models.Entity ref ≠ "" ∧
    m !! "id" = Some idVal ∧
    id_of_number idVal = Some (models.ID ref) ∧
    1 ≤ models.ID ref ∧
    models.Type_ ref = "REF".

(** The shape of a value that [IsReference] accepts with result [ref]. *)
Definition reference_shape (v : json) (ref : models.Reference) : Prop :=
  ∃ m idVal,
    v = JObject m ∧
    as_string (m !! "type") = Some "REF" ∧
    as_string (m !! "entity") = Some (models.Entity ref) ∧
    m !! "id" = Some idVal ∧
    models.Type_ ref = "REF" ∧
    ((∃ f, idVal = JFloat f ∧ models.ID ref = int_of_float64 f) ∨
     idVal = JInt (models.ID ref)).

(* ------------------------------------------------------------------ *)
(** ** Sample documents *)

(** [{"type":"REF","entity":e,"id":i}] as decoded from JSON *)
Definition REF (e : string) (i : Z) : json :=
  JObject {[ "type" := JString "REF"; "entity" := JString e;
             "id" := JFloat (float64_of_int i) ]}.

(** [{"type":"REF","entity":"users","id":1.5}] *)
Definition REF_fractional : json :=
  JObject {[ "type" := JString "REF"; "entity" := JString "users";
             "id" := JFloat (F64 3 (-1)) ]}.

(** [{"type":"REF","entity":"","id":0}] *)
Definition REF_empty_zero : json :=
  JObject {[ "type" := JString "REF"; "entity" := JString "";
             "id" := JFloat (float64_of_int 0) ]}.

(** the employee of scenarios S2 and S3, managed by [users:mgr] *)
Definition employee (mgr : Z) : gmap string json :=
  {[ "name" := JString "E"; "manager" := REF "users" mgr ]}.

(** does the string hold a colon *)
Fixpoint has_colon (s : string) : bool :=
  match s with
  | EmptyString => false
  | String c s' => Ascii.eqb c ":"%char || has_colon s'
  end.

(** the graph after [UpdateFromEntity("users", 1, {"name":"A"})] *)
Definition single_node_graph : graph.IndexedGraph :=
  default graph.NewIndexedGraph
    (graph.UpdateFromEntity "users" 1 {[ "name" := JString "A" ]} graph.NewIndexedGraph).

(** the graph of scenario S2: employee 2 refers to manager 1 *)
Definition S2_graph : graph.IndexedGraph :=
  default graph.NewIndexedGraph
    (graph.UpdateFromEntity "users" 2 (employee 1) graph.NewIndexedGraph).

(** every key of the map is free of colons *)
Definition colon_free (adj : gmap string (gmap string string)) : Prop :=
  ∀ k, is_Some (adj !! k) → has_colon k = false.

(* ------------------------------------------------------------------ *)
(** ** JSON persistence *)

(** The encoder writes the keys of a map in ascending byte order; [key_ge]
    is that order reversed. *)
Definition key_ge {A : Type} (a b : string * A) : Prop := String.leb b.1 a.1 = true.

#[global] Instance key_ge_dec {A : Type} (a b : string * A) : Decision (key_ge a b).
Proof. unfold key_ge. apply _. Defined.

(** The keys of an object after encoding and decoding: every key is
    written as a JSON string (see [utf8.coerce]); where two keys come out
    the same, the decoder keeps the value it reads last, the one of the
    greater key. *)
Definition rekey {A : Type} (m : gmap string A) : gmap string A :=
  list_to_map ((λ kv, (utf8.coerce kv.1, kv.2)) <$> merge_sort key_ge (map_to_list m)).

(** What [json.Unmarshal(json.Marshal(v))] yields: the same value with
    every Go [int] turned into the [float64] that decoding produces and
    every string into valid UTF-8.  Stored documents are kept in this
    decoded form. *)
Fixpoint json_roundtrip (v : json) : json :=
  match v with
  | JInt z => JFloat (float64_of_int z)
  | JString s => JString (utf8.coerce s)
  | JArray l => JArray (json_roundtrip <$> l)
  | JObject m => JObject (rekey (json_roundtrip <$> m))
  | _ => v
  end.

(** the fields of [json_roundtrip (JObject d)] *)
Definition json_roundtrip_map (d : gmap string json) : gmap string json :=
  rekey (json_roundtrip <$> d).

(** every key of the map is valid UTF-8 *)
Definition utf8_keys {A : Type} (d : gmap string A) : Prop :=
  map_Forall (λ k _, utf8.coerce k = k) d.

(** Decoding a stored value into a variable [var m map[string]interface{}]:
    an object gives a new map with its fields, [null] leaves the variable
    the nil map ([None], no error), anything else is an error. *)
Definition decode_map (v : json) : option (option (gmap string json)) :=
  match v with
  | JObject m => Some (Some m)
  | JNull => Some None
  | _ => None
  end.

(** The same, for a map that is only read afterwards (the elements of
    [List]): the nil map reads as the empty map. *)
Definition decode_doc (v : json) : option (gmap string json) :=
  match v with
  | JObject m => Some m
  | JNull => Some ∅
  | _ => None
  end.

(** The number a document carries under ["id"], as [loadEntitiesIntoGraph]
    and the tests read it. *)
Definition doc_id (d : gmap string json) : option Z :=
  match d !! "id" with
  | Some (JFloat f) => Some (int_of_float64 f)
  | Some (JInt z) => Some z
  | _ => None
  end.

(* ------------------------------------------------------------------ *)
(** ** Store operations: outcomes, shared maps, state *)

Module storage.

Inductive error := ErrNotFound | ErrAlreadyExists | ErrIO.

(** How a call ends: normally, with an error value, or in a runtime panic. *)
Inductive outcome (A : Type) :=
| Ok (a : A)
| Err (e : error)
| Panic.
#[global] Arguments Ok {A} a.
#[global] Arguments Err {A} e.
#[global] Arguments Panic {A}.

(** A [map[string]interface{}] is a reference to a map object.  The
    objects live in [mem], addressed by numbers; an address without an
    object is the nil map.  The state of a run is the backend's state
    (files or tables) and the map objects. *)
Record state (S : Type) := State {
  backend : S;
  mem : gmap nat (gmap string json)
}.
#[global] Arguments State {S} backend mem.
#[global] Arguments backend {S} s.
#[global] Arguments mem {S} s.

Definition M (S A : Type) : Type := state S → outcome A * state S.

#[global] Instance M_ret (S : Type) : MRet (M S) := λ A a σ, (Ok a, σ).

#[global] Instance M_bind (S : Type) : MBind (M S) := λ A B k m σ,
  match m σ with
  | (Ok a, σ') => k a σ'
  | (Err e, σ') => (Err e, σ')
  | (Panic, σ') => (Panic, σ')
  end.

Definition fail {S A : Type} (e : error) : M S A := λ σ, (Err e, σ).

Definition get_backend {S : Type} : M S S := λ σ, (Ok (backend σ), σ).

Definition put_backend {S : Type} (b : S) : M S unit :=
  λ σ, (Ok (), State b (mem σ)).

(** reading a map ([m[k]], [range m], copying it): the nil map reads as
    the empty map *)
Definition read {S : Type} (data : nat) : M S (gmap string json) :=
  λ σ, (Ok (default ∅ (mem σ !! data)), σ).

(** [data[k] = v]: changes the object in place, panics on the nil map *)
Definition assign {S : Type} (data : nat) (k : string) (v : json) : M S unit :=
  λ σ, match mem σ !! data with
       | Some d => (Ok (), State (backend σ) (<[data := <[k := v]> d]> (mem σ)))
       | None => (Panic, σ)
       end.

(** [make(map[string]interface{})] filled with [d]: a new object *)
Definition new {S : Type} (d : gmap string json) : M S nat :=
  λ σ, let l := fresh (dom (mem σ)) in
       (Ok l, State (backend σ) (<[l := d]> (mem σ))).

(** a nil map: an address without an object *)
Definition nil_map {S : Type} : M S nat :=
  λ σ, (Ok (fresh (dom (mem σ))), σ).

Definition panic {S A : Type} : M S A := λ σ, (Panic, σ).

(** [defer tx.Rollback()]: unless the body ends normally the tables are
    those from before; map objects are not part of the transaction. *)
Definition transaction {S A : Type} (body : M S A) : M S A :=
  λ σ, match body σ with
       | (Ok a, σ') => (Ok a, σ')
       | (r, σ') => (r, State (backend σ) (mem σ'))
       end.

(** The [Store] interface.  The map that [Get] returns is new; it is
    given by its fields, [None] for the nil map. *)
Class Store (S : Type) := {
  Create : string → nat → M S Z;
  Get : string → Z → M S (option (gmap string json));
  Update : string → Z → nat → M S unit;
  Patch : string → Z → nat → M S unit;
  Delete : string → Z → M S unit;
  Save : string → Z → nat → M S unit;
  List : string → M S (list (gmap string json));
  Exists : string → Z → M S bool
}.

End storage.

(* ------------------------------------------------------------------ *)
(** ** The file-per-entity backend ([JSONFileStore]) *)

Module JSONFileStore.
Import storage.

(** A directory entry: a file with the JSON value that its bytes are the
    encoding of ([None] for bytes that are not JSON), or a sub-directory.
    The value is what the encoder was given: decoding it is
    [json_roundtrip], and an [int] in it stands for its digits. *)
Inductive dirent := File (content : option json) | Dir.

(** The schema directory: for every entity directory that exists, its
    entries by name. *)
Abbreviation fsys := (gmap string (gmap string dirent)).

(** the name of a document's file inside its entity directory *)
Definition getEntityFile (id : Z) : string := decimal id +:+ ".json".

Definition getNextIDFile : string := "_next_id.json".

(** [json.Unmarshal(data, &idData)] for [struct{ NextID int }]: the value
    of [NextID] when decoding succeeds.  A number decodes into the [int]
    when it is written as the digits of an integer in the range of [int]
    (as an integer-valued [float64] of that size is). *)
Definition decode_next_id (content : option json) : option Z :=
  match content with
  | Some (JObject m) =>
      match m !! "next_id" with
      | None | Some JNull => Some 0
      | Some (JFloat f) =>
          if float64_is_integer f && int_in_range (float64_trunc f)
          then Some (float64_trunc f) else None
      | Some (JInt z) => if int_in_range z then Some z else None
      | Some _ => None
      end
  | Some JNull => Some 0
  | _ => None
  end.

(** [os.MkdirAll(entityDir)] *)
Definition MkdirAll (entity : string) : M fsys unit :=
  fs ← get_backend;
  match fs !! entity with
  | Some _ => mret ()
  | None => put_backend (<[entity := ∅]> fs)
  end.

(** [os.WriteFile] of the encoding of [v]; fails when the directory is
    missing or the name is a directory. *)
Definition WriteFile (entity name : string) (v : json) : M fsys unit :=
  fs ← get_backend;
  match fs !! entity with
  | None => fail ErrIO
  | Some dir =>
      match dir !! name with
      | Some Dir => fail ErrIO
      | _ => put_backend (<[entity := <[name := File (Some v)]> dir]> fs)
      end
  end.

Definition NextID (entity : string) : M fsys Z :=
  MkdirAll entity;;
  fs ← get_backend;
  let dir := default ∅ (fs !! entity) in
  let nextID :=
    match dir !! getNextIDFile with
    | Some (File content) => default 1 (decode_next_id content)
    | _ => 1
    end in
  WriteFile entity getNextIDFile
    (JObject {[ "next_id" := JInt (wrap64 (nextID + 1)) ]});;
  mret nextID.

Definition Exists (entity : string) (id : Z) : M fsys bool :=
  fs ← get_backend;
  mret (bool_decide (is_Some (default ∅ (fs !! entity) !! getEntityFile id))).

Definition Create (entity : string) (data : nat) : M fsys Z :=
  id ← NextID entity;
  assign data "id" (JInt id);;
  d ← read data;
  WriteFile entity (getEntityFile id) (JObject d);;
  mret id.

Definition Get (entity : string) (id : Z) : M fsys (option (gmap string json)) :=
  fs ← get_backend;
  match default ∅ (fs !! entity) !! getEntityFile id with
  | None => fail ErrNotFound
  | Some Dir => fail ErrIO
  | Some (File content) =>
      match (v ← content; decode_map (json_roundtrip v)) with
      | Some d => mret d
      | None => fail ErrIO
      end
  end.

Definition Update (entity : string) (id : Z) (data : nat) : M fsys unit :=
  ex ← Exists entity id;
  if ex : bool then
    assign data "id" (JInt id);;
    d ← read data;
    WriteFile entity (getEntityFile id) (JObject d)
  else fail ErrNotFound.

(** the loop of [Patch]: [for k, v := range patchData { if k != "id" {
    existing[k] = v } }] *)
Definition patch_merge (patchData existing : gmap string json) : gmap string json :=
  map_fold (λ k v acc, if decide (k = "id") then acc else <[k := v]> acc)
           existing patchData.

(** [existing] is the map that [Get] returned, changed in place by the
    loop.  On the nil map (a stored [null]) the first assignment of the
    loop panics; when the loop has nothing to assign the nil map goes to
    [Update]. *)
Definition Patch (entity : string) (id : Z) (patchData : nat) : M fsys unit :=
  existing0 ← Get entity id;
  p ← read patchData;
  existing ← match existing0 with
             | Some m => new (patch_merge p m)
             | None => if bool_decide (delete "id" p ≠ ∅) then panic else nil_map
             end;
  Update entity id existing.

Definition Delete (entity : string) (id : Z) : M fsys unit :=
  ex ← Exists entity id;
  if ex : bool then
    fs ← get_backend;
    match default ∅ (fs !! entity) !! getEntityFile id with
    | Some Dir =>
        (* [os.Remove] removes an empty directory only; entries below the
           entity directory are not modelled, the removal is taken to fail *)
        fail ErrIO
    | _ => put_backend (<[entity := delete (getEntityFile id) (default ∅ (fs !! entity))]> fs)
    end
  else fail ErrNotFound.

Definition Save (entity : string) (id : Z) (data : nat) : M fsys unit :=
  ex ← Exists entity id;
  if ex : bool then fail ErrAlreadyExists
  else
    MkdirAll entity;;
    assign data "id" (JInt id);;
    d ← read data;
    WriteFile entity (getEntityFile id) (JObject d).

(** [filepath.Ext]: the suffix of the name that starts at its last dot *)
Fixpoint Ext (name : string) : string :=
  match name with
  | EmptyString => EmptyString
  | String c rest =>
      match Ext rest with
      | EmptyString => if Ascii.eqb c "."%char then name else EmptyString
      | e => e
      end
  end.

(** [os.ReadDir]: the entries sorted by file name (byte-wise) *)
Definition name_le (a b : string * dirent) : Prop := String.leb a.1 b.1 = true.

#[global] Instance name_le_dec (a b : string * dirent) : Decision (name_le a b).
Proof. unfold name_le. apply _. Defined.

Definition ReadDir (dir : gmap string dirent) : list (string * dirent) :=
  merge_sort name_le (map_to_list dir).

(** the body of the loop of [List] for one entry: the document it adds,
    if any *)
Definition list_entry (entry : string * dirent) : option (gmap string json) :=
  match entry.2 with
  | Dir => None
  | File content =>
      if decide (Ext entry.1 ≠ ".json" ∨ entry.1 = "_next_id.json") then None
      else v ← content; decode_doc (json_roundtrip v)
  end.

Definition List (entity : string) : M fsys (list (gmap string json)) :=
  fs ← get_backend;
  match fs !! entity with
  | None => mret []
  | Some dir => mret (omap list_entry (ReadDir dir))
  end.

#[global] Instance store : Store fsys := {|
  storage.Create := Create;
  storage.Get := Get;
  storage.Update := Update;
  storage.Patch := Patch;
  storage.Delete := Delete;
  storage.Save := Save;
  storage.List := List;
  storage.Exists := Exists
|}.

(** a new store: the schema directory is empty *)
Definition empty : state fsys := State ∅ ∅.

End JSONFileStore.

(* ------------------------------------------------------------------ *)
(** ** The relational backend ([SQLiteStore]) *)

Module SQLiteStore.
Import storage.

(** A row of [graph_edges]:
    [(source_entity, source_id, target_entity, target_id, relationship_name)];
    the five columns are the primary key, so the table is a set. *)
Abbreviation edge_row := (string * Z * string * Z * string)%type.

(** The tables.  [entities] maps the primary key [(entity_type, id)] to
    the [data] column, kept as decoded JSON; the time stamps are left out. *)
Record DB := {
  entities : gmap (string * Z) json;
  graph_edges : gset edge_row;
  entity_sequences : gmap string Z
}.

Definition empty_db : DB :=
  {| entities := ∅; graph_edges := ∅; entity_sequences := ∅ |}.

Definition set_entities (ents : gmap (string * Z) json) (db : DB) : DB :=
  {| entities := ents; graph_edges := graph_edges db;
     entity_sequences := entity_sequences db |}.

Definition set_graph_edges (es : gset edge_row) (db : DB) : DB :=
  {| entities := entities db; graph_edges := es;
     entity_sequences := entity_sequences db |}.

Definition set_entity_sequences (seqs : gmap string Z) (db : DB) : DB :=
  {| entities := entities db; graph_edges := graph_edges db;
     entity_sequences := seqs |}.

(** [INSERT INTO entity_sequences VALUES (?, 1) ON CONFLICT DO UPDATE SET
    next_id = next_id + 1 RETURNING next_id] *)
Definition next_id_upsert (entity : string) : M DB Z :=
  db ← get_backend;
  let nextID := match entity_sequences db !! entity with
                | None => 1
                | Some n => n + 1
                end in
  put_backend (set_entity_sequences (<[entity := nextID]> (entity_sequences db)) db);;
  mret nextID.

(** [INSERT INTO entity_sequences VALUES (?, id+1) ON CONFLICT DO UPDATE SET
    next_id = MAX(next_id, excluded.next_id + 1)]; [excluded.next_id] is
    the value of the rejected insert, [id+1] as computed by the Go code. *)
Definition sequence_bump (entity : string) (id : Z) : M DB unit :=
  db ← get_backend;
  let excluded := wrap64 (id + 1) in
  let next := match entity_sequences db !! entity with
              | None => excluded
              | Some n => Z.max n (excluded + 1)
              end in
  put_backend (set_entity_sequences (<[entity := next]> (entity_sequences db)) db).

(** [INSERT INTO entities (entity_type, id, data) VALUES (?, ?, ?)]: fails
    on an existing primary key *)
Definition insert_entity (entity : string) (id : Z) (data : json) : M DB unit :=
  db ← get_backend;
  match entities db !! (entity, id) with
  | Some _ => fail ErrIO
  | None => put_backend (set_entities (<[(entity, id) := json_roundtrip data]> (entities db)) db)
  end.

(** [UPDATE entities SET data = ? WHERE entity_type = ? AND id = ?]: the
    number of rows affected *)
Definition update_entity (entity : string) (id : Z) (data : json) : M DB Z :=
  db ← get_backend;
  match entities db !! (entity, id) with
  | Some _ =>
      put_backend (set_entities (<[(entity, id) := json_roundtrip data]> (entities db)) db);;
      mret 1
  | None => mret 0
  end.

(** [INSERT INTO graph_edges ... VALUES (?, ?, ?, ?, ?)] *)
Definition insert_edge (e : edge_row) : M DB unit :=
  db ← get_backend;
  if decide (e ∈ graph_edges db) then fail ErrIO
  else put_backend (set_graph_edges ({[e]} ∪ graph_edges db) db).

(** is the row an out-edge of the node [(entity, id)] *)
Definition from_node (entity : string) (id : Z) (e : edge_row) : Prop :=
  e.1.1.1.1 = entity ∧ e.1.1.1.2 = id.

#[global] Instance from_node_dec entity id e : Decision (from_node entity id e).
Proof. unfold from_node. apply _. Defined.

(** is the row an in-edge of the node [(entity, id)] *)
Definition to_node (entity : string) (id : Z) (e : edge_row) : Prop :=
  e.1.1.2 = entity ∧ e.1.2 = id.

#[global] Instance to_node_dec entity id e : Decision (to_node entity id e).
Proof. unfold to_node. apply _. Defined.

(** The test on one field inside the loop of [syncGraphEdges]: the target
    of the edge the field yields, if it yields one. *)
Definition sync_target (key : string) (value : json) : option (string * Z) :=
  if decide (key = "id") then None
  else match value with
       | JObject valueMap =>
           let refType := default "" (as_string (valueMap !! "type")) in
           if decide (refType ≠ "REF") then None
           else
             let targetEntity := default "" (as_string (valueMap !! "entity")) in
             if decide (targetEntity = "") then None
             else
               match valueMap !! "id" with
               | Some (JFloat f) =>
                   if decide (int_of_float64 f = 0) then None
                   else Some (targetEntity, int_of_float64 f)
               | Some (JInt z) =>
                   if decide (z = 0) then None else Some (targetEntity, z)
               | _ => None
               end
       | _ => None
       end.

(** the loop of [syncGraphEdges] over the fields of the document *)
Fixpoint sync_fields (sourceEntity : string) (sourceID : Z)
    (fields : list (string * json)) : M DB unit :=
  match fields with
  | [] => mret ()
  | (key, value) :: rest =>
      match sync_target key value with
      | Some (targetEntity, targetID) =>
          insert_edge (sourceEntity, sourceID, targetEntity, targetID, key);;
          sync_fields sourceEntity sourceID rest
      | None => sync_fields sourceEntity sourceID rest
      end
  end.

Definition syncGraphEdges (sourceEntity : string) (sourceID : Z)
    (data : gmap string json) : M DB unit :=
  db ← get_backend;
  put_backend
    (set_graph_edges (filter (λ e, ¬ from_node sourceEntity sourceID e) (graph_edges db)) db);;
  sync_fields sourceEntity sourceID (map_to_list data).

(** [dataCopy := make(..); for k, v := range data { dataCopy[k] = v };
    dataCopy["id"] = id] *)
Definition copy_with_id (data : nat) (id : Z) : M DB nat :=
  d ← read data;
  dataCopy ← new d;
  assign dataCopy "id" (JInt id);;
  mret dataCopy.

Definition Create (entity : string) (data : nat) : M DB Z :=
  transaction (
    nextID ← next_id_upsert entity;
    dataCopy ← copy_with_id data nextID;
    d ← read dataCopy;
    insert_entity entity nextID (JObject d);;
    syncGraphEdges entity nextID d;;
    mret nextID).

Definition Get (entity : string) (id : Z) : M DB (option (gmap string json)) :=
  db ← get_backend;
  match entities db !! (entity, id) with
  | None => fail ErrNotFound
  | Some v =>
      match decode_map v with
      | Some d => mret d
      | None => fail ErrIO
      end
  end.

Definition Update (entity : string) (id : Z) (data : nat) : M DB unit :=
  transaction (
    dataCopy ← copy_with_id data id;
    d ← read dataCopy;
    rows ← update_entity entity id (JObject d);
    if decide (rows = 0) then fail ErrNotFound
    else syncGraphEdges entity id d).

(** the loop of [Patch]: [for key, value := range updates { if key != "id"
    { if value == nil { delete(existing, key) } else { existing[key] = value
    } } }] *)
Definition patch_merge (updates existing : gmap string json) : gmap string json :=
  map_fold (λ key value acc,
              if decide (key = "id") then acc
              else match value with
                   | JNull => delete key acc
                   | _ => <[key := value]> acc
                   end)
           existing updates.

(** does the loop of [Patch] assign a field: is there a key other than
    ["id"] whose value is not nil *)
Definition patch_assigns (updates : gmap string json) : bool :=
  existsb (λ kv : string * json,
             if decide (kv.1 = "id") then false
             else match kv.2 with JNull => false | _ => true end)
          (map_to_list updates).

(** [existing] is the decoded row, changed in place by the loop.  On the
    nil map (a row holding [null]) [delete] does nothing and an assignment
    panics, that of the loop or [existing["id"] = id] after it. *)
Definition Patch (entity : string) (id : Z) (updates : nat) : M DB unit :=
  transaction (
    existing0 ← Get entity id;
    u ← read updates;
    existing ← match existing0 with
               | Some m => new (patch_merge u m)
               | None => if patch_assigns u then panic else nil_map
               end;
    assign existing "id" (JInt id);;
    d ← read existing;
    rows ← update_entity entity id (JObject d);
    if decide (rows = 0) then fail ErrNotFound
    else syncGraphEdges entity id d).

Definition Delete (entity : string) (id : Z) : M DB unit :=
  transaction (
    db ← get_backend;
    match entities db !! (entity, id) with
    | None => fail ErrNotFound
    | Some _ =>
        put_backend
          (set_graph_edges
             (filter (λ e, ¬ (from_node entity id e ∨ to_node entity id e)) (graph_edges db))
             (set_entities (delete (entity, id) (entities db)) db))
    end).

Definition Exists (entity : string) (id : Z) : M DB bool :=
  db ← get_backend;
  mret (bool_decide (is_Some (entities db !! (entity, id)))).

Definition Save (entity : string) (id : Z) (data : nat) : M DB unit :=
  ex ← Exists entity id;
  if ex : bool then fail ErrAlreadyExists
  else
    dataCopy ← copy_with_id data id;
    d ← read dataCopy;
    transaction (
      sequence_bump entity id;;
      insert_entity entity id (JObject d);;
      syncGraphEdges entity id d).

(** [ORDER BY id] *)
Definition id_le (a b : Z * json) : Prop := a.1 ≤ b.1.

#[global] Instance id_le_dec (a b : Z * json) : Decision (id_le a b).
Proof. unfold id_le. apply _. Defined.

(** [SELECT id, data FROM entities WHERE entity_type = ? ORDER BY id] *)
Definition select_by_type (entity : string) (db : DB) : list (Z * json) :=
  merge_sort id_le
    (omap (λ row : string * Z * json,
             if decide (row.1.1 = entity) then Some (row.1.2, row.2) else None)
          (map_to_list (entities db))).

(** the loop over the rows: a row that does not decode ends [List] with
    an error *)
Fixpoint decode_rows (rows : list (Z * json)) : option (list (gmap string json)) :=
  match rows with
  | [] => Some []
  | (_, v) :: rest =>
      d ← decode_doc v;
      ds ← decode_rows rest;
      Some (d :: ds)
  end.

Definition List (entity : string) : M DB (list (gmap string json)) :=
  db ← get_backend;
  match decode_rows (select_by_type entity db) with
  | Some ds => mret ds
  | None => fail ErrIO
  end.

#[global] Instance store : Store DB := {|
  storage.Create := Create;
  storage.Get := Get;
  storage.Update := Update;
  storage.Patch := Patch;
  storage.Delete := Delete;
  storage.Save := Save;
  storage.List := List;
  storage.Exists := Exists
|}.

Definition empty : state DB := State empty_db ∅.

(** the out-edges of a node as [(relationship, target)] pairs *)
Definition out_edges (entity : string) (id : Z) (db : DB) : gset (string * (string * Z)) :=
  set_map (λ e : edge_row, (e.2, (e.1.1.2, e.1.2)))
          (filter (from_node entity id) (graph_edges db)).

End SQLiteStore.

(* ------------------------------------------------------------------ *)
(** ** The patch handler of the server ([Server.handlePatch]) *)

Module server.
Import storage.

Record Config := {
  PatchNullBehavior : string;   (* "store" or "delete" *)
  GraphEnabled : bool
}.

(** [validateEntityName]: the name matches [^[a-zA-Z][a-zA-Z0-9_]*$] *)
Definition is_letter (c : ascii) : bool :=
  let n := nat_of_ascii c in
  ((65 <=? n)%nat && (n <=? 90)%nat) || ((97 <=? n)%nat && (n <=? 122)%nat).

Definition is_word_char (c : ascii) : bool :=
  let n := nat_of_ascii c in
  is_letter c || ((48 <=? n)%nat && (n <=? 57)%nat) || (n =? 95)%nat.

Fixpoint all_word_chars (s : string) : bool :=
  match s with
  | EmptyString => true
  | String c rest => is_word_char c && all_word_chars rest
  end.

Definition validateEntityName (entity : string) : bool :=
  match entity with
  | EmptyString => false
  | String c rest => is_letter c && all_word_chars rest
  end.

(** the loop of [handlePatch]: [for key, value := range patchData { if key
    != "id" { if value == nil && PatchNullBehavior == "delete" {
    delete(existing, key) } else { existing[key] = value } } }] *)
Definition patch_merge (cfg : Config) (patchData existing : gmap string json)
    : gmap string json :=
  map_fold (λ key value acc,
              if decide (key = "id") then acc
              else match value with
                   | JNull =>
                       if decide (PatchNullBehavior cfg = "delete") then delete key acc
                       else <[key := value]> acc
                   | _ => <[key := value]> acc
                   end)
           existing patchData.

(** does that loop assign a field: is there a key other than ["id"] that
    is not deleted *)
Definition patch_assigns (cfg : Config) (patchData : gmap string json) : bool :=
  existsb (λ kv : string * json,
             if decide (kv.1 = "id") then false
             else match kv.2 with
                  | JNull => negb (bool_decide (PatchNullBehavior cfg = "delete"))
                  | _ => true
                  end)
          (map_to_list patchData).

(** The loop on the map that [Get] returned, which is the nil map for a
    stored [null]: there [delete] does nothing and an assignment panics
    (the outer [None]); the nil map stays nil. *)
Definition patch_loop (cfg : Config) (patchData : gmap string json)
    (existing : option (gmap string json)) : option (option (gmap string json)) :=
  match existing with
  | Some m => Some (Some (patch_merge cfg patchData m))
  | None => if patch_assigns cfg patchData then None else Some None
  end.

(** What the handler works on: the store (with the map objects of the
    run), the in-memory graph and the graph file. *)
Record world (S : Type) := World {
  store_state : state S;
  graph_state : graph.IndexedGraph;
  graph_file : option string
}.
#[global] Arguments World {S} store_state graph_state graph_file.
#[global] Arguments store_state {S} w.
#[global] Arguments graph_state {S} w.
#[global] Arguments graph_file {S} w.

(** The HTTP status the handler answers with; [None] for a panic.
    [validate] stands for the schema validator, an external collaborator.
    The response cache and the log are not modelled. *)
Definition handlePatch {S : Type} `{!Store S} (cfg : Config)
    (validate : string → gmap string json → bool)
    (entity : string) (id : Z) (patchData : gmap string json) (w : world S)
    : option (nat * world S) :=
  if negb (validateEntityName entity) then Some (400%nat, w)
  else if decide (id < 0) then Some (400%nat, w)
  else
    match Get entity id (store_state w) with
    | (Panic, _) => None
    | (Err ErrNotFound, σ1) => Some (404%nat, World σ1 (graph_state w) (graph_file w))
    | (Err _, σ1) => Some (500%nat, World σ1 (graph_state w) (graph_file w))
    | (Ok existing0, σ1) =>
        match patch_loop cfg patchData existing0 with
        | None => None
        | Some merged =>
            if negb (validate entity (default ∅ merged)) then
              Some (400%nat, World σ1 (graph_state w) (graph_file w))
            else
              (* [existing] goes to [Update] and is read again for the
                 graph; the nil map is still nil then, whatever [Update]
                 has allocated *)
              match (existing ← match merged with
                                | Some m => new m
                                | None => nil_map
                                end;
                     Update entity id existing;;
                     match merged with
                     | Some _ => read existing
                     | None => mret ∅
                     end) σ1 with
              | (Panic, _) => None
              | (Err _, σ2) => Some (500%nat, World σ2 (graph_state w) (graph_file w))
              | (Ok existing_now, σ2) =>
                  if GraphEnabled cfg then
                    (* an error of [UpdateFromEntity] is logged only; it
                       returns none, and a panic of [AddEdge] is a panic of
                       the handler *)
                    g' ← graph.UpdateFromEntity entity id existing_now (graph_state w);
                    Some (200%nat, World σ2 g' (Some (graph.Save g')))
                  else Some (200%nat, World σ2 (graph_state w) (graph_file w))
              end
        end
    end.

End server.

(* ------------------------------------------------------------------ *)
(** ** Patch semantics as the specification words them *)

(** The field [k] of the patched document, given the field of the
    existing document and that of the partial: "if [k == "id"] it is
    ignored; if [value == null] and the configured null policy is delete,
    the field is removed; otherwise the field is assigned.  Absent keys are
    untouched." *)
Definition spec_patch_field (policy_delete : bool) (k : string)
    (existing partial : option json) : option json :=
  if decide (k = "id") then existing
  else match partial with
       | None => existing
       | Some JNull => if policy_delete then None else Some JNull
       | Some v => Some v
       end.

(** A merge function follows the specification under every policy. *)
Definition follows_patch_spec
    (merge : bool → gmap string json → gmap string json → gmap string json) : Prop :=
  ∀ policy_delete partial existing k,
    merge policy_delete partial existing !! k =
    spec_patch_field policy_delete k (existing !! k) (partial !! k).

(** the user of scenario S4 and the partial applied to it *)
Definition S4_user : gmap string json :=
  {[ "name" := JString "A"; "email" := JString "a@x" ]}.

Definition S4_partial : gmap string json :=
  {[ "email" := JNull; "age" := JFloat (float64_of_int 30) ]}.

(* ------------------------------------------------------------------ *)
(** ** Scenarios, run on either backend *)

Module scenario.
Import storage.

(** Scenario S1: three creates, a save at id 100, one more create; the
    ids the four creates return. *)
Definition S1 {S : Type} `{!Store S} : M S (list Z) :=
  a ← new {[ "name" := JString "A" ]};
  i1 ← Create "users" a;
  b ← new {[ "name" := JString "B" ]};
  i2 ← Create "users" b;
  c ← new {[ "name" := JString "C" ]};
  i3 ← Create "users" c;
  d ← new {[ "name" := JString "D" ]};
  Save "users" 100 d;;
  e ← new {[ "name" := JString "E" ]};
  i5 ← Create "users" e;
  mret [i1; i2; i3; i5].

(** A save at the id the sequence hands out next, then a create: the id
    of the create and the document found under it afterwards. *)
Definition save_then_create {S : Type} `{!Store S} : M S (Z * option json) :=
  d ← new {[ "name" := JString "D" ]};
  Save "users" 1 d;;
  e ← new {[ "name" := JString "E" ]};
  i ← Create "users" e;
  doc ← Get "users" i;
  mret (i, default ∅ doc !! "name").

(** [n] creates of a user *)
Fixpoint create_users {S : Type} `{!Store S} (n : nat) : M S unit :=
  match n with
  | O => mret ()
  | S n' =>
      d ← new {[ "name" := JString "User" ]};
      Create "users" d;;
      create_users n'
  end.

(** ten creates, then the ids of the listed documents in the order of
    the list *)
Definition list_after_ten_creates {S : Type} `{!Store S} : M S (list (option Z)) :=
  create_users 10;;
  docs ← List "users";
  mret (doc_id <$> docs).

(** Scenario S4 through the storage-level [Patch]: the fields of the
    patched user *)
Definition S4_storage_patch {S : Type} `{!Store S}
    : M S (option (gmap string json)) :=
  u ← new S4_user;
  i ← Create "users" u;
  p ← new S4_partial;
  Patch "users" i p;;
  Get "users" i.

(** a caller's map before and after [Create] *)
Definition caller_map_after_create {S : Type} `{!Store S}
    : M S (gmap string json) :=
  u ← new {[ "name" := JString "A" ]};
  Create "users" u;;
  read u.

End scenario.

(* ------------------------------------------------------------------ *)
(** ** Measures and frame properties used in the proofs *)

(** the size of a JSON value, for induction over nested values *)
Fixpoint json_size (v : json) : nat :=
  match v with
  | JArray l => S (foldr (λ x acc, json_size x + acc)%nat 0%nat l)
  | JObject m => S (map_fold (λ _ x acc, json_size x + acc)%nat 0%nat m)
  | _ => 1%nat
  end.

Section Frames.
Import storage.

(** an action that leaves every map object as it is *)
Definition mem_fixed {S A : Type} (m : M S A) : Prop :=
  ∀ σ, mem (m σ).2 = mem σ.

(** an action that leaves the object at [data] as it is, provided there
    is one *)
Definition keeps {S A : Type} (data : nat) (m : M S A) : Prop :=
  ∀ σ d, mem σ !! data = Some d → mem (m σ).2 !! data = Some d.

(** an action that leaves the sequence table as it is *)
Definition seq_fixed {A : Type} (m : M SQLiteStore.DB A) : Prop :=
  ∀ σ, SQLiteStore.entity_sequences (backend (m σ).2) =
       SQLiteStore.entity_sequences (backend σ).

End Frames.

(* ------------------------------------------------------------------ *)
(** ** What the handlers rely on from a store *)

Section Laws.
Import storage.

(** [Get] only reads; after a successful [Update] from the map [data] it
    returns the document of that map with the id set, as decoding yields
    it; and [Update] from a map object succeeds on a document that [Get]
    finds. *)
Class StoreLaws (S : Type) `{!Store S} : Prop := {
  Get_reads : ∀ entity id (σ : state S), (Get entity id σ).2 = σ;
  Update_Get : ∀ entity id data (σ σ' : state S),
    Update entity id data σ = (Ok (), σ') →
    (Get entity id σ').1 =
    Ok (Some (json_roundtrip_map (<["id" := JInt id]> (default ∅ (mem σ !! data)))));
  Update_found : ∀ entity id data d x (σ σ0 : state S),
    backend σ = backend σ0 →
    (Get entity id σ0).1 = Ok x →
    mem σ !! data = Some d →
    ∃ σ', Update entity id data σ = (Ok (), σ')
}.

End Laws.

(* ------------------------------------------------------------------ *)
(** ** Patch, observed through [Get] *)

Section PatchObserved.
Import storage.

(** [merged] is [existing] patched by [partial] as the specification
    says under the given policy, with the id the document is stored under:
    every field other than ["id"] is as [spec_patch_field] has it. *)
Definition merged_as_specified (policy_delete : bool) (id : Z)
    (partial existing merged : gmap string json) : Prop :=
  merged !! "id" = Some (JInt id) ∧
  ∀ k, k ≠ "id" →
       merged !! k = spec_patch_field policy_delete k (existing !! k) (partial !! k).

(** [after] is what decoding yields for the encoding of such a map.
    Where the keys of the document and of the partial are valid UTF-8 (as
    those of every decoded document and request are), that is, field by
    field: the id, and every other field as [spec_patch_field] has it, in
    decoded form. *)
Definition patched_as_specified (policy_delete : bool) (id : Z)
    (partial existing after : gmap string json) : Prop :=
  (∃ merged, merged_as_specified policy_delete id partial existing merged ∧
             after = json_roundtrip_map merged) ∧
  (utf8_keys existing → utf8_keys partial →
   after !! "id" = Some (JFloat (float64_of_int id)) ∧
   ∀ k, k ≠ "id" →
        after !! k =
        json_roundtrip <$> spec_patch_field policy_delete k (existing !! k) (partial !! k)).

(** is the configured patch-null policy delete *)
Definition policy_delete_of (cfg : server.Config) : bool :=
  bool_decide (server.PatchNullBehavior cfg = "delete").

(** A successful patch request is observed through [Get] as the
    specification says, under the configured policy, whatever the rest of
    the configuration is.  The document found before may be the nil map,
    which has no fields. *)
Definition handlePatch_follows_policy (S : Type) `{!Store S} : Prop :=
  ∀ cfg validate entity id partial (w w' : server.world S),
    server.handlePatch cfg validate entity id partial w = Some (200%nat, w') →
    ∃ existing after,
      (Get entity id (server.store_state w)).1 = Ok existing ∧
      (Get entity id (server.store_state w')).1 = Ok (Some after) ∧
      patched_as_specified (policy_delete_of cfg) id partial (default ∅ existing) after.

(** A patch request for a document that [Get] finds is answered with 200
    when the entity name and the id are well formed, the validator accepts
    the merged document and the graph, if enabled, is in a state that the
    graph operations reach. *)
Definition handlePatch_answers (S : Type) `{!Store S} : Prop :=
  ∀ cfg validate entity id partial existing (w : server.world S),
    server.validateEntityName entity = true →
    0 ≤ id →
    (Get entity id (server.store_state w)).1 = Ok (Some existing) →
    validate entity (server.patch_merge cfg partial existing) = true →
    (server.GraphEnabled cfg = true → graph.consistent (server.graph_state w)) →
    ∃ w', server.handlePatch cfg validate entity id partial w = Some (200%nat, w').

(** A successful storage-level [Patch] is observed through [Get] as the
    specification says under the policy [policy_delete]. *)
Definition storage_Patch_as (S : Type) `{!Store S} (policy_delete : bool) : Prop :=
  ∀ entity id partial (σ σ' : state S),
    Patch entity id partial σ = (Ok (), σ') →
    ∃ existing after,
      (Get entity id σ).1 = Ok (Some existing) ∧
      (Get entity id σ').1 = Ok (Some after) ∧
      patched_as_specified policy_delete id (default ∅ (mem σ !! partial)) existing after.

(** the document is in the form decoding yields *)
Definition decoded (d : gmap string json) : Prop := json_roundtrip_map d = d.

(** A patch request with an empty partial leaves what [Get] returns as
    it is (for a document that carries its own id). *)
Definition empty_patch_is_noop (S : Type) `{!Store S} : Prop :=
  ∀ cfg validate entity id existing (w w' : server.world S),
    server.handlePatch cfg validate entity id ∅ w = Some (200%nat, w') →
    (Get entity id (server.store_state w)).1 = Ok (Some existing) →
    decoded existing →
    existing !! "id" = Some (JFloat (float64_of_int id)) →
    (Get entity id (server.store_state w')).1 = Ok (Some existing).

(** the store in which the user of S4 has been created, and the partial
    of S4 as a map object *)
Definition S4_setup {S : Type} `{!Store S} : M S nat :=
  u ← new S4_user; Create "users" u;; new S4_partial.

Definition S4_state {S : Type} `{!Store S} (σ0 : state S) : state S :=
  (S4_setup σ0).2.

Definition S4_partial_ref {S : Type} `{!Store S} (σ0 : state S) : nat :=
  match (S4_setup σ0).1 with
  | Ok partial => partial
  | _ => 0%nat
  end.

End PatchObserved.

(* ------------------------------------------------------------------ *)
(** ** Graphs the codec of the graph file can carry *)

(** the string holds the byte [c] *)
Fixpoint has_char (c : ascii) (s : string) : bool :=
  match s with
  | EmptyString => false
  | String c' s' => Ascii.eqb c' c || has_char c s'
  end.

(** the last byte of a string *)
Fixpoint last_char (s : string) : option ascii :=
  match s with
  | EmptyString => None
  | String c s' => Some (default c (last_char s'))
  end.

(** an ASCII byte that is not white space *)
Definition plain_byte (c : ascii) : bool :=
  negb (gostrings.is_space c) && (nat_of_ascii c <? 128)%nat.

(** a string of such bytes *)
Fixpoint plain (s : string) : bool :=
  match s with
  | EmptyString => true
  | String c s' => plain_byte c && plain s'
  end.

(** the text of one line of the graph file, without its newline *)
Definition line_body (n : string) (neighbors : gmap string string) : string :=
  n +:+ ":" +:+
  gostrings.Join (map (λ nr, nr.1 +:+ ":" +:+ nr.2) (map_to_list neighbors)) " ".

(** What the codec needs of a graph: node identifiers are plain and hold
    no colon, relationships are plain, every line fits the scanner. *)
Definition codec_ok (g : graph.IndexedGraph) : bool :=
  forallb (λ nn, plain nn.1 && negb (has_colon nn.1) &&
                 (Z.of_nat (String.length (line_body nn.1 nn.2))
                    <? gostrings.MaxScanTokenSize) &&
                 forallb (λ kr, plain kr.2) (map_to_list nn.2))
          (map_to_list (graph.adjacency g)).

(** What reading the line of node [n] with neighbours [kvs] does to the
    two maps. *)
Definition add_node_edges (n : string) (kvs : list (string * string))
    (ar : gmap string (gmap string string) * gmap string (gmap string string))
    : option (gmap string (gmap string string) * gmap string (gmap string string)) :=
  foldl (λ acc kr, ar' ← acc; graph.put_edge n kr.1 kr.2 (graph.ensure_node kr.1 ar'))
        (Some (graph.ensure_node n ar)) kvs.

(** a graph with plain node identifiers *)
Definition plain_graph : graph.IndexedGraph :=
  default graph.NewIndexedGraph
    (graph.AddEdge "alice" "bob" "knows" graph.NewIndexedGraph).

(** one neighbour of a line of the graph file *)
Definition token (kr : string * string) : string := kr.1 +:+ ":" +:+ kr.2.

(** What the codec needs, node by node. *)
Definition codec_facts (adj : gmap string (gmap string string)) : Prop :=
  ∀ n m, adj !! n = Some m →
    plain n = true ∧ has_colon n = false ∧
    Z.of_nat (String.length (line_body n m)) < gostrings.MaxScanTokenSize ∧
    ∀ k r, m !! k = Some r →
      plain k = true ∧ has_colon k = false ∧ plain r = true ∧ is_Some (adj !! k).

(** [Load] seen as a function of the nodes and their neighbours *)
Definition build (L : list (string * gmap string string))
    : option (gmap string (gmap string string) * gmap string (gmap string string)) :=
  foldl (λ acc nm, ar ← acc; add_node_edges nm.1 (map_to_list nm.2) ar)
        (Some (∅, ∅)) L.

(** The adjacency map while [Load] reads the lines of the nodes [P] of
    [adj]: the nodes read have their neighbours, the others are absent or
    still without neighbours. *)
Definition built (adj : gmap string (gmap string string))
    (P : list (string * gmap string string))
    (A : gmap string (gmap string string)) : Prop :=
  (∀ u mu, (u, mu) ∈ P → A !! u = Some mu) ∧
  (∀ u x, u ∉ P.*1 → A !! u = Some x → x = ∅) ∧
  (∀ u, is_Some (A !! u) → is_Some (adj !! u)).

(** The same within the line of node [n], the neighbours [Q] of the
    neighbours [m] being read. *)
Definition building (adj : gmap string (gmap string string))
    (P : list (string * gmap string string)) (n : string) (m : gmap string string)
    (Q : list (string * string))
    (A : gmap string (gmap string string)) : Prop :=
  (∀ u mu, (u, mu) ∈ P → A !! u = Some mu) ∧
  (∀ u x, u ∉ P.*1 → u ≠ n → A !! u = Some x → x = ∅) ∧
  (∀ u, is_Some (A !! u) → is_Some (adj !! u)) ∧
  ∃ mn, A !! n = Some mn ∧
        (∀ k, k ∈ Q.*1 → mn !! k = m !! k) ∧ (∀ k, k ∉ Q.*1 → mn !! k = None).

(* ------------------------------------------------------------------ *)
(** ** The tables of the relational backend after a call *)

Module SQLiteTables.
Import SQLiteStore.

(** the rows [syncGraphEdges] inserts for a document *)
Definition doc_rows (entity : string) (id : Z) (d : gmap string json) : gset edge_row :=
  list_to_set
    (omap (λ kv : string * json,
             t ← sync_target kv.1 kv.2; Some (entity, id, t.1, t.2, kv.1))
          (map_to_list d)).

(** the tables after [syncGraphEdges] *)
Definition sync_db (entity : string) (id : Z) (d : gmap string json) (db : DB) : DB :=
  set_graph_edges
    (doc_rows entity id d ∪ filter (λ e, ¬ from_node entity id e) (graph_edges db)) db.

(** the tables after the document [d] has been written under
    [(entity, id)] and the edges have been synchronised *)
Definition write_db (entity : string) (id : Z) (d : gmap string json) (db : DB) : DB :=
  sync_db entity id d
    (set_entities (<[(entity, id) := json_roundtrip (JObject d)]> (entities db)) db).

(** the id [Create] takes from the sequence *)
Definition next_id (entity : string) (db : DB) : Z :=
  match entity_sequences db !! entity with
  | None => 1
  | Some n => n + 1
  end.

(** the sequence table after [Save] at [id] *)
Definition bump_db (entity : string) (id : Z) (db : DB) : DB :=
  set_entity_sequences
    (<[entity := match entity_sequences db !! entity with
                 | None => wrap64 (id + 1)
                 | Some n => Z.max n (wrap64 (id + 1) + 1)
                 end]> (entity_sequences db)) db.

(** the tables after [Delete] *)
Definition delete_db (entity : string) (id : Z) (db : DB) : DB :=
  set_graph_edges
    (filter (λ e, ¬ (from_node entity id e ∨ to_node entity id e)) (graph_edges db))
    (set_entities (delete (entity, id) (entities db)) db).

End SQLiteTables.

(* ------------------------------------------------------------------ *)
(** ** The caller's map after a store call *)

Section CallerMapObserved.
Import storage.

(** the entry that a name has in the directory of an entity *)
Definition entry (σ : state JSONFileStore.fsys) (entity name : string)
    : option JSONFileStore.dirent :=
  default ∅ (backend σ !! entity) !! name.

(** the file of the document [id] holds the encoding of [d] *)
Definition file_holds (σ : state JSONFileStore.fsys) (entity : string) (id : Z)
    (d : gmap string json) : Prop :=
  entry σ entity (JSONFileStore.getEntityFile id) =
  Some (JSONFileStore.File (Some (JObject d))).

(** the row of the document [id] holds the encoding of [d] *)
Definition row_holds (σ : state SQLiteStore.DB) (entity : string) (id : Z)
    (d : gmap string json) : Prop :=
  SQLiteStore.entities (backend σ) !! (entity, id) = Some (json_roundtrip (JObject d)).

(** [Create] of the file backend, called with the map object [d]: when
    [NextID] fails the call fails with the map as it was; once [NextID] has
    handed out [i] the caller's map holds [i] under ["id"], whether or not
    the file gets written, and the call returns [i] with the document in
    its file unless a directory has the name of that file. *)
Definition file_Create_writes_id : Prop :=
  ∀ entity data d (σ : state JSONFileStore.fsys),
    mem σ !! data = Some d →
    let r := JSONFileStore.Create entity data σ in
    match (JSONFileStore.NextID entity σ).1 with
    | Ok i =>
        mem r.2 !! data = Some (<["id" := JInt i]> d) ∧
        match entry σ entity (JSONFileStore.getEntityFile i) with
        | Some JSONFileStore.Dir => r.1 = Err ErrIO
        | _ => r.1 = Ok i ∧ file_holds r.2 entity i (<["id" := JInt i]> d)
        end
    | Err e => r.1 = Err e ∧ mem r.2 !! data = Some d
    | Panic => False
    end.

(** [Update] of the file backend: on a missing document the call fails
    with the map as it was; otherwise the caller's map holds [id] under
    ["id"] afterwards, and the call succeeds with the document in its file
    unless the name is that of a directory. *)
Definition file_Update_writes_id : Prop :=
  ∀ entity id data d (σ : state JSONFileStore.fsys),
    mem σ !! data = Some d →
    let r := JSONFileStore.Update entity id data σ in
    match entry σ entity (JSONFileStore.getEntityFile id) with
    | None => r.1 = Err ErrNotFound ∧ mem r.2 !! data = Some d
    | Some JSONFileStore.Dir =>
        r.1 = Err ErrIO ∧ mem r.2 !! data = Some (<["id" := JInt id]> d)
    | Some (JSONFileStore.File _) =>
        r.1 = Ok () ∧ mem r.2 !! data = Some (<["id" := JInt id]> d) ∧
        file_holds r.2 entity id (<["id" := JInt id]> d)
    end.

(** [Save] of the file backend: on an existing document the call fails
    with the map as it was; otherwise it succeeds, the caller's map holds
    [id] under ["id"] and the document is in its file. *)
Definition file_Save_writes_id : Prop :=
  ∀ entity id data d (σ : state JSONFileStore.fsys),
    mem σ !! data = Some d →
    let r := JSONFileStore.Save entity id data σ in
    match entry σ entity (JSONFileStore.getEntityFile id) with
    | Some _ => r.1 = Err ErrAlreadyExists ∧ mem r.2 !! data = Some d
    | None =>
        r.1 = Ok () ∧ mem r.2 !! data = Some (<["id" := JInt id]> d) ∧
        file_holds r.2 entity id (<["id" := JInt id]> d)
    end.

(** [Create], [Update] and [Save] of the relational backend leave the
    caller's map as it was, however the call ends. *)
Definition sql_calls_keep_caller_map : Prop :=
  ∀ entity id data d (σ : state SQLiteStore.DB),
    mem σ !! data = Some d →
    mem (SQLiteStore.Create entity data σ).2 !! data = Some d ∧
    mem (SQLiteStore.Update entity id data σ).2 !! data = Some d ∧
    mem (SQLiteStore.Save entity id data σ).2 !! data = Some d.

(** What they store is the document with the id set: [Create] under the
    next id of the sequence unless that row exists, [Update] when the row
    exists, [Save] when it does not. *)
Definition sql_calls_store_copy : Prop :=
  ∀ entity id data d (σ : state SQLiteStore.DB),
    mem σ !! data = Some d →
    (let r := SQLiteStore.Create entity data σ in
     let i := SQLiteTables.next_id entity (backend σ) in
     match SQLiteStore.entities (backend σ) !! (entity, i) with
     | None => r.1 = Ok i ∧ row_holds r.2 entity i (<["id" := JInt i]> d)
     | Some _ => r.1 = Err ErrIO
     end) ∧
    (let r := SQLiteStore.Update entity id data σ in
     match SQLiteStore.entities (backend σ) !! (entity, id) with
     | Some _ => r.1 = Ok () ∧ row_holds r.2 entity id (<["id" := JInt id]> d)
     | None => r.1 = Err ErrNotFound
     end) ∧
    (let r := SQLiteStore.Save entity id data σ in
     match SQLiteStore.entities (backend σ) !! (entity, id) with
     | None => r.1 = Ok () ∧ row_holds r.2 entity id (<["id" := JInt id]> d)
     | Some _ => r.1 = Err ErrAlreadyExists
     end).

(** a store of the file backend in which a directory has the name of
    the file of [users/1] *)
Definition blocked_store : state JSONFileStore.fsys :=
  State {[ "users" := {[ "1.json" := JSONFileStore.Dir ]} ]} ∅.

End CallerMapObserved.

(* ------------------------------------------------------------------ *)
(** ** Sample graphs and documents for the graph operations *)

(** a document with two reference fields *)
Definition two_refs : gmap string json :=
  {[ "name" := JString "E";
     "manager" := REF "users" 1;
     "team" := REF "teams" 7 ]}.

(** the node a field of a document refers to, as [UpdateFromEntity]
    names it *)
Definition field_target (kv : string * json) : option string :=
  ref ← models.IsReference kv.2;
  Some (node_id (models.Entity ref) (models.ID ref)).

(** the number of adjacency entries of a map of maps *)
Definition count_entries (adj : gmap string (gmap string string)) : nat :=
  map_fold (λ _ neighbors count, (count + size neighbors)%nat) 0%nat adj.

(* ------------------------------------------------------------------ *)
(** ** The invariant of the breadth-first search *)

(** a path of the graph that starts at [from] *)
Definition path_from (adj : gmap string (gmap string string)) (from : string)
    (p : list string) : Prop :=
  head p = Some from ∧ graph.is_path adj p.

(** The state of the loop of [FindPath] as long as nothing was pruned:
    the queue is ordered by length and spans at most two lengths; every
    queued path is a shortest path from [from] to its last node, which is
    visited; a visited node either still has its path in the queue or has
    been expanded (it is not [to], and its neighbours are visited). *)
Definition bfs_inv (adj : gmap string (gmap string string)) (from to : string)
    (Q : list (list string)) (V : gset string) : Prop :=
  from ∈ V ∧
  StronglySorted (λ a b : list string, (length a ≤ length b)%nat) Q ∧
  (∀ π0 rest π, Q = π0 :: rest → π ∈ rest → (length π ≤ S (length π0))%nat) ∧
  (∀ π, π ∈ Q →
        path_from adj from π ∧
        ∃ v, last π = Some v ∧ v ∈ V ∧
             ∀ p, path_from adj from p → last p = Some v → (length π ≤ length p)%nat) ∧
  (∀ v, v ∈ V →
        (∃ π, π ∈ Q ∧ last π = Some v) ∨
        (v ≠ to ∧ ∀ w, is_Some (graph.edge adj v w) → w ∈ V)).

(** a graph with a short and a long way from [a] to [d] *)
Definition diamond_graph : graph.IndexedGraph :=
  default graph.NewIndexedGraph
    (graph.run_all [graph.OpAddEdge "a" "b" "r"; graph.OpAddEdge "b" "c" "r";
                    graph.OpAddEdge "c" "d" "r"; graph.OpAddEdge "a" "d" "r"]
                   graph.NewIndexedGraph).

(* ------------------------------------------------------------------ *)
(** * Properties *)

(** ** The mirror invariant of the in-memory graph *)

Section GraphInvariant.
Import graph.
Implicit Types adj rev : gmap string (gmap string string).

Lemma edge_insert adj k inner u v :
  edge (<[k := inner]> adj) u v = if decide (u = k) then inner !! v else edge adj u v.
Proof.
  unfold edge. case_decide; subst.
  - by rewrite lookup_insert_eq.
  - by rewrite lookup_insert_ne.
Qed.

Lemma edge_None adj u v : adj !! u = None → edge adj u v = None.
Proof. unfold edge. by intros ->. Qed.

Lemma edge_is_Some adj u v r : edge adj u v = Some r → is_Some (adj !! u).
Proof. unfold edge. destruct (adj !! u); [eauto | done]. Qed.

Lemma edge_store2 adj adj' k1 k2 x u v :
  store2 k1 k2 x adj = Some adj' →
  edge adj' u v = if decide (u = k1 ∧ v = k2) then Some x else edge adj u v.
Proof.
  unfold store2. destruct (adj !! k1) as [inner|] eqn:Hk; [|done].
  intros [= <-]. rewrite edge_insert.
  destruct (decide (u = k1 ∧ v = k2)) as [[-> ->]|Hne].
  - destruct (decide (k1 = k1)); [|done]. by rewrite lookup_insert_eq.
  - destruct (decide (u = k1)) as [->|Hu]; [|done].
    rewrite lookup_insert_ne by naive_solver. unfold edge. by rewrite Hk.
Qed.

Lemma store2_keys adj adj' k1 k2 x n :
  store2 k1 k2 x adj = Some adj' → is_Some (adj' !! n) ↔ is_Some (adj !! n).
Proof.
  unfold store2. destruct (adj !! k1) as [inner|] eqn:Hk; [|done].
  intros [= <-]. destruct (decide (n = k1)) as [->|Hn].
  - rewrite lookup_insert_eq, Hk. split; eauto.
  - by rewrite lookup_insert_ne.
Qed.

Lemma store2_is_Some adj k1 k2 x :
  is_Some (adj !! k1) → is_Some (store2 k1 k2 x adj).
Proof. intros [inner Hk]. unfold store2. rewrite Hk. eauto. Qed.

Lemma ensure_node_consistent n adj rev :
  same_nodes adj rev → mirror_maps adj rev →
  same_nodes (ensure_node n (adj, rev)).1 (ensure_node n (adj, rev)).2 ∧
  mirror_maps (ensure_node n (adj, rev)).1 (ensure_node n (adj, rev)).2.
Proof.
  intros Hs Hm. unfold ensure_node; simpl.
  destruct (adj !! n) as [inner|] eqn:Hn; simpl; [done|].
  assert (rev !! n = None) as Hr.
  { apply eq_None_not_Some. intros Hsome. apply Hs in Hsome.
    rewrite Hn in Hsome. by destruct Hsome. }
  split.
  - intros k. destruct (decide (k = n)) as [->|Hk].
    + rewrite !lookup_insert_eq. split; eauto.
    + rewrite !lookup_insert_ne by done. apply Hs.
  - intros u v r. rewrite !edge_insert.
    destruct (decide (u = n)) as [->|Hu], (decide (v = n)) as [->|Hv];
      rewrite ?lookup_empty.
    + done.
    + split; [done|]. intros He. apply Hm in He. by rewrite edge_None in He.
    + split; [|done]. intros He. apply Hm in He. by rewrite edge_None in He.
    + apply Hm.
Qed.

Lemma ensure_node_has n adj rev :
  same_nodes adj rev →
  is_Some ((ensure_node n (adj, rev)).1 !! n) ∧ is_Some ((ensure_node n (adj, rev)).2 !! n).
Proof.
  intros Hs. unfold ensure_node; simpl.
  destruct (adj !! n) as [inner|] eqn:Hn; simpl.
  - split; [by rewrite Hn|]. apply Hs. by rewrite Hn.
  - rewrite !lookup_insert_eq. split; eauto.
Qed.

Lemma ensure_node_keeps n k adj rev :
  is_Some (adj !! k) → is_Some ((ensure_node n (adj, rev)).1 !! k).
Proof.
  intros Hk. unfold ensure_node; simpl.
  destruct (adj !! n) as [inner|] eqn:Hn; simpl; [done|].
  destruct (decide (k = n)) as [->|Hne].
  - rewrite lookup_insert_eq. eauto.
  - by rewrite lookup_insert_ne.
Qed.

Lemma put_edge_consistent from to rel adj rev :
  same_nodes adj rev → mirror_maps adj rev →
  is_Some (adj !! from) → is_Some (adj !! to) →
  ∃ adj' rev', put_edge from to rel (adj, rev) = Some (adj', rev') ∧
               same_nodes adj' rev' ∧ mirror_maps adj' rev'.
Proof.
  intros Hs Hm Hf Ht. unfold put_edge; simpl.
  destruct (store2_is_Some adj from to rel Hf) as [adj' Ha].
  assert (is_Some (rev !! to)) as Ht' by by apply Hs.
  destruct (store2_is_Some rev to from rel Ht') as [rev' Hr].
  rewrite Ha, Hr; simpl. exists adj', rev'. split; [done|]. split.
  - intros n. rewrite (store2_keys _ _ _ _ _ n Ha), (store2_keys _ _ _ _ _ n Hr).
    apply Hs.
  - intros u v r.
    rewrite (edge_store2 _ _ _ _ _ u v Ha), (edge_store2 _ _ _ _ _ v u Hr).
    destruct (decide (u = from ∧ v = to)) as [[-> ->]|Hne].
    + destruct (decide (to = to ∧ from = from)) as [_|Hn]; [done | by destruct Hn].
    + destruct (decide (v = to ∧ u = from)) as [[-> ->]|_]; [by destruct Hne | apply Hm].
Qed.


Lemma NewIndexedGraph_consistent : consistent NewIndexedGraph.
Proof.
  split.
  - intros n. simpl. rewrite !lookup_empty. split; intros [? ?]; done.
  - intros u v r. unfold edge; simpl. by rewrite !lookup_empty.
Qed.

Lemma AddNode_consistent nodeID nodeType g :
  consistent g → consistent (AddNode nodeID nodeType g).
Proof.
  intros [Hs Hm]. unfold consistent, mirror, AddNode; simpl.
  by apply ensure_node_consistent.
Qed.

Lemma AddEdge_consistent from to rel g :
  consistent g → ∃ g', AddEdge from to rel g = Some g' ∧ consistent g'.
Proof.
  intros [Hs Hm]. unfold AddEdge.
  destruct (ensure_node from (adjacency g, reverse g)) as [adj1 rev1] eqn:E1.
  destruct (ensure_node_consistent from _ _ Hs Hm) as [Hs1 Hm1].
  destruct (ensure_node_has from _ _ Hs) as [Hf1 _].
  rewrite E1 in Hs1, Hm1, Hf1; simpl in *.
  destruct (ensure_node to (adj1, rev1)) as [adj2 rev2] eqn:E2.
  destruct (ensure_node_consistent to _ _ Hs1 Hm1) as [Hs2 Hm2].
  destruct (ensure_node_has to _ _ Hs1) as [Ht2 _].
  pose proof (ensure_node_keeps to from adj1 rev1 Hf1) as Hf2.
  rewrite E2 in Hs2, Hm2, Ht2, Hf2; simpl in *.
  destruct (put_edge_consistent from to rel adj2 rev2 Hs2 Hm2 Hf2 Ht2)
    as (adj3 & rev3 & Hp & Hs3 & Hm3).
  rewrite Hp; simpl. eexists; split; [done|]. by split.
Qed.

Lemma edge_remove_node adj n u v :
  edge (delete n <$> delete n adj) u v =
  if decide (u = n ∨ v = n) then None else edge adj u v.
Proof.
  unfold edge. rewrite lookup_fmap.
  destruct (decide (u = n)) as [->|Hu].
  - rewrite lookup_delete_eq; simpl. by destruct (decide (n = n ∨ v = n)) as [_|[]]; [|left].
  - rewrite lookup_delete_ne by done.
    destruct (adj !! u) as [inner|]; simpl.
    + destruct (decide (v = n)) as [->|Hv].
      * rewrite lookup_delete_eq. destruct (decide (u = n ∨ n = n)) as [_|[]]; [done | by right].
      * rewrite lookup_delete_ne by done.
        by destruct (decide (u = n ∨ v = n)) as [[|]|_].
    + by destruct (decide (u = n ∨ v = n)).
Qed.

Lemma RemoveNode_consistent nodeID g :
  consistent g → consistent (RemoveNode nodeID g).
Proof.
  intros [Hs Hm]. split; unfold mirror, RemoveNode; simpl.
  - intros n. rewrite !lookup_fmap, !fmap_is_Some.
    destruct (decide (n = nodeID)) as [->|Hn].
    + rewrite !lookup_delete_eq. split; intros [? ?]; done.
    + rewrite !lookup_delete_ne by done. apply Hs.
  - intros u v r. rewrite !edge_remove_node.
    destruct (decide (u = nodeID ∨ v = nodeID)) as [Hd|Hd].
    + destruct (decide (v = nodeID ∨ u = nodeID)) as [_|Hd']; [done|].
      exfalso. apply Hd'. by destruct Hd; [right | left].
    + destruct (decide (v = nodeID ∨ u = nodeID)) as [Hd'|_]; [|apply Hm].
      exfalso. apply Hd. by destruct Hd'; [right | left].
Qed.

Lemma edge_alter_delete adj k1 k2 u v :
  edge (alter (delete k2) k1 adj) u v =
  if decide (u = k1 ∧ v = k2) then None else edge adj u v.
Proof.
  unfold edge. destruct (decide (u = k1)) as [->|Hu].
  - rewrite lookup_alter_eq. destruct (adj !! k1) as [inner|]; simpl.
    + destruct (decide (v = k2)) as [->|Hv].
      * rewrite lookup_delete_eq.
        destruct (decide (k1 = k1 ∧ k2 = k2)) as [_|Hn]; [done | by destruct Hn].
      * rewrite lookup_delete_ne by done.
        by destruct (decide (k1 = k1 ∧ v = k2)) as [[_ ->]|_].
    + by destruct (decide (k1 = k1 ∧ v = k2)).
  - rewrite lookup_alter_ne by done.
    by destruct (decide (u = k1 ∧ v = k2)) as [[-> _]|_].
Qed.

Lemma RemoveEdge_consistent from to g :
  consistent g → consistent (RemoveEdge from to g).
Proof.
  intros [Hs Hm]. split; unfold mirror, RemoveEdge; simpl.
  - intros n. rewrite !lookup_alter_is_Some. apply Hs.
  - intros u v r. rewrite !edge_alter_delete.
    destruct (decide (u = from ∧ v = to)) as [[-> ->]|Hd].
    + by destruct (decide (to = to ∧ from = from)) as [_|[]].
    + destruct (decide (v = to ∧ u = from)) as [[-> ->]|_]; [by destruct Hd | apply Hm].
Qed.

Lemma foldl_option_invariant {A S : Type} (P : S → Prop) (f : A → S → option S)
    (l : list A) (s : S) :
  (∀ a s, P s → ∃ s', f a s = Some s' ∧ P s') →
  P s →
  ∃ s', foldl (λ acc a, s ← acc; f a s) (Some s) l = Some s' ∧ P s'.
Proof.
  intros Hstep. revert s. induction l as [|a l IH]; intros s Hs; simpl.
  - eauto.
  - destruct (Hstep a s Hs) as (s' & -> & Hs'). by apply IH.
Qed.

Lemma put_edge_keeps from to rel adj rev adj' rev' k :
  put_edge from to rel (adj, rev) = Some (adj', rev') →
  is_Some (adj !! k) → is_Some (adj' !! k).
Proof.
  unfold put_edge; simpl. destruct (store2 from to rel adj) as [a|] eqn:Ha; [|done]; simpl.
  destruct (store2 to from rel rev) as [r|]; [|done]; simpl.
  intros [= <- <-] Hk. by rewrite (store2_keys _ _ _ _ _ k Ha).
Qed.

Local Ltac unchanged :=
  eexists; split; [reflexivity | repeat (split; try assumption)].

Lemma load_neighbor_consistent nodeID neighbor ar :
  pair_consistent ar ∧ is_Some (ar.1 !! nodeID) →
  ∃ ar', load_neighbor nodeID neighbor ar = Some ar' ∧
         (pair_consistent ar' ∧ is_Some (ar'.1 !! nodeID)).
Proof.
  destruct ar as [adj rev]. intros [[Hs Hm] Hn]; simpl in *.
  unfold load_neighbor. case_decide; [by unchanged|].
  destruct (gostrings.SplitN2 ":" neighbor) as [|neighborID [|relType [|]]];
    try (by unchanged).
  destruct (ensure_node neighborID (adj, rev)) as [adj1 rev1] eqn:E1.
  destruct (ensure_node_consistent neighborID _ _ Hs Hm) as [Hs1 Hm1].
  destruct (ensure_node_has neighborID _ _ Hs) as [Hb1 _].
  pose proof (ensure_node_keeps neighborID nodeID adj rev Hn) as Hn1.
  rewrite E1 in Hs1, Hm1, Hb1, Hn1; simpl in *.
  destruct (put_edge_consistent nodeID neighborID relType adj1 rev1 Hs1 Hm1 Hn1 Hb1)
    as (adj2 & rev2 & Hp & Hs2 & Hm2).
  exists (adj2, rev2). split; [done|]. split; [by split|]; simpl.
  by eapply put_edge_keeps.
Qed.

Lemma load_line_consistent raw ar :
  pair_consistent ar → ∃ ar', load_line raw ar = Some ar' ∧ pair_consistent ar'.
Proof.
  destruct ar as [adj rev]. intros [Hs Hm]; simpl in *.
  unfold load_line. case_decide; [by unchanged|].
  destruct (gostrings.SplitN2 ":" (gostrings.TrimSpace raw)) as [|nodeID [|rest [|]]];
    try (by unchanged).
  destruct (ensure_node nodeID (adj, rev)) as [adj1 rev1] eqn:E1.
  destruct (ensure_node_consistent nodeID _ _ Hs Hm) as [Hs1 Hm1].
  destruct (ensure_node_has nodeID _ _ Hs) as [Hn1 _].
  rewrite E1 in Hs1, Hm1, Hn1; simpl in *.
  case_decide; [by unchanged|].
  destruct (foldl_option_invariant
              (λ ar, pair_consistent ar ∧ is_Some (ar.1 !! nodeID))
              (load_neighbor nodeID) (gostrings.Split " " rest) (adj1, rev1))
    as (ar' & Hf & Hc & _).
  - intros a s. apply load_neighbor_consistent.
  - by split.
  - exists ar'. by split.
Qed.

Lemma load_lines_consistent lines :
  ∃ ar, load_lines lines = Some ar ∧ pair_consistent ar.
Proof.
  unfold load_lines. apply (foldl_option_invariant pair_consistent load_line).
  - intros a s. apply load_line_consistent.
  - apply NewIndexedGraph_consistent.
Qed.

Lemma Load_consistent file g :
  consistent g → ∃ g', Load file g = Some g' ∧ consistent g'.
Proof.
  intros Hg. destruct file as [content|]; simpl; [|by eauto].
  destruct (load_lines_consistent (gostrings.ScanLines content)) as (ar & -> & Hc).
  simpl. eauto.
Qed.

Lemma UpdateFromEntity_consistent entity id data g :
  consistent g → ∃ g', UpdateFromEntity entity id data g = Some g' ∧ consistent g'.
Proof.
  intros Hg. unfold UpdateFromEntity.
  apply (foldl_option_invariant consistent
           (λ kv g', match models.IsReference kv.2 with
                     | Some ref => AddEdge (node_id entity id)
                                     (node_id (models.Entity ref) (models.ID ref)) kv.1 g'
                     | None => Some g'
                     end)).
  - intros kv g' Hg'. destruct (models.IsReference kv.2); [|by eauto].
    by apply AddEdge_consistent.
  - by apply AddNode_consistent.
Qed.

Lemma run_consistent o g :
  consistent g → ∃ g', run o g = Some g' ∧ consistent g'.
Proof.
  intros Hg. destruct o; simpl.
  - eauto using AddNode_consistent.
  - by apply AddEdge_consistent.
  - eauto using RemoveNode_consistent.
  - eauto using RemoveEdge_consistent.
  - by apply UpdateFromEntity_consistent.
  - by apply Load_consistent.
  - eauto using NewIndexedGraph_consistent.
Qed.

(** C9.  Whatever sequence of operations ([AddNode], [AddEdge],
    [RemoveNode], [RemoveEdge], [UpdateFromEntity], [Load], [Clear]) has been
    applied to a new graph, the state [g] satisfies the mirror invariant,
    and every further operation runs without panic and yields a state that
    satisfies it again: [adj[u][v] = r] exactly when [rev[v][u] = r]. *)
Theorem graph_operations_preserve_mirror (ops : list op) (o : op) :
  ∃ g g', run_all ops NewIndexedGraph = Some g ∧ mirror g ∧
          run o g = Some g' ∧ mirror g'.
Proof.
  destruct (foldl_option_invariant consistent run ops NewIndexedGraph)
    as (g & Hg & Hc).
  - intros a s. apply run_consistent.
  - apply NewIndexedGraph_consistent.
  - destruct (run_consistent o g Hc) as (g' & Hr & Hc').
    exists g, g'. unfold run_all. by destruct Hc, Hc'.
Qed.
End GraphInvariant.

(** ** Path search *)

Section FindPath.
Import graph.
Implicit Types adj : gmap string (gmap string string).

#[local] Arguments bfs : simpl never.

Lemma bfs_S fuel adj to maxDepth queue visited :
  bfs (S fuel) adj to maxDepth queue visited =
  match queue with
  | [] => Some ErrNoPath
  | path :: queue' =>
      if Z.of_nat (length path) >? maxDepth then
        bfs fuel adj to maxDepth queue' visited
      else
        match last path with
        | None => Some PanicIndex
        | Some current =>
            if decide (current = to) then Some (PathFound path)
            else
              let qv := enqueue_neighbors path
                          (map_to_list (default ∅ (adj !! current))).*1
                          (queue', visited) in
              bfs fuel adj to maxDepth qv.1 qv.2
        end
  end.
Proof. reflexivity. Qed.

Lemma elem_of_all_nodes_neighbor adj u inner v :
  adj !! u = Some inner → is_Some (inner !! v) → v ∈ all_nodes adj.
Proof.
  intros Hu Hv. unfold all_nodes. apply elem_of_union_r.
  revert Hu.
  apply (map_fold_weak_ind
           (λ acc m, m !! u = Some inner → v ∈ acc)
           (λ _ inner acc, dom inner ∪ acc)).
  - by rewrite lookup_empty.
  - intros k x m acc Hk IH Hlook.
    destruct (decide (k = u)) as [->|Hne].
    + rewrite lookup_insert_eq in Hlook. injection Hlook as ->.
      apply elem_of_union_l. by apply elem_of_dom.
    + rewrite lookup_insert_ne in Hlook by done.
      apply elem_of_union_r. by apply IH.
Qed.

Lemma enqueue_neighbors_measure (N : gset string) path neighbors qv :
  (∀ n, n ∈ neighbors → n ∈ N) →
  bfs_measure N (enqueue_neighbors path neighbors qv) = bfs_measure N qv.
Proof.
  unfold enqueue_neighbors. revert qv.
  induction neighbors as [|nb nbs IH]; intros qv Hin; simpl; [done|].
  rewrite IH by (intros n Hn; apply Hin; by right).
  destruct qv as [q vis]; simpl. case_decide as Hvis; [done|].
  unfold bfs_measure; simpl. rewrite length_app; simpl.
  assert (nb ∈ N) as HnbN by (apply Hin; by left).
  assert (N ∖ vis = {[nb]} ∪ N ∖ ({[nb]} ∪ vis)) as ->.
  { apply set_eq. intros x. rewrite elem_of_union, !elem_of_difference,
      elem_of_union, elem_of_singleton.
    destruct (decide (x = nb)) as [->|Hx]; [tauto|]. tauto. }
  rewrite (size_union {[nb]} (N ∖ ({[nb]} ∪ vis))).
  2:{ intros x Hx1 Hx2. apply elem_of_difference in Hx2 as [_ Hx2].
      apply Hx2. by apply elem_of_union_l. }
  rewrite size_singleton.
  lia.
Qed.

Lemma bfs_terminates adj to maxDepth fuel queue visited :
  (bfs_measure (all_nodes adj) (queue, visited) < fuel)%nat →
  is_Some (bfs fuel adj to maxDepth queue visited).
Proof.
  revert queue visited. induction fuel as [|fuel IH]; intros queue visited Hm; [lia|].
  rewrite bfs_S. destruct queue as [|path queue']; [by eauto|].
  unfold bfs_measure in Hm; simpl in Hm.
  destruct (Z.of_nat (length path) >? maxDepth).
  { apply IH. unfold bfs_measure; simpl. lia. }
  destruct (last path) as [current|]; [|by eauto].
  case_decide; [by eauto|].
  cbv zeta. apply IH.
  destruct (enqueue_neighbors path (map_to_list (default ∅ (adj !! current))).*1
              (queue', visited)) as [q' v'] eqn:E.
  pose proof (enqueue_neighbors_measure (all_nodes adj) path
                (map_to_list (default ∅ (adj !! current))).*1 (queue', visited)) as Heq.
  rewrite E in Heq. simpl. rewrite Heq.
  - unfold bfs_measure; simpl. lia.
  - intros n Hn. apply list_elem_of_fmap in Hn as [[n' r] [-> Hn]].
    apply elem_of_map_to_list in Hn. simpl.
    destruct (adj !! current) as [inner|] eqn:Hc; simpl in Hn.
    + eapply elem_of_all_nodes_neighbor; eauto.
    + by rewrite lookup_empty in Hn.
Qed.

Lemma FindPath_terminates from to maxDepth g :
  is_Some (FindPath from to maxDepth g).
Proof.
  unfold FindPath.
  destruct (adjacency g !! from); [|by eauto].
  destruct (adjacency g !! to); [|by eauto].
  apply bfs_terminates. unfold bfs_measure, bfs_fuel; simpl.
  assert (all_nodes (adjacency g) ∖ {[from]} ⊆ all_nodes (adjacency g)) as Hsub
    by (intros x Hx; by apply elem_of_difference in Hx as [? _]).
  apply subseteq_size in Hsub. lia.
Qed.

Lemma FindPath_self from maxDepth g :
  is_Some (adjacency g !! from) → 1 ≤ maxDepth →
  FindPath from from maxDepth g = Some (PathFound [from]).
Proof.
  intros [inner Hf] Hd. unfold FindPath, bfs_fuel. rewrite Hf, bfs_S. simpl.
  destruct (Z.gtb_spec (Z.of_nat 1) maxDepth); [lia|].
  by destruct (decide (from = from)).
Qed.

(** C6.  At [maxDepth = 0] the search from an existing node to itself
    fails: the only queued path [[from]] has length 1, which exceeds 0, so
    it is skipped before it is compared with [to], and the outcome is
    "no path found" where the specification promises [[from]]. *)
Theorem FindPath_self_depth_zero from g :
  is_Some (adjacency g !! from) →
  FindPath from from 0 g = Some ErrNoPath.
Proof.
  intros [inner Hf]. unfold FindPath, bfs_fuel. by rewrite Hf, !bfs_S.
Qed.

Lemma enqueue_neighbors_lengths path neighbors qv (n : nat) :
  S (length path) = n →
  Forall (λ p, length p = n) qv.1 →
  Forall (λ p, length p = n) (enqueue_neighbors path neighbors qv).1.
Proof.
  intros Hlen. unfold enqueue_neighbors. revert qv.
  induction neighbors as [|nb nbs IH]; intros qv Hq; simpl; [done|].
  apply IH. case_decide; [done|]. simpl.
  apply Forall_app. split; [done|].
  apply Forall_singleton. rewrite length_app. simpl. lia.
Qed.

Lemma bfs_all_pruned fuel adj to maxDepth queue visited :
  Forall (λ p, maxDepth < Z.of_nat (length p)) queue →
  bfs fuel adj to maxDepth queue visited = None ∨
  bfs fuel adj to maxDepth queue visited = Some ErrNoPath.
Proof.
  revert queue. induction fuel as [|fuel IH]; intros queue Hq; [by left|].
  rewrite bfs_S. destruct queue as [|path queue']; [by right|].
  apply Forall_cons in Hq as [Hp Hq].
  destruct (Z.gtb_spec (Z.of_nat (length path)) maxDepth); [by apply IH | lia].
Qed.

(** C5.  A path of exactly [maxDepth] edges is NOT within bounds: with an
    edge from [from] to [to] present, a search with [maxDepth = 1] answers
    "no path found", because [len(path) > maxDepth] compares the number of
    NODES of the path [[from; to]], which is 2, with the bound. *)
Theorem FindPath_one_edge_pruned from to r g :
  edge (adjacency g) from to = Some r →
  is_Some (adjacency g !! to) →
  from ≠ to →
  FindPath from to 1 g = Some ErrNoPath.
Proof.
  intros He Ht Hne.
  destruct (FindPath_terminates from to 1 g) as [res Hres].
  rewrite Hres. f_equal. revert Hres.
  unfold FindPath. destruct (edge_is_Some _ _ _ _ He) as [inner Hf].
  rewrite Hf. destruct Ht as [inner' ->]. unfold bfs_fuel. rewrite bfs_S. simpl.
  change (Z.of_nat 1 >? 1) with false. cbv iota.
  destruct (decide (from = to)) as [|_]; [done|].
  rewrite Hf. simpl. intros Hres.
  destruct (bfs_all_pruned (S (size (all_nodes (adjacency g)))) (adjacency g) to 1
             (enqueue_neighbors [from] (map_to_list inner).*1 ([], {[from]})).1
             (enqueue_neighbors [from] (map_to_list inner).*1 ([], {[from]})).2)
    as [Hb|Hb].
  - eapply Forall_impl.
    + apply (enqueue_neighbors_lengths [from] _ _ 2); [done | by apply Forall_nil].
    + intros p Hp. simpl in Hp. lia.
  - congruence.
  - congruence.
Qed.

Lemma is_path_snoc adj p c nb :
  is_path adj p → last p = Some c → is_Some (edge adj c nb) →
  is_path adj (p ++ [nb]).
Proof.
  induction p as [|u [|v rest] IH]; simpl.
  - done.
  - intros _ [= ->] He. done.
  - intros [Huv Hrest] Hlast He. split; [done|]. by apply IH.
Qed.

Lemma enqueue_neighbors_good adj from path current inner qv :
  adj !! current = Some inner →
  last path = Some current →
  head path = Some from → is_path adj path →
  Forall (λ p, head p = Some from ∧ is_path adj p) qv.1 →
  Forall (λ p, head p = Some from ∧ is_path adj p)
         (enqueue_neighbors path (map_to_list inner).*1 qv).1.
Proof.
  intros Hc Hlast Hhead Hpath. unfold enqueue_neighbors.
  assert (∀ n, n ∈ (map_to_list inner).*1 → is_Some (edge adj current n)) as Hnb.
  { intros n Hn. apply list_elem_of_fmap in Hn as [[n' r] [-> Hn]].
    apply elem_of_map_to_list in Hn. unfold edge. rewrite Hc. simpl. eauto. }
  revert qv Hnb. induction (map_to_list inner).*1 as [|nb nbs IH]; intros qv Hnb Hq; simpl.
  - done.
  - apply IH.
    + intros n Hn. apply Hnb. by right.
    + case_decide; [done|]. simpl. apply Forall_app. split; [done|].
      apply Forall_singleton. split.
      * destruct path; [done|]. done.
      * eapply is_path_snoc; eauto. apply Hnb. by left.
Qed.

Lemma bfs_sound fuel adj from to maxDepth queue visited p :
  Forall (λ p, head p = Some from ∧ is_path adj p) queue →
  bfs fuel adj to maxDepth queue visited = Some (PathFound p) →
  head p = Some from ∧ last p = Some to ∧ is_path adj p ∧
  Z.of_nat (length p) ≤ maxDepth.
Proof.
  revert queue visited. induction fuel as [|fuel IH]; intros queue visited Hq; [done|].
  rewrite bfs_S. destruct queue as [|path queue']; [done|].
  apply Forall_cons in Hq as [[Hh Hp] Hq].
  destruct (Z.gtb_spec (Z.of_nat (length path)) maxDepth); [by apply IH|].
  destruct (last path) as [current|] eqn:Hlast; [|done].
  case_decide as Hcur.
  - intros [= <-]. subst current. by repeat split.
  - cbv zeta. apply IH.
    destruct (adj !! current) as [inner|] eqn:Hc; simpl.
    + by eapply enqueue_neighbors_good.
    + by rewrite map_to_list_empty.
Qed.

(** What [FindPath] guarantees about a path it returns: it leads from
    [from] to [to] along existing adjacency entries and has at most
    [maxDepth] NODES, that is at most [maxDepth - 1] edges. *)
Lemma FindPath_sound from to maxDepth g p :
  FindPath from to maxDepth g = Some (PathFound p) →
  head p = Some from ∧ last p = Some to ∧ is_path (adjacency g) p ∧
  Z.of_nat (length p) - 1 ≤ maxDepth - 1.
Proof.
  unfold FindPath.
  destruct (adjacency g !! from); [|done].
  destruct (adjacency g !! to); [|done].
  intros Hb. apply bfs_sound with (from := from) in Hb.
  - destruct Hb as (? & ? & ? & ?). repeat split; try done. lia.
  - apply Forall_singleton. done.
Qed.

Lemma FindPath_self_depth_zero_witness :
  FindPath "users:1" "users:1" 0 one_edge_graph = Some ErrNoPath.
Proof.
  apply FindPath_self_depth_zero. eexists. vm_compute. reflexivity.
Defined.

Lemma FindPath_one_edge_pruned_witness :
  FindPath "users:1" "users:2" 1 one_edge_graph = Some ErrNoPath.
Proof.
  apply (FindPath_one_edge_pruned "users:1" "users:2" "next").
  - vm_compute. reflexivity.
  - eexists. vm_compute. reflexivity.
  - discriminate.
Defined.

(** The same graph answers once the bound is raised by one. *)
Example FindPath_one_edge_depth_two :
  FindPath "users:1" "users:2" 2 one_edge_graph = Some (PathFound ["users:1"; "users:2"]).
Proof. vm_compute. reflexivity. Qed.

End FindPath.

(** ** Graph synchronisation of the in-memory graph *)

Section GraphSync.
Import graph.
Implicit Types adj rev : gmap string (gmap string string).

Lemma foldl_option_preserved {A S : Type} (P : S → Prop) (f : A → S → option S)
    (l : list A) (s s' : S) :
  (∀ a s s', P s → f a s = Some s' → P s') →
  P s →
  foldl (λ acc a, s ← acc; f a s) (Some s) l = Some s' → P s'.
Proof.
  intros Hstep. revert s. induction l as [|a l IH]; intros s Hs; simpl.
  - by intros [= <-].
  - destruct (f a s) as [s1|] eqn:E; simpl.
    + apply IH. by eapply Hstep.
    + clear. induction l; simpl; [done | assumption].
Qed.

Lemma ensure_node_keeps_edge n adj rev u v :
  is_Some (edge adj u v) → is_Some (edge (ensure_node n (adj, rev)).1 u v).
Proof.
  intros He. unfold ensure_node; simpl.
  destruct (adj !! n) as [inner|] eqn:Hn; simpl; [done|].
  rewrite edge_insert. destruct (decide (u = n)) as [->|_]; [|done].
  rewrite edge_None in He by done. by destruct He.
Qed.

Lemma AddEdge_keeps_edge from to rel g g' u v :
  AddEdge from to rel g = Some g' →
  is_Some (edge (adjacency g) u v) → is_Some (edge (adjacency g') u v).
Proof.
  unfold AddEdge, put_edge. intros Hadd He.
  destruct (ensure_node from (adjacency g, reverse g)) as [adj1 rev1] eqn:E1.
  pose proof (ensure_node_keeps_edge from _ (reverse g) u v He) as He1.
  rewrite E1 in He1; simpl in He1.
  destruct (ensure_node to (adj1, rev1)) as [adj2 rev2] eqn:E2.
  pose proof (ensure_node_keeps_edge to _ rev1 u v He1) as He2.
  rewrite E2 in He2; simpl in *.
  destruct (store2 from to rel adj2) as [adj3|] eqn:E3; [|done]; simpl in *.
  destruct (store2 to from rel rev2) as [rev3|]; [|done]; simpl in *.
  injection Hadd as <-. simpl.
  rewrite (edge_store2 _ _ _ _ _ u v E3). by case_decide.
Qed.

(** C1.  [UpdateFromEntity] deletes nothing: every out-edge the node
    [entity:id] had before the call is still there after it, whatever the
    new document holds.  An edge of an earlier version of the document
    therefore survives the mutation, against the specification's
    "delete all existing out-edges of this node, then insert". *)
Theorem UpdateFromEntity_keeps_old_edges entity id data g g' target :
  is_Some (edge (adjacency g) (node_id entity id) target) →
  UpdateFromEntity entity id data g = Some g' →
  is_Some (edge (adjacency g') (node_id entity id) target).
Proof.
  intros He. unfold UpdateFromEntity.
  apply (foldl_option_preserved
           (λ g', is_Some (edge (adjacency g') (node_id entity id) target))
           (λ kv g', match models.IsReference kv.2 with
                     | Some ref => AddEdge (node_id entity id)
                                     (node_id (models.Entity ref) (models.ID ref)) kv.1 g'
                     | None => Some g'
                     end)).
  - intros kv s s' Hs. destruct (models.IsReference kv.2).
    + intros Hadd. by eapply AddEdge_keeps_edge.
    + by intros [= <-].
  - unfold AddNode; simpl. by apply ensure_node_keeps_edge.
Qed.

Lemma UpdateFromEntity_keeps_old_edges_witness :
  ∃ g', UpdateFromEntity "users" 2 (employee 99) S2_graph = Some g' ∧
        is_Some (edge (adjacency g') (node_id "users" 2) "users:1").
Proof.
  eexists. split; [vm_compute; reflexivity|].
  eapply (UpdateFromEntity_keeps_old_edges "users" 2 (employee 99) S2_graph).
  - eexists. vm_compute. reflexivity.
  - vm_compute. reflexivity.
Defined.

(** Scenario S3 on the in-memory graph: after the update to manager 99
    the node has both out-edges. *)
Example S3_in_memory :
  GetNeighbors "users:2" <$> UpdateFromEntity "users" 2 (employee 99) S2_graph =
  Some {[ "users:1" := "manager"; "users:99" := "manager" ]}.
Proof. vm_compute. reflexivity. Qed.

End GraphSync.

(** ** The graph file *)

Section GraphCodec.
Import graph.
Implicit Types adj rev : gmap string (gmap string string).

Lemma Cut_colon_prefix s a b :
  gostrings.Cut ":" s = Some (a, b) → has_colon a = false.
Proof.
  revert a. induction s as [|c s IH]; intros a; simpl; [done|].
  destruct (Ascii.eqb c ":") eqn:Ec.
  - by intros [= <- <-].
  - destruct (gostrings.Cut ":" s) as [[a' b']|]; [|done].
    intros [= <- <-]. simpl. rewrite Ec. by apply IH.
Qed.

Lemma SplitN2_colon_prefix s a b :
  gostrings.SplitN2 ":" s = [a; b] → has_colon a = false.
Proof.
  unfold gostrings.SplitN2.
  destruct (gostrings.Cut ":" s) as [[a' b']|] eqn:E; [|done].
  intros [= <- <-]. by eapply Cut_colon_prefix.
Qed.

Lemma has_colon_app s t : has_colon (s +:+ t) = has_colon s || has_colon t.
Proof.
  induction s as [|c s IH]; simpl; [done|]. by rewrite IH, orb_assoc.
Qed.

Lemma node_id_has_colon entity id : has_colon (node_id entity id) = true.
Proof.
  unfold node_id. rewrite !has_colon_app. simpl. by rewrite orb_true_r.
Qed.

Lemma ensure_node_colon_free n adj rev :
  has_colon n = false → colon_free adj → colon_free (ensure_node n (adj, rev)).1.
Proof.
  intros Hn Hadj k. unfold ensure_node; simpl.
  destruct (adj !! n) as [inner|]; simpl; [apply Hadj|].
  destruct (decide (k = n)) as [->|Hk]; [done|].
  rewrite lookup_insert_ne by done. apply Hadj.
Qed.

Lemma put_edge_colon_free from to rel adj rev adj' rev' :
  put_edge from to rel (adj, rev) = Some (adj', rev') →
  colon_free adj → colon_free adj'.
Proof.
  unfold put_edge; simpl.
  destruct (store2 from to rel adj) as [a|] eqn:Ha; [|done]; simpl.
  destruct (store2 to from rel rev) as [r|]; [|done]; simpl.
  intros [= <- <-] Hadj k. rewrite (store2_keys _ _ _ _ _ k Ha). apply Hadj.
Qed.

Lemma load_neighbor_colon_free nodeID neighbor ar ar' :
  colon_free ar.1 → load_neighbor nodeID neighbor ar = Some ar' → colon_free ar'.1.
Proof.
  destruct ar as [adj rev], ar' as [adj' rev']; simpl. intros Hadj.
  unfold load_neighbor. case_decide; [by intros [= <- <-]|].
  destruct (gostrings.SplitN2 ":" neighbor) as [|neighborID [|relType [|]]] eqn:E;
    try by intros [= <- <-].
  destruct (ensure_node neighborID (adj, rev)) as [adj1 rev1] eqn:E1.
  intros Hp. eapply put_edge_colon_free; [exact Hp|].
  pose proof (ensure_node_colon_free neighborID adj rev) as H1.
  rewrite E1 in H1. apply H1; [|done]. by eapply SplitN2_colon_prefix.
Qed.

Lemma load_line_colon_free raw ar ar' :
  colon_free ar.1 → load_line raw ar = Some ar' → colon_free ar'.1.
Proof.
  intros Hadj. unfold load_line. case_decide; [by intros [= <-]|].
  destruct (gostrings.SplitN2 ":" (gostrings.TrimSpace raw))
    as [|nodeID [|rest [|]]] eqn:E; try by intros [= <-].
  assert (colon_free (ensure_node nodeID ar).1) as H1.
  { destruct ar as [adj rev]. apply ensure_node_colon_free; [|done].
    by eapply SplitN2_colon_prefix. }
  case_decide; [by intros [= <-]|].
  apply (foldl_option_preserved (λ ar, colon_free ar.1) (load_neighbor nodeID)); [|done].
  intros a s s' Hs Hl. by eapply load_neighbor_colon_free.
Qed.

(** Whatever the file holds, the nodes [Load] builds have no colon in
    their identifiers: a node identifier is what precedes the first colon
    of a line or of a neighbour token. *)
Lemma Load_keys_colon_free content g g' k :
  Load (Some content) g = Some g' →
  is_Some (adjacency g' !! k) → has_colon k = false.
Proof.
  simpl. destruct (load_lines (gostrings.ScanLines content)) as [ar|] eqn:E; [|done].
  simpl. intros [= <-]. simpl. revert k.
  change (colon_free ar.1).
  revert E. unfold load_lines.
  apply (foldl_option_preserved (λ ar, colon_free ar.1) load_line).
  - intros a s s' Hs Hl. by eapply load_line_colon_free.
  - intros k. simpl. rewrite lookup_empty. by intros [? ?].
Qed.

(** C3.  [Save] followed by [Load] is not the identity: a node whose
    identifier has the form [entity:id], which is the form of every node the
    store creates, is absent from the loaded adjacency map, so the loaded
    map differs from the saved one. *)
Theorem Save_Load_drops_entity_nodes g g' entity id :
  is_Some (adjacency g !! node_id entity id) →
  Load (Some (Save g)) g = Some g' →
  adjacency g' !! node_id entity id = None ∧ adjacency g' ≠ adjacency g.
Proof.
  intros Hn Hl.
  assert (adjacency g' !! node_id entity id = None) as Hnone.
  { apply eq_None_not_Some. intros Hs.
    apply (Load_keys_colon_free _ _ _ _ Hl) in Hs.
    by rewrite node_id_has_colon in Hs. }
  split; [done|]. intros Heq. rewrite Heq in Hnone.
  rewrite Hnone in Hn. by destruct Hn.
Qed.

Lemma Save_Load_drops_entity_nodes_witness :
  ∃ g', Load (Some (Save single_node_graph)) single_node_graph = Some g' ∧
        adjacency g' !! node_id "users" 1 = None ∧
        adjacency g' ≠ adjacency single_node_graph.
Proof.
  eexists. split; [vm_compute; reflexivity|].
  apply (Save_Load_drops_entity_nodes single_node_graph _ "users" 1).
  - eexists. vm_compute. reflexivity.
  - vm_compute. reflexivity.
Defined.

(** The file written for a graph with the one node [users:1] ... *)
Example Save_single_node :
  Save single_node_graph = "users:1:
".
Proof. vm_compute. reflexivity. Qed.

(** ... and what [Load] makes of it: an edge from a node [users] to a node
    [1] with the empty relationship. *)
Example Load_single_node :
  (g' ← Load (Some (Save single_node_graph)) NewIndexedGraph;
   Some (adjacency g', reverse g')) =
  Some ({[ "users" := {[ "1" := "" ]}; "1" := ∅ ]},
        {[ "users" := ∅; "1" := {[ "users" := "" ]} ]}).
Proof. vm_compute. reflexivity. Qed.

(** The line of the README, [users:2:users:1:manager]. *)
Example Load_README_line :
  (g' ← Load (Some "users:2:users:1:manager") NewIndexedGraph;
   Some (adjacency g')) =
  Some {[ "users" := {[ "2" := "users:1:manager" ]}; "2" := ∅ ]}.
Proof. vm_compute. reflexivity. Qed.

End GraphCodec.

(** ** The reference predicate *)

Section ReferenceModel.
Import models.

(** Every value the specification calls a reference is recognised. *)
Lemma IsReference_complete v :
  spec_reference v = true → is_Some (IsReference v).
Proof.
  destruct v as [| | | | | |m]; simpl; try done.
  destruct (as_string (m !! "type")) as [typeVal|]; [|done].
  destruct (as_string (m !! "entity")) as [entityVal|]; [|done].
  destruct (m !! "id") as [idVal|]; [|done].
  destruct (String.eqb typeVal "REF"); [|done]. simpl.
  destruct idVal; simpl; rewrite ?andb_false_r; try done; eauto.
Qed.

(** A recognised value is an object tagged ["REF"] with a string entity
    and a numeric id; a floating-point id is truncated. *)
Lemma IsReference_shape v ref :
  IsReference v = Some ref → reference_shape v ref.
Proof.
  destruct v as [| | | | | |m]; simpl; try done.
  destruct (as_string (m !! "type")) as [typeVal|] eqn:Ht; [|done].
  destruct (as_string (m !! "entity")) as [entityVal|] eqn:He; [|done].
  destruct (m !! "id") as [idVal|] eqn:Hi; [|done].
  destruct (String.eqb_spec typeVal "REF") as [->|]; [|done].
  destruct idVal as [| |f|z| | |]; try done; intros [= <-]; simpl;
    exists m; eexists; repeat split; eauto.
Qed.

(** The shape is all that [IsReference] looks at. *)
Lemma IsReference_of_shape v ref :
  reference_shape v ref → IsReference v = Some ref.
Proof.
  intros (m & idVal & -> & Ht & He & Hi & Hty & Hid). simpl.
  rewrite Ht, He, Hi. simpl. destruct ref as [ty en i]. simpl in *. subst ty.
  by destruct Hid as [(f & -> & ->)| ->].
Qed.

Lemma reference_by_conversion_shape v ref :
  reference_by_conversion v ref → reference_shape v ref.
Proof.
  intros (m & idVal & -> & Ht & He & _ & Hi & Hid & _ & Hty).
  exists m, idVal. repeat split; try done.
  destruct idVal as [| |f|z| | |]; try done; injection Hid as <-; eauto.
Qed.

(** C7, as amended.  [IsReference] recognises every value that is an
    object with [type == "REF"], a non-empty string [entity] and an
    integer-valued [id >= 1], and more generally every such object whose
    ["id"] is a number that converts to an integer of at least 1, exact or
    not, with that integer as the id; and it recognises a value, with the
    reference [ref], exactly when the value is an object whose ["type"] is
    the string ["REF"], whose ["entity"] is a string and whose ["id"] is a
    number, a floating-point id being converted by [int(v)] (truncation
    toward zero) without a test for exactness. *)
Theorem IsReference_characterisation v :
  (spec_reference v = true → is_Some (IsReference v)) ∧
  (∀ ref, reference_by_conversion v ref → IsReference v = Some ref) ∧
  (∀ ref, IsReference v = Some ref ↔ reference_shape v ref).
Proof.
  split; [apply IsReference_complete|]. split.
  - intros ref H. by apply IsReference_of_shape, reference_by_conversion_shape.
  - intros ref. split; [apply IsReference_shape | apply IsReference_of_shape].
Qed.

(** C7, counterexample.  The predicate is not the one of the
    specification: the id [1.5] is accepted. *)
Lemma IsReference_accepts_fractional_id :
  ¬ (∀ v, is_Some (IsReference v) ↔ spec_reference v = true).
Proof.
  intros H. destruct (H REF_fractional) as [Hacc _].
  assert (is_Some (IsReference REF_fractional)) as Hs
    by (eexists; vm_compute; reflexivity).
  apply Hacc in Hs. vm_compute in Hs. discriminate.
Qed.

(** [1.5] is taken for the id [1]. *)
Example IsReference_fractional :
  IsReference REF_fractional =
  Some {| Type_ := "REF"; Entity := "users"; ID := 1 |}.
Proof. vm_compute. reflexivity. Qed.

(** An empty entity name and the id 0 pass as well; the sync of the
    relational backend rejects both. *)
Example IsReference_empty_zero :
  IsReference REF_empty_zero = Some {| Type_ := "REF"; Entity := ""; ID := 0 |}.
Proof. vm_compute. reflexivity. Qed.

End ReferenceModel.

(** ** Induction over JSON values *)

Section JsonInduction.

Lemma json_size_elem (m : gmap string json) k x :
  m !! k = Some x → (json_size x < json_size (JObject m))%nat.
Proof.
  simpl. intros Hk.
  enough (json_size x ≤ map_fold (λ _ x acc, json_size x + acc) 0 m)%nat by lia.
  revert Hk.
  apply (map_fold_weak_ind (λ acc m, m !! k = Some x → (json_size x ≤ acc)%nat)).
  - by rewrite lookup_empty.
  - intros i y m' acc Hi IH Hl.
    destruct (decide (i = k)) as [->|Hne].
    + rewrite lookup_insert_eq in Hl. injection Hl as ->. lia.
    + rewrite lookup_insert_ne in Hl by done. specialize (IH Hl). lia.
Qed.

Lemma json_size_In (l : list json) x :
  x ∈ l → (json_size x < json_size (JArray l))%nat.
Proof.
  simpl. induction 1; simpl; lia.
Qed.

Lemma json_induction (P : json → Prop) :
  P JNull → (∀ b, P (JBool b)) → (∀ f, P (JFloat f)) → (∀ z, P (JInt z)) →
  (∀ s, P (JString s)) →
  (∀ l, Forall P l → P (JArray l)) →
  (∀ m, map_Forall (λ _, P) m → P (JObject m)) →
  ∀ v, P v.
Proof.
  intros Hnull Hbool Hfloat Hint Hstr Harr Hobj v.
  remember (json_size v) as n eqn:Hn. revert v Hn.
  induction n as [n IH] using lt_wf_ind. intros v ->.
  destruct v; eauto.
  - apply Harr. apply Forall_forall. intros x Hx.
    eapply IH; [|reflexivity]. by apply json_size_In.
  - apply Hobj. intros k x Hk.
    eapply IH; [|reflexivity]. by eapply json_size_elem.
Qed.

End JsonInduction.

(** ** Strings and keys through the JSON codec *)

Section UTF8.
Import utf8.

Lemma coerce_cons c1 s1 :
  coerce (String c1 s1) =
  match lead_size c1, s1 with
  | 1%nat, _ => String c1 (coerce s1)
  | 2%nat, String c2 s2 =>
      if second_ok c1 c2 then String c1 (String c2 (coerce s2))
      else RuneError +:+ coerce s1
  | 3%nat, String c2 (String c3 s3) =>
      if second_ok c1 c2 && continuation c3
      then String c1 (String c2 (String c3 (coerce s3)))
      else RuneError +:+ coerce s1
  | 4%nat, String c2 (String c3 (String c4 s4)) =>
      if second_ok c1 c2 && continuation c3 && continuation c4
      then String c1 (String c2 (String c3 (String c4 (coerce s4))))
      else RuneError +:+ coerce s1
  | _, _ => RuneError +:+ coerce s1
  end.
Proof. reflexivity. Qed.

Lemma coerce_RuneError t : coerce (RuneError +:+ t) = RuneError +:+ coerce t.
Proof. reflexivity. Qed.

Lemma coerce_idemp_bounded (n : nat) s :
  (String.length s ≤ n)%nat → coerce (coerce s) = coerce s.
Proof.
  revert s. induction n as [|n IH]; intros s Hn.
  { destruct s; [done | simpl in Hn; lia]. }
  destruct s as [|c1 s1]; [done|]. simpl in Hn.
  assert (coerce (coerce s1) = coerce s1) as H1 by (apply IH; lia).
  rewrite (coerce_cons c1 s1).
  destruct (lead_size c1) as [|[|[|[|[|k]]]]] eqn:Hl.
  - by rewrite coerce_RuneError, H1.
  - by rewrite coerce_cons, Hl, H1.
  - destruct s1 as [|c2 s2]; [by rewrite coerce_RuneError, H1|]. simpl in Hn.
    destruct (second_ok c1 c2) eqn:H2; [|by rewrite coerce_RuneError, H1].
    rewrite coerce_cons, Hl, H2. by rewrite IH by lia.
  - destruct s1 as [|c2 [|c3 s3]]; try by rewrite coerce_RuneError, H1.
    simpl in Hn.
    destruct (second_ok c1 c2 && continuation c3) eqn:H2;
      [|by rewrite coerce_RuneError, H1].
    rewrite coerce_cons, Hl, H2. by rewrite IH by lia.
  - destruct s1 as [|c2 [|c3 [|c4 s4]]]; try by rewrite coerce_RuneError, H1.
    simpl in Hn.
    destruct (second_ok c1 c2 && continuation c3 && continuation c4) eqn:H2;
      [|by rewrite coerce_RuneError, H1].
    rewrite coerce_cons, Hl, H2. by rewrite IH by lia.
  - by rewrite coerce_RuneError, H1.
Qed.

(** a decoded string is valid UTF-8: encoding and decoding it once more
    changes nothing *)
Lemma coerce_idemp s : coerce (coerce s) = coerce s.
Proof. by apply (coerce_idemp_bounded (String.length s)). Qed.

End UTF8.

Section Rekey.
Context {A : Type}.
Implicit Types m : gmap string A.

Lemma rekey_list_lookup (l : list (string * A)) k :
  (∀ k' v, (k', v) ∈ l → utf8.coerce k' = k → k' = k) →
  utf8.coerce k = k →
  (list_to_map ((λ kv, (utf8.coerce kv.1, kv.2)) <$> l) : gmap string A) !! k =
  (list_to_map l : gmap string A) !! k.
Proof.
  intros Hu Hk. induction l as [|[k0 v0] l IH]; [done|].
  rewrite fmap_cons. simpl.
  destruct (decide (utf8.coerce k0 = k)) as [Hc|Hc].
  - assert (k0 = k) as -> by (apply (Hu k0 v0); [by left|done]).
    rewrite Hk. by rewrite !lookup_insert_eq.
  - rewrite lookup_insert_ne by done.
    rewrite lookup_insert_ne by (by intros ->).
    apply IH. intros k' v Hin. apply (Hu k' v). by right.
Qed.

Lemma list_to_map_sorted m :
  (list_to_map (merge_sort key_ge (map_to_list m)) : gmap string A) = m.
Proof.
  transitivity (list_to_map (map_to_list m) : gmap string A);
    [|apply list_to_map_to_list].
  apply list_to_map_proper.
  - rewrite merge_sort_Permutation. apply NoDup_fst_map_to_list.
  - apply merge_sort_Permutation.
Qed.

(** a valid key that no other key is turned into is found under its own
    name *)
Lemma rekey_lookup m k :
  (∀ k', is_Some (m !! k') → utf8.coerce k' = k → k' = k) →
  utf8.coerce k = k →
  rekey m !! k = m !! k.
Proof.
  intros Hu Hk. unfold rekey. rewrite rekey_list_lookup; [|  |done].
  - by rewrite list_to_map_sorted.
  - intros k' v Hin. apply Hu.
    rewrite merge_sort_Permutation in Hin. apply elem_of_map_to_list in Hin. eauto.
Qed.

(** a value of the decoded object is a value of the encoded one *)
Lemma rekey_value m k x :
  rekey m !! k = Some x → ∃ k', m !! k' = Some x ∧ utf8.coerce k' = k.
Proof.
  intros Hv. unfold rekey in Hv.
  apply elem_of_list_to_map_2 in Hv.
  apply list_elem_of_fmap in Hv as ([k' v'] & [= -> ->] & Hin). simpl.
  rewrite merge_sort_Permutation in Hin. apply elem_of_map_to_list in Hin. eauto.
Qed.

(** the keys of a decoded object are valid UTF-8 *)
Lemma rekey_keys m : utf8_keys (rekey m).
Proof.
  intros k x Hk. apply rekey_value in Hk as (k' & _ & <-). apply coerce_idemp.
Qed.

Lemma rekey_valid m : utf8_keys m → rekey m = m.
Proof.
  intros Hv. apply map_eq. intros k.
  destruct (decide (utf8.coerce k = k)) as [Hk|Hk].
  - apply rekey_lookup; [|done]. intros k' [x Hs] <-. symmetry. by apply (Hv k' x).
  - destruct (rekey m !! k) as [v|] eqn:Hr.
    { exfalso. apply Hk. by apply (rekey_keys m k v). }
    destruct (m !! k) as [v|] eqn:Hm; [|done].
    exfalso. apply Hk. by apply (Hv k v).
Qed.

(** the keys can be checked by running through the map *)
Lemma utf8_keys_check m :
  forallb (λ kv : string * A, String.eqb (utf8.coerce kv.1) kv.1) (map_to_list m) = true →
  utf8_keys m.
Proof.
  intros H k x Hk. rewrite forallb_forall in H. apply String.eqb_eq.
  apply (H (k, x)). by apply list_elem_of_In, elem_of_map_to_list.
Qed.

Lemma utf8_keys_fmap {B : Type} (f : A → B) m : utf8_keys m → utf8_keys (f <$> m).
Proof.
  intros Hv k y Hk. rewrite lookup_fmap in Hk.
  destruct (m !! k) as [x|] eqn:Hm; [|done]. by apply (Hv k x).
Qed.

Lemma utf8_keys_insert m k x :
  utf8.coerce k = k → utf8_keys m → utf8_keys (<[k := x]> m).
Proof. intros Hk Hv. by apply map_Forall_insert_2. Qed.

End Rekey.

Section JsonRoundtrip.

Lemma json_roundtrip_object d :
  json_roundtrip (JObject d) = JObject (json_roundtrip_map d).
Proof. done. Qed.

(** with valid keys the fields come back under their own names *)
Lemma json_roundtrip_map_valid d :
  utf8_keys d → json_roundtrip_map d = json_roundtrip <$> d.
Proof. intros Hv. unfold json_roundtrip_map. by apply rekey_valid, utf8_keys_fmap. Qed.

Lemma json_roundtrip_idemp v : json_roundtrip (json_roundtrip v) = json_roundtrip v.
Proof.
  induction v as [| | | | |l IH|m IH] using json_induction; simpl; try done.
  - by rewrite coerce_idemp.
  - f_equal. rewrite <- list_fmap_compose. apply Forall_fmap_ext_1.
    eapply Forall_impl; [exact IH|]. done.
  - f_equal.
    assert (json_roundtrip <$> rekey (json_roundtrip <$> m) = rekey (json_roundtrip <$> m))
      as ->.
    { apply map_eq. intros k. rewrite lookup_fmap.
      destruct (rekey (json_roundtrip <$> m) !! k) as [x|] eqn:Hx; [|done]. simpl.
      apply rekey_value in Hx as (k' & Hx & _). rewrite lookup_fmap in Hx.
      destruct (m !! k') as [x0|] eqn:Hm; [|done]. injection Hx as <-.
      f_equal. by apply (IH k' x0). }
    apply rekey_valid, rekey_keys.
Qed.

(** a document in decoded form has valid keys and decoded fields *)
Lemma decoded_fields d :
  decoded d → utf8_keys d ∧ json_roundtrip <$> d = d.
Proof.
  unfold decoded, json_roundtrip_map. intros Hd.
  assert (utf8_keys d) as Hv by (rewrite <- Hd; apply rekey_keys).
  split; [done|]. by rewrite rekey_valid in Hd by by apply utf8_keys_fmap.
Qed.

End JsonRoundtrip.

(** ** Patch semantics *)

Section Patch.
Import storage.

(** The three merge loops, each as a function of the policy (the two
    storage-level ones do not look at it). *)
Lemma server_patch_merge_lookup cfg partial existing k :
  server.patch_merge cfg partial existing !! k =
  spec_patch_field (bool_decide (server.PatchNullBehavior cfg = "delete")) k
                   (existing !! k) (partial !! k).
Proof.
  unfold server.patch_merge.
  apply (map_fold_weak_ind
           (λ acc m, acc !! k =
                     spec_patch_field (bool_decide (server.PatchNullBehavior cfg = "delete")) k
                                      (existing !! k) (m !! k))).
  - unfold spec_patch_field. rewrite lookup_empty. by case_decide.
  - intros i x m acc Hi IH. unfold spec_patch_field in *.
    destruct (decide (i = "id")) as [->|Hid].
    + destruct (decide (k = "id")) as [->|Hk]; [done|].
      by rewrite lookup_insert_ne.
    + destruct (decide (k = i)) as [->|Hki].
      * rewrite lookup_insert_eq.
        destruct (decide (i = "id")) as [|_]; [done|].
        destruct x; rewrite ?lookup_insert_eq; try done.
        destruct (decide (server.PatchNullBehavior cfg = "delete")) as [Hp|Hp].
        -- rewrite bool_decide_eq_true_2 by done. by rewrite lookup_delete_eq.
        -- rewrite bool_decide_eq_false_2 by done. by rewrite lookup_insert_eq.
      * rewrite (lookup_insert_ne m) by done.
        destruct x; rewrite ?lookup_insert_ne by done; try done.
        destruct (decide (server.PatchNullBehavior cfg = "delete")) as [Hp|Hp];
          [by rewrite lookup_delete_ne | by rewrite lookup_insert_ne].
Qed.

Lemma JSONFileStore_patch_merge_lookup partial existing k :
  JSONFileStore.patch_merge partial existing !! k =
  spec_patch_field false k (existing !! k) (partial !! k).
Proof.
  unfold JSONFileStore.patch_merge.
  apply (map_fold_weak_ind
           (λ acc m, acc !! k = spec_patch_field false k (existing !! k) (m !! k))).
  - unfold spec_patch_field. rewrite lookup_empty. by case_decide.
  - intros i x m acc Hi IH. unfold spec_patch_field in *.
    destruct (decide (i = "id")) as [->|Hid].
    + destruct (decide (k = "id")) as [->|Hk]; [done|].
      by rewrite lookup_insert_ne.
    + destruct (decide (k = i)) as [->|Hki].
      * rewrite !lookup_insert_eq.
        destruct (decide (i = "id")) as [|_]; [done|]. by destruct x.
      * by rewrite !lookup_insert_ne by done.
Qed.

Lemma SQLiteStore_patch_merge_lookup updates existing k :
  SQLiteStore.patch_merge updates existing !! k =
  spec_patch_field true k (existing !! k) (updates !! k).
Proof.
  unfold SQLiteStore.patch_merge.
  apply (map_fold_weak_ind
           (λ acc m, acc !! k = spec_patch_field true k (existing !! k) (m !! k))).
  - unfold spec_patch_field. rewrite lookup_empty. by case_decide.
  - intros i x m acc Hi IH. unfold spec_patch_field in *.
    destruct (decide (i = "id")) as [->|Hid].
    + destruct (decide (k = "id")) as [->|Hk]; [done|].
      by rewrite lookup_insert_ne.
    + destruct (decide (k = i)) as [->|Hki].
      * rewrite lookup_insert_eq.
        destruct (decide (i = "id")) as [|_]; [done|].
        destruct x; rewrite ?lookup_insert_eq, ?lookup_delete_eq; done.
      * rewrite (lookup_insert_ne m) by done.
        destruct x; rewrite ?lookup_insert_ne, ?lookup_delete_ne by done; done.
Qed.

End Patch.

(** ** The caller's map *)

Section CallerMap.
Import storage.

Lemma bind_Ok {S A B : Type} (m : M S A) (k : A → M S B) σ b σ' :
  (m ≫= k) σ = (Ok b, σ') →
  ∃ a σ1, m σ = (Ok a, σ1) ∧ k a σ1 = (Ok b, σ').
Proof.
  unfold mbind, M_bind. destruct (m σ) as [[a|e|] σ1]; [eauto | done | done].
Qed.

Lemma mem_fixed_bind {S A B : Type} (m : M S A) (k : A → M S B) :
  mem_fixed m → (∀ a, mem_fixed (k a)) → mem_fixed (m ≫= k).
Proof.
  intros Hm Hk σ. unfold mbind, M_bind. specialize (Hm σ).
  destruct (m σ) as [[a|e|] σ1]; simpl in *; [|done|done].
  by rewrite Hk.
Qed.

Lemma mem_fixed_ret {S A : Type} (a : A) : mem_fixed (mret a : M S A).
Proof. done. Qed.

Lemma mem_fixed_fail {S A : Type} e : mem_fixed (fail e : M S A).
Proof. done. Qed.

Lemma mem_fixed_get_backend {S : Type} : mem_fixed (get_backend : M S S).
Proof. done. Qed.

Lemma mem_fixed_put_backend {S : Type} (b : S) : mem_fixed (put_backend b).
Proof. done. Qed.

Lemma mem_fixed_read {S : Type} data : mem_fixed (read data : M S _).
Proof. done. Qed.

Lemma mem_fixed_transaction {S A : Type} (m : M S A) :
  mem_fixed m → mem_fixed (transaction m).
Proof.
  intros Hm σ. unfold transaction. specialize (Hm σ).
  by destruct (m σ) as [[a|e|] σ1].
Qed.

Lemma mem_fixed_run {S A : Type} (m : M S A) σ r σ' :
  mem_fixed m → m σ = (r, σ') → mem σ' = mem σ.
Proof. intros Hm H. specialize (Hm σ). by rewrite H in Hm. Qed.

Local Ltac mem_fixed_step :=
  first [ apply mem_fixed_bind; [|intros ?]
        | apply mem_fixed_transaction
        | apply mem_fixed_ret | apply mem_fixed_fail | apply mem_fixed_get_backend
        | apply mem_fixed_put_backend | apply mem_fixed_read
        | match goal with |- mem_fixed (match ?x with _ => _ end) => destruct x end
        | match goal with |- mem_fixed (if ?x then _ else _) => destruct x end ].

Lemma MkdirAll_mem_fixed entity : mem_fixed (JSONFileStore.MkdirAll entity).
Proof. unfold JSONFileStore.MkdirAll. repeat mem_fixed_step. Qed.

Lemma WriteFile_mem_fixed entity name v :
  mem_fixed (JSONFileStore.WriteFile entity name v).
Proof. unfold JSONFileStore.WriteFile. repeat mem_fixed_step. Qed.

Lemma NextID_mem_fixed entity : mem_fixed (JSONFileStore.NextID entity).
Proof.
  unfold JSONFileStore.NextID.
  repeat first [apply MkdirAll_mem_fixed | apply WriteFile_mem_fixed | mem_fixed_step].
Qed.

Lemma Exists_mem_fixed entity id : mem_fixed (JSONFileStore.Exists entity id).
Proof. unfold JSONFileStore.Exists. repeat mem_fixed_step. Qed.

Lemma assign_Ok {S : Type} data k v (σ σ' : state S) :
  assign data k v σ = (Ok (), σ') →
  ∃ d, mem σ !! data = Some d ∧
       σ' = State (backend σ) (<[data := <[k := v]> d]> (mem σ)).
Proof.
  unfold assign. destruct (mem σ !! data) as [d|]; [|done].
  intros [= <-]. eauto.
Qed.

Lemma read_run {S : Type} data (σ σ' : state S) d :
  read data σ = (Ok d, σ') → d = default ∅ (mem σ !! data) ∧ σ' = σ.
Proof. by intros [= <- <-]. Qed.

Lemma WriteFile_Ok entity name v (σ σ' : state JSONFileStore.fsys) :
  JSONFileStore.WriteFile entity name v σ = (Ok (), σ') →
  (dir ← backend σ' !! entity; dir !! name) = Some (JSONFileStore.File (Some v)) ∧
  mem σ' = mem σ.
Proof.
  intros H. split; [|by eapply mem_fixed_run; [apply WriteFile_mem_fixed|]].
  revert H. unfold JSONFileStore.WriteFile, mbind, M_bind, get_backend, put_backend, fail.
  simpl. destruct (backend σ !! entity) as [dir|]; [|done].
  destruct (dir !! name) as [[|]|]; intros [= <-]; simpl;
    rewrite lookup_insert_eq; simpl; by rewrite lookup_insert_eq.
Qed.

(** the step shared by [Create], [Update] and [Save] of the file backend:
    [data["id"] = id], then the file is written from [data] *)
Lemma assign_then_write entity data d id (σ σ' : state JSONFileStore.fsys) :
  mem σ !! data = Some d →
  (assign data "id" (JInt id);;
   d' ← read data;
   JSONFileStore.WriteFile entity (JSONFileStore.getEntityFile id) (JObject d')) σ = (Ok (), σ') →
  mem σ' !! data = Some (<["id" := JInt id]> d) ∧
  (dir ← backend σ' !! entity; dir !! JSONFileStore.getEntityFile id) =
  Some (JSONFileStore.File (Some (JObject (<["id" := JInt id]> d)))).
Proof.
  intros Hd H.
  apply bind_Ok in H as ([] & σ2 & Ha & H).
  apply bind_Ok in H as (d' & σ3 & Hr & H).
  apply assign_Ok in Ha as (d0 & Hd0 & ->).
  rewrite Hd in Hd0. injection Hd0 as <-.
  apply read_run in Hr as [-> ->]. simpl in H. rewrite lookup_insert_eq in H. simpl in H.
  apply WriteFile_Ok in H as [Hf Hm]. split; [|done].
  rewrite Hm. simpl. by rewrite lookup_insert_eq.
Qed.

Lemma file_Create_assigns_id entity data d id (σ σ' : state JSONFileStore.fsys) :
  mem σ !! data = Some d →
  JSONFileStore.Create entity data σ = (Ok id, σ') →
  mem σ' !! data = Some (<["id" := JInt id]> d) ∧
  (dir ← backend σ' !! entity; dir !! JSONFileStore.getEntityFile id) =
  Some (JSONFileStore.File (Some (JObject (<["id" := JInt id]> d)))).
Proof.
  intros Hd. unfold JSONFileStore.Create.
  intros H. apply bind_Ok in H as (id' & σ1 & Hn & H).
  apply (mem_fixed_run _ _ _ _ (NextID_mem_fixed entity)) in Hn.
  assert ((assign data "id" (JInt id');;
           d' ← read data;
           JSONFileStore.WriteFile entity (JSONFileStore.getEntityFile id') (JObject d')) σ1
          = (Ok (), σ') ∧ id' = id) as [H' ->].
  { revert H. unfold mbind, M_bind.
    destruct (assign data "id" (JInt id') σ1) as [[[]|e|] σ2]; [|done|done].
    destruct (read data σ2) as [[d'|e|] σ3]; [|done|done].
    destruct (JSONFileStore.WriteFile _ _ _ σ3) as [[[]|e|] σ4]; [|done|done].
    by intros [= <- <-]. }
  apply (assign_then_write entity data d id σ1 σ'); [by rewrite Hn | done].
Qed.

Lemma file_Update_assigns_id entity data d id (σ σ' : state JSONFileStore.fsys) :
  mem σ !! data = Some d →
  JSONFileStore.Update entity id data σ = (Ok (), σ') →
  mem σ' !! data = Some (<["id" := JInt id]> d) ∧
  (dir ← backend σ' !! entity; dir !! JSONFileStore.getEntityFile id) =
  Some (JSONFileStore.File (Some (JObject (<["id" := JInt id]> d)))).
Proof.
  intros Hd. unfold JSONFileStore.Update.
  intros H. apply bind_Ok in H as (ex & σ1 & He & H).
  injection He as <- <-.
  destruct (bool_decide _); [|done].
  by apply (assign_then_write entity data d id σ σ').
Qed.

Lemma file_Save_assigns_id entity data d id (σ σ' : state JSONFileStore.fsys) :
  mem σ !! data = Some d →
  JSONFileStore.Save entity id data σ = (Ok (), σ') →
  mem σ' !! data = Some (<["id" := JInt id]> d) ∧
  (dir ← backend σ' !! entity; dir !! JSONFileStore.getEntityFile id) =
  Some (JSONFileStore.File (Some (JObject (<["id" := JInt id]> d)))).
Proof.
  intros Hd. unfold JSONFileStore.Save.
  intros H. apply bind_Ok in H as (ex & σ1 & He & H).
  injection He as <- <-.
  destruct (bool_decide _); [done|].
  apply bind_Ok in H as ([] & σ1 & Hk & H).
  apply (mem_fixed_run _ _ _ _ (MkdirAll_mem_fixed entity)) in Hk.
  apply (assign_then_write entity data d id σ1 σ'); [by rewrite Hk | done].
Qed.


Lemma next_id_upsert_mem_fixed entity : mem_fixed (SQLiteStore.next_id_upsert entity).
Proof. unfold SQLiteStore.next_id_upsert. repeat mem_fixed_step. Qed.

Lemma sequence_bump_mem_fixed entity id : mem_fixed (SQLiteStore.sequence_bump entity id).
Proof. unfold SQLiteStore.sequence_bump. repeat mem_fixed_step. Qed.

Lemma insert_entity_mem_fixed entity id v : mem_fixed (SQLiteStore.insert_entity entity id v).
Proof. unfold SQLiteStore.insert_entity. repeat mem_fixed_step. Qed.

Lemma update_entity_mem_fixed entity id v : mem_fixed (SQLiteStore.update_entity entity id v).
Proof. unfold SQLiteStore.update_entity. repeat mem_fixed_step. Qed.

Lemma insert_edge_mem_fixed e : mem_fixed (SQLiteStore.insert_edge e).
Proof. unfold SQLiteStore.insert_edge. repeat mem_fixed_step. Qed.

Lemma sync_fields_mem_fixed entity id fields :
  mem_fixed (SQLiteStore.sync_fields entity id fields).
Proof.
  induction fields as [|[key value] rest IH]; simpl; [apply mem_fixed_ret|].
  destruct (SQLiteStore.sync_target key value) as [[targetEntity targetID]|]; [|done].
  apply mem_fixed_bind; [apply insert_edge_mem_fixed | done].
Qed.

Lemma syncGraphEdges_mem_fixed entity id d :
  mem_fixed (SQLiteStore.syncGraphEdges entity id d).
Proof.
  unfold SQLiteStore.syncGraphEdges.
  repeat first [apply sync_fields_mem_fixed | mem_fixed_step].
Qed.

Lemma sql_Get_mem_fixed entity id : mem_fixed (SQLiteStore.Get entity id).
Proof. unfold SQLiteStore.Get. repeat mem_fixed_step. Qed.

Lemma sql_Exists_mem_fixed entity id : mem_fixed (SQLiteStore.Exists entity id).
Proof. unfold SQLiteStore.Exists. repeat mem_fixed_step. Qed.

(** [copy_with_id] always succeeds; the copy is a NEW object and the
    only object that changes. *)
Lemma copy_with_id_run data id (σ : state SQLiteStore.DB) :
  SQLiteStore.copy_with_id data id σ =
  (Ok (fresh (dom (mem σ))),
   State (backend σ)
         (<[fresh (dom (mem σ)) := <["id" := JInt id]> (default ∅ (mem σ !! data))]> (mem σ))).
Proof.
  unfold SQLiteStore.copy_with_id, mbind, M_bind, read, new, assign, mret, M_ret. simpl.
  rewrite lookup_insert_eq. simpl. by rewrite insert_insert_eq.
Qed.

Lemma fresh_not_allocated (h : gmap nat (gmap string json)) data d :
  h !! data = Some d → fresh (dom h) ≠ data.
Proof.
  intros Hd Heq. apply (is_fresh (dom h)). rewrite Heq. apply elem_of_dom. eauto.
Qed.

Lemma keeps_of_mem_fixed {S A : Type} data (m : M S A) : mem_fixed m → keeps data m.
Proof. intros Hm σ d Hd. by rewrite Hm. Qed.

Lemma keeps_bind {S A B : Type} data (m : M S A) (k : A → M S B) :
  keeps data m → (∀ a, keeps data (k a)) → keeps data (m ≫= k).
Proof.
  intros Hm Hk σ d Hd. unfold mbind, M_bind. specialize (Hm σ d Hd).
  destruct (m σ) as [[a|e|] σ1]; simpl in *; [|done|done].
  by apply Hk.
Qed.

Lemma keeps_transaction {S A : Type} data (m : M S A) :
  keeps data m → keeps data (transaction m).
Proof.
  intros Hm σ d Hd. unfold transaction. specialize (Hm σ d Hd).
  by destruct (m σ) as [[a|e|] σ1].
Qed.

(** copying, then working on the tables only *)
Lemma keeps_copy_then {A : Type} data id (k : nat → M SQLiteStore.DB A) :
  (∀ l, mem_fixed (k l)) →
  keeps data (SQLiteStore.copy_with_id data id ≫= k).
Proof.
  intros Hk σ d Hd. unfold mbind, M_bind. rewrite copy_with_id_run.
  rewrite Hk. simpl. rewrite lookup_insert_ne; [done|].
  by eapply fresh_not_allocated.
Qed.

Lemma sql_Create_keeps entity data : keeps data (SQLiteStore.Create entity data).
Proof.
  unfold SQLiteStore.Create. apply keeps_transaction. apply keeps_bind.
  - apply keeps_of_mem_fixed, next_id_upsert_mem_fixed.
  - intros nextID. apply keeps_copy_then. intros l.
    repeat first [apply insert_entity_mem_fixed | apply syncGraphEdges_mem_fixed
                 | mem_fixed_step].
Qed.

Lemma sql_Update_keeps entity id data : keeps data (SQLiteStore.Update entity id data).
Proof.
  unfold SQLiteStore.Update. apply keeps_transaction. apply keeps_copy_then. intros l.
  repeat first [apply update_entity_mem_fixed | apply syncGraphEdges_mem_fixed
               | mem_fixed_step].
Qed.

Lemma sql_Save_keeps entity id data : keeps data (SQLiteStore.Save entity id data).
Proof.
  unfold SQLiteStore.Save. apply keeps_bind.
  - apply keeps_of_mem_fixed, sql_Exists_mem_fixed.
  - intros [|]; [apply keeps_of_mem_fixed, mem_fixed_fail|].
    apply keeps_copy_then. intros l.
    repeat first [apply sequence_bump_mem_fixed | apply insert_entity_mem_fixed
                 | apply syncGraphEdges_mem_fixed | mem_fixed_step].
Qed.

End CallerMap.

(** ** The id sequence *)

Section Sequence.
Import storage.

Lemma getEntityFile_not_next_id id :
  JSONFileStore.getEntityFile id ≠ JSONFileStore.getNextIDFile.
Proof.
  unfold JSONFileStore.getEntityFile, JSONFileStore.getNextIDFile, decimal.
  destruct (Z.to_int id) as [d|d]; destruct d; simpl; discriminate.
Qed.

(** what [NextID] answers depends on the sequence file only *)
Lemma NextID_outcome entity (σ : state JSONFileStore.fsys) :
  (JSONFileStore.NextID entity σ).1 =
  match default ∅ (backend σ !! entity) !! JSONFileStore.getNextIDFile with
  | Some JSONFileStore.Dir => Err ErrIO
  | Some (JSONFileStore.File content) =>
      Ok (default 1 (JSONFileStore.decode_next_id content))
  | None => Ok 1
  end.
Proof.
  unfold JSONFileStore.NextID, JSONFileStore.MkdirAll, JSONFileStore.WriteFile,
    mbind, M_bind, get_backend, put_backend, fail, mret, M_ret. simpl.
  destruct (backend σ !! entity) as [dir|] eqn:Hd; simpl.
  - rewrite Hd. simpl. by destruct (dir !! JSONFileStore.getNextIDFile) as [[c|]|].
  - rewrite lookup_insert_eq. simpl. by rewrite lookup_empty.
Qed.

(** [Save] does not touch the sequence file *)
Lemma Save_sequence_file entity id data (σ : state JSONFileStore.fsys) :
  default ∅ (backend (JSONFileStore.Save entity id data σ).2 !! entity)
    !! JSONFileStore.getNextIDFile =
  default ∅ (backend σ !! entity) !! JSONFileStore.getNextIDFile.
Proof.
  pose proof (getEntityFile_not_next_id id) as Hne.
  unfold JSONFileStore.Save, JSONFileStore.Exists, JSONFileStore.MkdirAll,
    JSONFileStore.WriteFile, mbind, M_bind, get_backend, put_backend, fail, mret, M_ret,
    assign, read.
  simpl. destruct (bool_decide _); [done|].
  destruct (backend σ !! entity) as [dir|] eqn:Hd; simpl.
  - destruct (mem σ !! data) as [d|]; simpl; [|by rewrite Hd].
    rewrite Hd.
    destruct (dir !! JSONFileStore.getEntityFile id) as [[c|]|]; simpl;
      rewrite ?lookup_insert_eq, ?Hd; simpl; try done;
      by rewrite lookup_insert_ne.
  - destruct (mem σ !! data) as [d|]; simpl; rewrite ?lookup_insert_eq; simpl; [|done].
    rewrite lookup_empty. simpl. rewrite lookup_insert_eq. simpl.
    by rewrite lookup_insert_ne.
Qed.

(** C2.  A successful [Save] on the file backend leaves the id sequence
    where it was: [NextID] answers after the save what it would have
    answered before it, so the sequence is not raised to [max(current,
    id+1)] and a later create can return an id at or below the saved one. *)
Theorem file_Save_does_not_advance_sequence entity id data
    (σ σ' : state JSONFileStore.fsys) :
  JSONFileStore.Save entity id data σ = (Ok (), σ') →
  (JSONFileStore.NextID entity σ').1 = (JSONFileStore.NextID entity σ).1.
Proof.
  intros H. rewrite !NextID_outcome.
  pose proof (Save_sequence_file entity id data σ) as Hs.
  rewrite H in Hs. simpl in Hs. by rewrite Hs.
Qed.
End Sequence.

(** ** Scenarios of the specification *)

Section Scenarios.
Import storage.

Lemma file_Save_does_not_advance_sequence_witness :
  (JSONFileStore.NextID "users"
     (JSONFileStore.Save "users" 100 0 (new {[ "name" := JString "D" ]} JSONFileStore.empty).2).2).1 =
  (JSONFileStore.NextID "users" (new {[ "name" := JString "D" ]} JSONFileStore.empty).2).1.
Proof.
  apply (file_Save_does_not_advance_sequence "users" 100 0).
  vm_compute. reflexivity.
Defined.

(** Scenario S1 on the file backend: the create after the save at id 100
    returns 4, not 101. *)
Example S1_file :
  (scenario.S1 JSONFileStore.empty).1 = Ok [1; 2; 3; 4].
Proof. vm_compute. reflexivity. Qed.

(** On the file backend a create collides with an earlier save: it
    returns the saved id and replaces the saved document. *)
Example save_then_create_file :
  (scenario.save_then_create JSONFileStore.empty).1 = Ok (1, Some (JString "E")).
Proof. vm_compute. reflexivity. Qed.

(** Scenario S1 on the relational backend: the create after the save
    returns 103. *)
Example S1_sqlite :
  (scenario.S1 SQLiteStore.empty).1 = Ok [1; 2; 3; 103].
Proof. vm_compute. reflexivity. Qed.

Example save_then_create_sqlite :
  (scenario.save_then_create SQLiteStore.empty).1 = Ok (3, Some (JString "E")).
Proof. vm_compute. reflexivity. Qed.

(** C8.  On the file backend [List] returns the documents in the order
    of their file names, not of their ids: after ten creates the document
    with id 10 comes second, because ["10.json"] sorts before ["2.json"]. *)
Theorem file_List_in_file_name_order :
  (scenario.list_after_ten_creates JSONFileStore.empty).1 =
  Ok (Some <$> [1; 10; 2; 3; 4; 5; 6; 7; 8; 9]).
Proof. vm_compute. reflexivity. Qed.

Example sqlite_List_in_id_order :
  (scenario.list_after_ten_creates SQLiteStore.empty).1 =
  Ok (Some <$> [1; 2; 3; 4; 5; 6; 7; 8; 9; 10]).
Proof. vm_compute. reflexivity. Qed.

(** Scenario S4 through the storage-level [Patch]: the file backend
    keeps the null, the relational backend removes the field. *)
Example S4_file_Patch :
  (scenario.S4_storage_patch JSONFileStore.empty).1 =
  Ok (Some {[ "id" := JFloat (float64_of_int 1); "name" := JString "A";
              "email" := JNull; "age" := JFloat (float64_of_int 30) ]}).
Proof. vm_compute. reflexivity. Qed.

Example S4_sqlite_Patch :
  (scenario.S4_storage_patch SQLiteStore.empty).1 =
  Ok (Some {[ "id" := JFloat (float64_of_int 1); "name" := JString "A";
              "age" := JFloat (float64_of_int 30) ]}).
Proof. vm_compute. reflexivity. Qed.

Example caller_map_file :
  (scenario.caller_map_after_create JSONFileStore.empty).1 =
  Ok {[ "name" := JString "A"; "id" := JInt 1 ]}.
Proof. vm_compute. reflexivity. Qed.

Example caller_map_sqlite :
  (scenario.caller_map_after_create SQLiteStore.empty).1 =
  Ok {[ "name" := JString "A" ]}.
Proof. vm_compute. reflexivity. Qed.

End Scenarios.

(** ** Store laws and the patch handler *)

Section StoreLaws.
Import storage.

Lemma file_Get_after_write entity id d (σ : state JSONFileStore.fsys) :
  (dir ← backend σ !! entity; dir !! JSONFileStore.getEntityFile id) =
  Some (JSONFileStore.File (Some (JObject d))) →
  JSONFileStore.Get entity id σ = (Ok (Some (json_roundtrip_map d)), σ).
Proof.
  unfold JSONFileStore.Get, mbind, M_bind, get_backend. simpl.
  destruct (backend σ !! entity) as [dir|]; simpl; [|done].
  by intros ->.
Qed.

(** [Update] of the file backend ends normally only from a map object *)
Lemma file_Update_Ok_object entity id data (σ σ' : state JSONFileStore.fsys) :
  JSONFileStore.Update entity id data σ = (Ok (), σ') → is_Some (mem σ !! data).
Proof.
  unfold JSONFileStore.Update. intros H.
  apply bind_Ok in H as (ex & σ1 & He & H). injection He as <- <-.
  destruct (bool_decide _); [|done].
  apply bind_Ok in H as ([] & σ2 & Ha & _).
  apply assign_Ok in Ha as (d & Hd & _). eauto.
Qed.

Lemma fresh_unallocated (h : gmap nat (gmap string json)) : h !! fresh (dom h) = None.
Proof. apply not_elem_of_dom, is_fresh. Qed.

#[global] Instance JSONFileStore_laws : StoreLaws JSONFileStore.fsys.
Proof.
  split.
  - intros entity id σ. simpl.
    unfold JSONFileStore.Get, mbind, M_bind, get_backend, fail, mret, M_ret. simpl.
    destruct (default ∅ (backend σ !! entity) !! JSONFileStore.getEntityFile id)
      as [[content|]|]; try done.
    destruct content as [v|]; simpl; [by destruct (decode_map _) | done].
  - intros entity id data σ σ' Hu. simpl in *.
    destruct (file_Update_Ok_object _ _ _ _ _ Hu) as [d Hd].
    destruct (file_Update_assigns_id entity data d id σ σ' Hd Hu) as [_ Hf].
    rewrite Hd. simpl. by rewrite (file_Get_after_write _ _ _ _ Hf).
  - intros entity id data d x σ σ0 Hb Hg Hd. simpl in *.
    assert (∃ dir content, backend σ !! entity = Some dir ∧
              dir !! JSONFileStore.getEntityFile id = Some (JSONFileStore.File content))
      as (dir & content & Hdir & Hf).
    { revert Hg. rewrite Hb.
      unfold JSONFileStore.Get, mbind, M_bind, get_backend, fail. simpl.
      destruct (backend σ0 !! entity) as [dir|]; simpl; [|by rewrite lookup_empty].
      destruct (dir !! JSONFileStore.getEntityFile id) as [[content|]|] eqn:Hf;
        [|done|done].
      intros _. by exists dir, content. }
    unfold JSONFileStore.Update, JSONFileStore.Exists,
      JSONFileStore.WriteFile, mbind, M_bind, get_backend, put_backend, fail, mret, M_ret,
      assign, read.
    simpl. rewrite Hdir. simpl. rewrite Hf.
    rewrite bool_decide_eq_true_2 by eauto. rewrite Hd. simpl.
    rewrite Hdir, Hf. eauto.
Qed.

(** an action that leaves the [entities] table as it is *)
Lemma sync_fields_entities entity id fields (σ : state SQLiteStore.DB) :
  SQLiteStore.entities (backend (SQLiteStore.sync_fields entity id fields σ).2) =
  SQLiteStore.entities (backend σ).
Proof.
  revert σ. induction fields as [|[key value] rest IH]; intros σ; simpl; [done|].
  destruct (SQLiteStore.sync_target key value) as [[targetEntity targetID]|]; [|done].
  unfold SQLiteStore.insert_edge.
  repeat (unfold mbind, M_bind, get_backend, put_backend, fail; simpl).
  case_decide; simpl; [done|]. by rewrite IH.
Qed.

Lemma syncGraphEdges_entities entity id d (σ : state SQLiteStore.DB) :
  SQLiteStore.entities (backend (SQLiteStore.syncGraphEdges entity id d σ).2) =
  SQLiteStore.entities (backend σ).
Proof.
  unfold SQLiteStore.syncGraphEdges, mbind, M_bind, get_backend, put_backend. simpl.
  by rewrite sync_fields_entities.
Qed.

Lemma sql_Update_stores entity id data (σ σ' : state SQLiteStore.DB) :
  SQLiteStore.Update entity id data σ = (Ok (), σ') →
  SQLiteStore.entities (backend σ') !! (entity, id) =
  Some (json_roundtrip (JObject (<["id" := JInt id]> (default ∅ (mem σ !! data))))).
Proof.
  unfold SQLiteStore.Update, transaction.
  unfold mbind at 1. unfold M_bind. rewrite copy_with_id_run.
  unfold mbind at 1. unfold M_bind, read. simpl. rewrite lookup_insert_eq. simpl.
  unfold mbind at 1. unfold M_bind, SQLiteStore.update_entity.
  unfold mbind at 1. unfold M_bind, get_backend. simpl.
  destruct (SQLiteStore.entities (backend σ) !! (entity, id)) as [old|] eqn:Hold; simpl.
  - unfold mbind, M_bind, put_backend, mret, M_ret. simpl.
    match goal with |- context [SQLiteStore.syncGraphEdges ?e ?i ?d ?s] =>
      pose proof (syncGraphEdges_entities e i d s) as He;
      destruct (SQLiteStore.syncGraphEdges e i d s) as [[[]|err|] σ2] end;
      simpl in *; [|done|done].
    intros [= <-]. rewrite He. simpl. by rewrite lookup_insert_eq.
  - done.
Qed.

(** the sync of the relational backend never fails: the out-edges of the
    node are deleted first and the keys of a map are distinct *)
Lemma sync_fields_Ok entity id fields (σ : state SQLiteStore.DB) :
  NoDup fields.*1 →
  (∀ x, x ∈ SQLiteStore.graph_edges (backend σ) →
        SQLiteStore.from_node entity id x → x.2 ∉ fields.*1) →
  (SQLiteStore.sync_fields entity id fields σ).1 = Ok ().
Proof.
  revert σ. induction fields as [|[key value] rest IH]; intros σ Hnd Hfree; simpl; [done|].
  apply NoDup_cons in Hnd as [Hkey Hnd]. simpl in Hkey.
  destruct (SQLiteStore.sync_target key value) as [[targetEntity targetID]|] eqn:Ht.
  - unfold SQLiteStore.insert_edge.
    repeat (unfold mbind at 1; unfold M_bind, get_backend, put_backend, fail; simpl).
    case_decide as Hin.
    { exfalso. apply (Hfree _ Hin); [done|]. simpl. by left. }
    simpl. unfold mbind, M_bind.
    match goal with |- context [SQLiteStore.sync_fields entity id rest ?s] =>
      specialize (IH s Hnd);
      destruct (SQLiteStore.sync_fields entity id rest s) as [r σ'] end.
    simpl in IH. rewrite IH; [done|].
    intros x Hx Hfrom Hrest. apply elem_of_union in Hx as [Hx|Hx].
    + apply elem_of_singleton in Hx as ->. simpl in Hrest. done.
    + apply (Hfree x Hx Hfrom). simpl. by right.
  - apply IH; [done|]. intros x Hx Hfrom Hrest. apply (Hfree x Hx Hfrom). simpl. by right.
Qed.

Lemma syncGraphEdges_Ok entity id d (σ : state SQLiteStore.DB) :
  (SQLiteStore.syncGraphEdges entity id d σ).1 = Ok ().
Proof.
  unfold SQLiteStore.syncGraphEdges.
  repeat (unfold mbind at 1; unfold M_bind, get_backend, put_backend; simpl).
  apply sync_fields_Ok; [apply NoDup_fst_map_to_list|].
  simpl. intros x Hx Hfrom. apply elem_of_filter in Hx as [Hx _]. done.
Qed.

#[global] Instance SQLiteStore_laws : StoreLaws SQLiteStore.DB.
Proof.
  split.
  - intros entity id σ. simpl.
    unfold SQLiteStore.Get, mbind, M_bind, get_backend, fail, mret, M_ret. simpl.
    destruct (SQLiteStore.entities (backend σ) !! (entity, id)) as [v|]; [|done].
    by destruct (decode_map v).
  - intros entity id data σ σ' Hu. simpl in *.
    apply sql_Update_stores in Hu.
    unfold SQLiteStore.Get, mbind, M_bind, get_backend. simpl. by rewrite Hu.
  - intros entity id data d x σ σ0 Hb Hg Hd. simpl in *.
    assert (is_Some (SQLiteStore.entities (backend σ) !! (entity, id))) as [old Hold].
    { revert Hg. rewrite Hb.
      unfold SQLiteStore.Get, mbind, M_bind, get_backend, fail. simpl.
      destruct (SQLiteStore.entities (backend σ0) !! (entity, id)); [eauto|done]. }
    unfold SQLiteStore.Update, transaction.
    unfold mbind at 1. unfold M_bind. rewrite copy_with_id_run.
    unfold mbind at 1. unfold M_bind, read. simpl. rewrite lookup_insert_eq. simpl.
    unfold mbind at 1. unfold M_bind, SQLiteStore.update_entity.
    unfold mbind at 1. unfold M_bind, get_backend. simpl. rewrite Hold. simpl.
    unfold mbind, M_bind, put_backend, mret, M_ret. simpl.
    match goal with |- context [SQLiteStore.syncGraphEdges ?e ?i ?d ?s] =>
      pose proof (syncGraphEdges_Ok e i d s) as Hs;
      destruct (SQLiteStore.syncGraphEdges e i d s) as [r σ2] end.
    simpl in Hs. subst r. eauto.
Qed.

(** What a successful [handlePatch] leaves in the store, on any backend
    that keeps the laws: the document that the loop leaves, with the id
    set. *)
Lemma handlePatch_stores {S : Type} `{!Store S} `{!StoreLaws S}
    cfg validate entity id patchData (w w' : server.world S) :
  server.handlePatch cfg validate entity id patchData w = Some (200%nat, w') →
  ∃ existing merged,
    (Get entity id (server.store_state w)).1 = Ok existing ∧
    server.patch_loop cfg patchData existing = Some merged ∧
    (Get entity id (server.store_state w')).1 =
    Ok (Some (json_roundtrip_map (<["id" := JInt id]> (default ∅ merged)))).
Proof.
  unfold server.handlePatch.
  destruct (negb (server.validateEntityName entity)); [done|].
  case_decide; [done|].
  pose proof (Get_reads entity id (server.store_state w)) as Hr.
  destruct (Get entity id (server.store_state w)) as [[existing|e|] σ1] eqn:HG;
    simpl in Hr; subst σ1; [|by destruct e|done].
  destruct (server.patch_loop cfg patchData existing) as [merged|] eqn:HL; [|done].
  destruct (negb (validate entity _)); [done|].
  intros Hres. exists existing, merged. split; [done|]. split; [done|].
  revert Hres. destruct merged as [m|].
  - unfold mbind at 1. unfold M_bind, new. simpl.
    set (l := fresh (dom (mem (server.store_state w)))).
    set (σ1 := State (backend (server.store_state w))
                     (<[l := m]> (mem (server.store_state w)))).
    unfold mbind at 1. unfold M_bind.
    destruct (Update entity id l σ1) as [[[]|e|] σ2] eqn:HU; [|done|done].
    unfold read. simpl.
    pose proof (Update_Get entity id l σ1 σ2 HU) as HG2.
    unfold σ1 in HG2. simpl in HG2. rewrite lookup_insert_eq in HG2. simpl in HG2.
    intros Hres. destruct (server.GraphEnabled cfg).
    + destruct (graph.UpdateFromEntity _ _ _ _); [|done].
      simpl in Hres. by injection Hres as <-.
    + by injection Hres as <-.
  - unfold mbind at 1. unfold M_bind, nil_map. simpl.
    unfold mbind at 1. unfold M_bind.
    destruct (Update entity id _ (server.store_state w)) as [[[]|e|] σ2] eqn:HU;
      [|done|done].
    pose proof (Update_Get entity id _ _ σ2 HU) as HG2.
    rewrite fresh_unallocated in HG2. simpl in HG2.
    unfold mret, M_ret.
    intros Hres. destruct (server.GraphEnabled cfg).
    + destruct (graph.UpdateFromEntity _ _ _ _); [|done].
      simpl in Hres. by injection Hres as <-.
    + by injection Hres as <-.
Qed.

End StoreLaws.

(** ** Patch observed through Get *)

Section PatchObservedProofs.
Import storage.

Lemma patched_as_specified_of_merge policy_delete id partial existing merged :
  merged_as_specified policy_delete id partial existing merged →
  patched_as_specified policy_delete id partial existing (json_roundtrip_map merged).
Proof.
  intros [Hid Hm]. split; [by exists merged|].
  intros Hve Hvp.
  assert (utf8_keys merged) as Hv.
  { intros k x Hk. destruct (decide (k = "id")) as [->|Hne]; [reflexivity|].
    rewrite Hm in Hk by done. unfold spec_patch_field in Hk.
    rewrite decide_False in Hk by done.
    destruct (partial !! k) as [v|] eqn:Hp; [by apply (Hvp k v)|].
    by apply (Hve k x). }
  rewrite json_roundtrip_map_valid by done. split.
  - by rewrite lookup_fmap, Hid.
  - intros k Hk. by rewrite lookup_fmap, Hm.
Qed.

(** the loop of the handler on the nil map: when it does not panic, no
    field is specified to be there afterwards *)
Lemma patch_assigns_lookup cfg partial k :
  server.patch_assigns cfg partial = false → k ≠ "id" →
  spec_patch_field (policy_delete_of cfg) k None (partial !! k) = None.
Proof.
  intros Hf Hk. unfold spec_patch_field. rewrite decide_False by done.
  destruct (partial !! k) as [v|] eqn:Hp; [|done].
  destruct (server.patch_assigns cfg partial) eqn:Ha; [done|]. clear Hf.
  apply not_true_iff_false in Ha. unfold server.patch_assigns in Ha.
  rewrite existsb_exists in Ha.
  assert (¬ (match v with
             | JNull => negb (policy_delete_of cfg)
             | _ => true
             end = true)) as Hn.
  { intros Hv. apply Ha. exists (k, v). split.
    - apply list_elem_of_In. by apply elem_of_map_to_list.
    - simpl. by rewrite decide_False. }
  destruct v; try done. by destruct (policy_delete_of cfg).
Qed.

Lemma patch_loop_lookup cfg partial existing merged k :
  server.patch_loop cfg partial existing = Some merged → k ≠ "id" →
  default ∅ merged !! k =
  spec_patch_field (policy_delete_of cfg) k (default ∅ existing !! k) (partial !! k).
Proof.
  intros HL Hk. destruct existing as [m|]; simpl in HL.
  - injection HL as <-. simpl. apply server_patch_merge_lookup.
  - destruct (server.patch_assigns cfg partial) eqn:Ha; [done|]. injection HL as <-.
    simpl. rewrite lookup_empty. symmetry. by apply patch_assigns_lookup.
Qed.

Lemma handlePatch_follows {S : Type} `{!Store S} `{!StoreLaws S} :
  handlePatch_follows_policy S.
Proof.
  intros cfg validate entity id partial w w' H.
  apply handlePatch_stores in H as (existing & merged & Hg & HL & Hg').
  exists existing. eexists. split; [done|]. split; [done|].
  apply patched_as_specified_of_merge. split; [by rewrite lookup_insert_eq|].
  intros k Hk. rewrite lookup_insert_ne by done. by apply patch_loop_lookup.
Qed.

Lemma handlePatch_answers_200 {S : Type} `{!Store S} `{!StoreLaws S} :
  handlePatch_answers S.
Proof.
  intros cfg validate entity id partial existing w Hname Hid Hg Hval Hgraph.
  unfold server.handlePatch. rewrite Hname. simpl.
  rewrite decide_False by lia.
  pose proof (Get_reads entity id (server.store_state w)) as Hr.
  destruct (Get entity id (server.store_state w)) as [r σ1] eqn:HG.
  simpl in Hr, Hg. subst r σ1. simpl. rewrite Hval. simpl.
  unfold mbind at 1. unfold M_bind, new. simpl.
  set (l := fresh (dom (mem (server.store_state w)))).
  set (merged := server.patch_merge cfg partial existing).
  set (σ1 := State (backend (server.store_state w))
                   (<[l := merged]> (mem (server.store_state w)))).
  destruct (Update_found entity id l merged (Some existing) σ1 (server.store_state w))
    as [σ2 HU]; [done | by rewrite HG | by apply lookup_insert_eq |].
  unfold mbind at 1. unfold M_bind. rewrite HU. unfold read. simpl.
  destruct (server.GraphEnabled cfg) eqn:HGE; [|eauto].
  destruct (UpdateFromEntity_consistent entity id (default ∅ (mem σ2 !! l))
              (server.graph_state w)) as (g' & Hu & _); [by apply Hgraph|].
  rewrite Hu. simpl. eauto.
Qed.

Lemma file_Patch_as_store : storage_Patch_as JSONFileStore.fsys false.
Proof.
  intros entity id partial σ σ' H. simpl in *.
  unfold JSONFileStore.Patch in H.
  apply bind_Ok in H as (existing0 & σ1 & Hg & H).
  pose proof (Get_reads (S := JSONFileStore.fsys) entity id σ) as Hr.
  simpl in Hr. rewrite Hg in Hr. simpl in Hr. subst σ1.
  apply bind_Ok in H as (p & σ2 & Hp & H). apply read_run in Hp as [-> ->].
  apply bind_Ok in H as (l & σ3 & Hn & H).
  destruct existing0 as [existing|].
  - injection Hn as <- <-. exists existing. eexists. split; [by rewrite Hg|]. split.
    + exact (Update_Get (S := JSONFileStore.fsys) entity id _ _ σ' H).
    + simpl. rewrite lookup_insert_eq. simpl.
      apply patched_as_specified_of_merge. split; [by rewrite lookup_insert_eq|].
      intros k Hk. rewrite lookup_insert_ne by done.
      apply JSONFileStore_patch_merge_lookup.
  - exfalso. destruct (bool_decide _); [done|]. injection Hn as <- <-.
    apply file_Update_Ok_object in H as [d Hd]. by rewrite fresh_unallocated in Hd.
Qed.

Lemma sql_Patch_stores entity id updates (σ σ' : state SQLiteStore.DB) :
  SQLiteStore.Patch entity id updates σ = (Ok (), σ') →
  ∃ existing,
    (SQLiteStore.Get entity id σ).1 = Ok (Some existing) ∧
    SQLiteStore.entities (backend σ') !! (entity, id) =
    Some (json_roundtrip
            (JObject (<["id" := JInt id]>
                        (SQLiteStore.patch_merge (default ∅ (mem σ !! updates)) existing)))).
Proof.
  unfold SQLiteStore.Patch, transaction.
  unfold mbind at 1. unfold M_bind.
  pose proof (Get_reads (S := SQLiteStore.DB) entity id σ) as Hr. simpl in Hr.
  destruct (SQLiteStore.Get entity id σ) as [[[ex|]|e|] σ1] eqn:HG; simpl in *;
    [| |done|done]; subst σ1.
  - repeat (unfold mbind at 1; unfold M_bind, read, new, assign; simpl;
            rewrite ?lookup_insert_eq; simpl).
    unfold SQLiteStore.update_entity.
    repeat (unfold mbind at 1; unfold M_bind, get_backend; simpl).
    destruct (SQLiteStore.entities (backend σ) !! (entity, id)) as [old|] eqn:Hold; simpl.
    + unfold mbind, M_bind, put_backend, mret, M_ret. simpl.
      match goal with |- context [SQLiteStore.syncGraphEdges ?e ?i ?d ?s] =>
        pose proof (syncGraphEdges_entities e i d s) as He;
        destruct (SQLiteStore.syncGraphEdges e i d s) as [[[]|err|] σ2] end;
        simpl in *; [|done|done].
      intros [= <-]. exists ex. split; [done|].
      rewrite He. simpl. by rewrite lookup_insert_eq.
    + done.
  - unfold mbind at 1. unfold M_bind, read. simpl.
    unfold mbind at 1. unfold M_bind.
    destruct (SQLiteStore.patch_assigns _); [done|].
    unfold nil_map. simpl.
    unfold mbind at 1. unfold M_bind, assign. simpl.
    by rewrite fresh_unallocated.
Qed.

Lemma sql_Patch_as_delete : storage_Patch_as SQLiteStore.DB true.
Proof.
  intros entity id partial σ σ' H. simpl in *.
  apply sql_Patch_stores in H as (existing & Hg & Hs).
  exists existing. eexists. split; [done|]. split.
  - unfold SQLiteStore.Get, mbind, M_bind, get_backend. simpl. rewrite Hs. simpl. done.
  - apply patched_as_specified_of_merge. split; [by rewrite lookup_insert_eq|].
    intros k Hk. rewrite lookup_insert_ne by done.
    apply SQLiteStore_patch_merge_lookup.
Qed.

Lemma empty_patch_noop {S : Type} `{!Store S} `{!StoreLaws S} : empty_patch_is_noop S.
Proof.
  intros cfg validate entity id existing w w' H Hg Hdec Hid.
  apply handlePatch_stores in H as (existing' & merged & Hg' & HL & Hafter).
  rewrite Hg in Hg'. injection Hg' as <-.
  simpl in HL. injection HL as <-. rewrite Hafter. do 2 f_equal. simpl.
  unfold server.patch_merge. rewrite map_fold_empty.
  destruct (decoded_fields _ Hdec) as [Hv Hf].
  rewrite json_roundtrip_map_valid by (by apply utf8_keys_insert).
  rewrite fmap_insert. simpl. rewrite Hf. by apply insert_id.
Qed.



End PatchObservedProofs.

(** ** Graph synchronisation of the relational backend *)

Section SQLiteSync.
Import storage.

Lemma sync_fields_run entity id fields (σ : state SQLiteStore.DB) :
  NoDup fields.*1 →
  (∀ x, x ∈ SQLiteStore.graph_edges (backend σ) →
        SQLiteStore.from_node entity id x → x.2 ∉ fields.*1) →
  ∃ σ', SQLiteStore.sync_fields entity id fields σ = (Ok (), σ') ∧
        ∀ x, x ∈ SQLiteStore.graph_edges (backend σ') ↔
             x ∈ SQLiteStore.graph_edges (backend σ) ∨
             ∃ key value targetEntity targetID,
               (key, value) ∈ fields ∧
               SQLiteStore.sync_target key value = Some (targetEntity, targetID) ∧
               x = (entity, id, targetEntity, targetID, key).
Proof.
  revert σ. induction fields as [|[key value] rest IH]; intros σ Hnd Hfree; simpl.
  - exists σ. split; [done|]. intros x. split; [by left|].
    intros [Hx|(k & v & te & ti & Hin & _)]; [done|]. by apply elem_of_nil in Hin.
  - apply NoDup_cons in Hnd as [Hkey Hnd]. simpl in Hkey.
    destruct (SQLiteStore.sync_target key value) as [[targetEntity targetID]|] eqn:Ht.
    + unfold SQLiteStore.insert_edge.
      repeat (unfold mbind at 1; unfold M_bind, get_backend, put_backend, fail; simpl).
      case_decide as Hin.
      { exfalso. apply (Hfree _ Hin); [done|]. simpl. by left. }
      simpl. unfold mbind, M_bind.
      match goal with |- context [SQLiteStore.sync_fields entity id rest ?s] =>
        destruct (IH s Hnd) as (σ' & Hrun & Hedges) end.
      { simpl. intros x Hx Hfrom Hrest. apply elem_of_union in Hx as [Hx|Hx].
        - apply elem_of_singleton in Hx as ->. simpl in Hrest. done.
        - apply (Hfree x Hx Hfrom). simpl. by right. }
      exists σ'. rewrite Hrun. split; [done|]. intros x. rewrite Hedges. simpl.
      rewrite elem_of_union, elem_of_singleton. split.
      * intros [[->|Hx]|(k & v & te & ti & Hin' & Hs & ->)].
        -- right. exists key, value, targetEntity, targetID. split; [by left|done].
        -- by left.
        -- right. exists k, v, te, ti. split; [by right|done].
      * intros [Hx|(k & v & te & ti & Hin' & Hs & ->)]; [by left; right|].
        apply elem_of_cons in Hin' as [[= -> ->]|Hin'].
        -- rewrite Ht in Hs. injection Hs as <- <-. by left; left.
        -- right. by exists k, v, te, ti.
    + destruct (IH σ Hnd) as (σ' & Hrun & Hedges).
      { intros x Hx Hfrom Hrest. apply (Hfree x Hx Hfrom). simpl. by right. }
      exists σ'. split; [done|]. intros x. rewrite Hedges. split.
      * intros [Hx|(k & v & te & ti & Hin' & Hs & ->)]; [by left|].
        right. exists k, v, te, ti. split; [by right|done].
      * intros [Hx|(k & v & te & ti & Hin' & Hs & ->)]; [by left|].
        apply elem_of_cons in Hin' as [[= -> ->]|Hin'].
        -- by rewrite Ht in Hs.
        -- right. by exists k, v, te, ti.
Qed.

(** The sync of the relational backend replaces the out-edges of the
    node: it never fails, removes every edge that leaves [(entity, id)],
    keeps every other edge, and inserts one edge per field that passes its
    reference test. *)
Lemma syncGraphEdges_replaces entity id d (σ : state SQLiteStore.DB) :
  ∃ σ', SQLiteStore.syncGraphEdges entity id d σ = (Ok (), σ') ∧
        ∀ x, x ∈ SQLiteStore.graph_edges (backend σ') ↔
             (x ∈ SQLiteStore.graph_edges (backend σ) ∧
              ¬ SQLiteStore.from_node entity id x) ∨
             ∃ key value targetEntity targetID,
               d !! key = Some value ∧
               SQLiteStore.sync_target key value = Some (targetEntity, targetID) ∧
               x = (entity, id, targetEntity, targetID, key).
Proof.
  unfold SQLiteStore.syncGraphEdges.
  repeat (unfold mbind at 1; unfold M_bind, get_backend, put_backend; simpl).
  match goal with |- context [SQLiteStore.sync_fields entity id _ ?s] =>
    destruct (sync_fields_run entity id (map_to_list d) s) as (σ' & Hrun & Hedges) end.
  - apply NoDup_fst_map_to_list.
  - simpl. intros x Hx Hfrom. apply elem_of_filter in Hx as [Hx _]. done.
  - exists σ'. split; [done|]. intros x. rewrite Hedges. simpl.
    rewrite elem_of_filter. split.
    + intros [[Hn Hx]|(k & v & te & ti & Hin & Hs & ->)]; [by left|].
      right. exists k, v, te, ti. by rewrite <- elem_of_map_to_list.
    + intros [[Hx Hn]|(k & v & te & ti & Hin & Hs & ->)]; [by left|].
      right. exists k, v, te, ti. by rewrite elem_of_map_to_list.
Qed.

(** Scenario S3 on the relational backend: after the update the node has
    the one out-edge to [users:99]. *)
Example S3_sqlite :
  (SQLiteStore.out_edges "users" 2 ∘ backend)
    ((a ← new {[ "name" := JString "M" ]};
      Create "users" a;;
      b ← new (employee 1);
      i ← Create "users" b;
      c ← new (employee 99);
      Update "users" i c) SQLiteStore.empty).2 =
  {[ ("manager", ("users", 99)) ]}.
Proof. vm_compute. reflexivity. Qed.

End SQLiteSync.

(** ** The id sequence of the relational backend *)

Section SQLiteSequence.
Import storage.

Lemma seq_fixed_bind {A B : Type} (m : M SQLiteStore.DB A) (k : A → M SQLiteStore.DB B) :
  seq_fixed m → (∀ a, seq_fixed (k a)) → seq_fixed (m ≫= k).
Proof.
  intros Hm Hk σ. unfold mbind, M_bind. specialize (Hm σ).
  destruct (m σ) as [[a|e|] σ1]; simpl in *; [|done|done].
  by rewrite Hk.
Qed.

Lemma seq_fixed_run {A : Type} (m : M SQLiteStore.DB A) σ r σ' :
  seq_fixed m → m σ = (r, σ') →
  SQLiteStore.entity_sequences (backend σ') = SQLiteStore.entity_sequences (backend σ).
Proof. intros Hm H. specialize (Hm σ). by rewrite H in Hm. Qed.

Lemma insert_entity_seq_fixed entity id v : seq_fixed (SQLiteStore.insert_entity entity id v).
Proof.
  intros σ. unfold SQLiteStore.insert_entity.
  repeat (unfold mbind at 1; unfold M_bind, get_backend, put_backend, fail; simpl).
  by destruct (SQLiteStore.entities (backend σ) !! (entity, id)).
Qed.

Lemma insert_edge_seq_fixed e : seq_fixed (SQLiteStore.insert_edge e).
Proof.
  intros σ. unfold SQLiteStore.insert_edge.
  repeat (unfold mbind at 1; unfold M_bind, get_backend, put_backend, fail; simpl).
  by case_decide.
Qed.

Lemma sync_fields_seq_fixed entity id fields :
  seq_fixed (SQLiteStore.sync_fields entity id fields).
Proof.
  induction fields as [|[key value] rest IH]; simpl; [by intros ?|].
  destruct (SQLiteStore.sync_target key value) as [[targetEntity targetID]|]; [|done].
  apply seq_fixed_bind; [apply insert_edge_seq_fixed | done].
Qed.

Lemma syncGraphEdges_seq_fixed entity id d :
  seq_fixed (SQLiteStore.syncGraphEdges entity id d).
Proof.
  intros σ. unfold SQLiteStore.syncGraphEdges.
  repeat (unfold mbind at 1; unfold M_bind, get_backend, put_backend; simpl).
  by rewrite sync_fields_seq_fixed.
Qed.

Lemma transaction_Ok {S A : Type} (m : M S A) σ a σ' :
  transaction m σ = (Ok a, σ') → m σ = (Ok a, σ').
Proof.
  unfold transaction. destruct (m σ) as [[a'|e|] σ1]; [|done|done].
  by intros [= <- <-].
Qed.

(** after a successful [Save] at [id] the sequence of the entity holds
    at least [id + 1] *)
Lemma sql_Save_sequence entity id data (σ σ' : state SQLiteStore.DB) :
  SQLiteStore.Save entity id data σ = (Ok (), σ') →
  ∃ n, SQLiteStore.entity_sequences (backend σ') !! entity = Some n ∧ wrap64 (id + 1) ≤ n.
Proof.
  unfold SQLiteStore.Save. intros H.
  apply bind_Ok in H as (ex & σ1 & He & H). injection He as <- <-.
  destruct (bool_decide _); [done|].
  apply bind_Ok in H as (l & σ1 & Hc & H). rewrite copy_with_id_run in Hc.
  injection Hc as <- <-.
  apply bind_Ok in H as (d & σ2 & Hr & H). apply read_run in Hr as [-> ->].
  apply transaction_Ok in H.
  apply bind_Ok in H as ([] & σ4 & Hbump & Hb).
  assert (SQLiteStore.entity_sequences (backend σ') =
          SQLiteStore.entity_sequences (backend σ4)) as ->.
  { eapply seq_fixed_run; [|exact Hb].
    apply seq_fixed_bind; [apply insert_entity_seq_fixed|].
    intros ?. apply syncGraphEdges_seq_fixed. }
  revert Hbump. unfold SQLiteStore.sequence_bump.
  repeat (unfold mbind at 1; unfold M_bind, get_backend, put_backend; simpl).
  intros [= <-]. simpl. rewrite lookup_insert_eq. eexists. split; [done|].
  destruct (SQLiteStore.entity_sequences (backend σ) !! entity); lia.
Qed.

Lemma next_id_upsert_Ok entity nextID (σ σ' : state SQLiteStore.DB) :
  SQLiteStore.next_id_upsert entity σ = (Ok nextID, σ') →
  nextID = match SQLiteStore.entity_sequences (backend σ) !! entity with
           | None => 1
           | Some n => n + 1
           end.
Proof.
  unfold SQLiteStore.next_id_upsert.
  repeat (unfold mbind at 1; unfold M_bind, get_backend, put_backend, mret, M_ret; simpl).
  by intros [= <- _].
Qed.

(** a successful [Create] returns the successor of a stored sequence value *)
Lemma sql_Create_id entity data n j (σ σ' : state SQLiteStore.DB) :
  SQLiteStore.entity_sequences (backend σ) !! entity = Some n →
  SQLiteStore.Create entity data σ = (Ok j, σ') → j = n + 1.
Proof.
  intros Hn H. unfold SQLiteStore.Create in H. apply transaction_Ok in H.
  apply bind_Ok in H as (nextID & σ1 & Hu & H).
  apply next_id_upsert_Ok in Hu. rewrite Hn in Hu. subst nextID.
  apply bind_Ok in H as (l & σ4 & _ & H).
  apply bind_Ok in H as (d & σ5 & _ & H).
  apply bind_Ok in H as ([] & σ6 & _ & H).
  apply bind_Ok in H as ([] & σ7 & _ & H).
  by injection H as <- _.
Qed.

(** On the relational backend the create that follows a save at [id]
    returns at least [id + 2]: above [id], and never [id + 1]. *)
Lemma sql_Create_after_Save entity id data data' j (σ σ1 σ2 : state SQLiteStore.DB) :
  - 2 ^ 63 ≤ id < 2 ^ 63 - 1 →
  SQLiteStore.Save entity id data σ = (Ok (), σ1) →
  SQLiteStore.Create entity data' σ1 = (Ok j, σ2) →
  id + 2 ≤ j.
Proof.
  intros Hid Hs Hc. apply sql_Save_sequence in Hs as (n & Hn & Hle).
  rewrite (sql_Create_id _ _ _ _ _ _ Hn Hc).
  unfold wrap64 in Hle. rewrite Z.mod_small in Hle by lia. lia.
Qed.

End SQLiteSequence.

(** ** The tables after a call of the relational backend *)

Section SQLiteRuns.
Import storage SQLiteStore SQLiteTables.

Lemma DB_eq (db db' : DB) :
  entities db = entities db' → graph_edges db = graph_edges db' →
  entity_sequences db = entity_sequences db' → db = db'.
Proof. destruct db, db'. simpl. by intros -> -> ->. Qed.

Lemma elem_of_doc_rows entity id d x :
  x ∈ doc_rows entity id d ↔
  ∃ key value targetEntity targetID,
    d !! key = Some value ∧ sync_target key value = Some (targetEntity, targetID) ∧
    x = (entity, id, targetEntity, targetID, key).
Proof.
  unfold doc_rows. rewrite elem_of_list_to_set, list_elem_of_omap. split.
  - intros ([k v] & Hkv & Hx). apply elem_of_map_to_list in Hkv. simpl in Hx.
    destruct (sync_target k v) as [[te ti]|] eqn:Ht; [|done]. simpl in Hx.
    injection Hx as <-. by exists k, v, te, ti.
  - intros (k & v & te & ti & Hk & Ht & ->). exists (k, v).
    split; [by apply elem_of_map_to_list|]. simpl. by rewrite Ht.
Qed.

Lemma syncGraphEdges_run entity id d (σ : state DB) :
  syncGraphEdges entity id d σ = (Ok (), State (sync_db entity id d (backend σ)) (mem σ)).
Proof.
  destruct (syncGraphEdges_replaces entity id d σ) as (σ' & Hrun & Hed).
  rewrite Hrun. f_equal.
  pose proof (syncGraphEdges_entities entity id d σ) as He.
  pose proof (syncGraphEdges_seq_fixed entity id d σ) as Hs.
  pose proof (syncGraphEdges_mem_fixed entity id d σ) as Hm.
  rewrite Hrun in He, Hs, Hm. simpl in *.
  destruct σ' as [db' m']. simpl in *. f_equal; [|done].
  apply DB_eq; [done| |done]. simpl.
  apply set_eq. intros x. rewrite Hed, elem_of_union, elem_of_filter, elem_of_doc_rows.
  tauto.
Qed.

Local Ltac step_bind :=
  unfold mbind at 1; unfold M_bind at 1.

Lemma sql_Create_run e data (σ : state DB) :
  SQLiteStore.Create e data σ =
  let db := backend σ in
  let id := next_id e db in
  let d := <["id" := JInt id]> (default ∅ (mem σ !! data)) in
  let m := <[fresh (dom (mem σ)) := d]> (mem σ) in
  if decide (entities db !! (e, id) = None)
  then (Ok id,
        State (write_db e id d
                 (set_entity_sequences (<[e := id]> (entity_sequences db)) db)) m)
  else (Err ErrIO, State db m).
Proof.
  cbv zeta. unfold SQLiteStore.Create, transaction.
  step_bind. unfold next_id_upsert. step_bind. unfold get_backend.
  step_bind. unfold put_backend, mret, M_ret.
  step_bind. rewrite copy_with_id_run. simpl.
  step_bind. unfold read. simpl. rewrite lookup_insert_eq. simpl.
  step_bind. unfold insert_entity. step_bind. unfold get_backend. simpl.
  fold (next_id e (backend σ)).
  destruct (entities (backend σ) !! (e, next_id e (backend σ))) as [v|] eqn:Hv.
  - rewrite decide_False by done. done.
  - rewrite decide_True by done. unfold put_backend. simpl.
    step_bind. rewrite syncGraphEdges_run. simpl. done.
Qed.

Lemma sql_Update_run e id data (σ : state DB) :
  SQLiteStore.Update e id data σ =
  let db := backend σ in
  let d := <["id" := JInt id]> (default ∅ (mem σ !! data)) in
  let m := <[fresh (dom (mem σ)) := d]> (mem σ) in
  match entities db !! (e, id) with
  | Some _ => (Ok (), State (write_db e id d db) m)
  | None => (Err ErrNotFound, State db m)
  end.
Proof.
  cbv zeta. unfold SQLiteStore.Update, transaction.
  step_bind. rewrite copy_with_id_run. simpl.
  step_bind. unfold read. simpl. rewrite lookup_insert_eq. simpl.
  step_bind. unfold update_entity. step_bind. unfold get_backend. simpl.
  destruct (entities (backend σ) !! (e, id)) as [v|] eqn:Hv; simpl.
  - by rewrite syncGraphEdges_run.
  - done.
Qed.

Lemma sql_Save_run e id data (σ : state DB) :
  SQLiteStore.Save e id data σ =
  let db := backend σ in
  let d := <["id" := JInt id]> (default ∅ (mem σ !! data)) in
  match entities db !! (e, id) with
  | Some _ => (Err ErrAlreadyExists, σ)
  | None => (Ok (), State (write_db e id d (bump_db e id db))
                          (<[fresh (dom (mem σ)) := d]> (mem σ)))
  end.
Proof.
  cbv zeta. unfold SQLiteStore.Save.
  step_bind. unfold SQLiteStore.Exists. step_bind. unfold get_backend, mret, M_ret. simpl.
  destruct (entities (backend σ) !! (e, id)) as [v|] eqn:Hv; simpl.
  - done.
  - step_bind. rewrite copy_with_id_run. simpl.
    step_bind. unfold read. simpl. rewrite lookup_insert_eq. simpl.
    unfold transaction.
    step_bind. unfold sequence_bump. step_bind. unfold get_backend. simpl.
    unfold put_backend. simpl.
    step_bind. unfold insert_entity. step_bind. unfold get_backend. simpl. rewrite Hv.
    unfold put_backend. simpl. rewrite syncGraphEdges_run. done.
Qed.

Lemma write_db_entities e i d db :
  entities (write_db e i d db) = <[(e, i) := json_roundtrip (JObject d)]> (entities db).
Proof. done. Qed.

End SQLiteRuns.

(** ** The caller's map after a store call *)

Section CallerMapProofs.
Import storage.

Lemma sql_keeps_caller_map : sql_calls_keep_caller_map.
Proof.
  intros entity id data d σ Hd. split; [|split].
  - by apply sql_Create_keeps.
  - by apply sql_Update_keeps.
  - by apply sql_Save_keeps.
Qed.

Lemma sql_stores_copy : sql_calls_store_copy.
Proof.
  intros entity id data d σ Hd. cbv zeta. split; [|split].
  - rewrite sql_Create_run. cbv zeta. rewrite Hd. simpl.
    destruct (SQLiteStore.entities (backend σ) !! _) as [v|] eqn:Hv.
    + by rewrite decide_False.
    + rewrite decide_True by done. split; [done|].
      unfold row_holds. simpl. by rewrite lookup_insert_eq.
  - rewrite sql_Update_run. cbv zeta. rewrite Hd. simpl.
    destruct (SQLiteStore.entities (backend σ) !! _) as [v|] eqn:Hv; [|done].
    split; [done|]. unfold row_holds. simpl. by rewrite lookup_insert_eq.
  - rewrite sql_Save_run. cbv zeta. rewrite Hd. simpl.
    destruct (SQLiteStore.entities (backend σ) !! _) as [v|] eqn:Hv; [done|].
    split; [done|]. unfold row_holds. simpl. by rewrite lookup_insert_eq.
Qed.

Lemma file_Update_id : file_Update_writes_id.
Proof.
  intros entity id data d σ Hd. cbv zeta. unfold entry.
  unfold JSONFileStore.Update, JSONFileStore.Exists, JSONFileStore.WriteFile,
    mbind, M_bind, get_backend, put_backend, fail, mret, M_ret, assign, read.
  simpl.
  destruct (default ∅ (backend σ !! entity) !! JSONFileStore.getEntityFile id)
    as [[content|]|] eqn:Hf.
  - rewrite bool_decide_eq_true_2 by eauto. rewrite Hd. simpl.
    destruct (backend σ !! entity) as [dir|] eqn:Hdir; simpl in Hf;
      [|by rewrite lookup_empty in Hf].
    rewrite Hf. simpl. rewrite !lookup_insert_eq. simpl.
    split; [done|]. split; [done|]. unfold file_holds, entry. simpl.
    rewrite lookup_insert_eq. simpl. by rewrite lookup_insert_eq.
  - rewrite bool_decide_eq_true_2 by eauto. rewrite Hd. simpl.
    destruct (backend σ !! entity) as [dir|] eqn:Hdir; simpl in Hf;
      [|by rewrite lookup_empty in Hf].
    rewrite Hf. simpl. by rewrite !lookup_insert_eq.
  - rewrite bool_decide_eq_false_2 by (by intros [? ?]). done.
Qed.

Lemma file_Save_id : file_Save_writes_id.
Proof.
  intros entity id data d σ Hd. cbv zeta. unfold entry.
  unfold JSONFileStore.Save, JSONFileStore.Exists, JSONFileStore.MkdirAll,
    JSONFileStore.WriteFile,
    mbind, M_bind, get_backend, put_backend, fail, mret, M_ret, assign, read.
  simpl.
  destruct (default ∅ (backend σ !! entity) !! JSONFileStore.getEntityFile id)
    as [x|] eqn:Hf.
  - rewrite bool_decide_eq_true_2 by eauto. done.
  - rewrite bool_decide_eq_false_2 by (by intros [? ?]).
    destruct (backend σ !! entity) as [dir|] eqn:Hdir; simpl in *.
    + rewrite Hd. simpl. rewrite Hdir, Hf. simpl. rewrite !lookup_insert_eq. simpl.
      split; [done|]. split; [done|]. unfold file_holds, entry. simpl.
      rewrite lookup_insert_eq. simpl. by rewrite lookup_insert_eq.
    + rewrite Hd. simpl. rewrite lookup_insert_eq. simpl. rewrite lookup_empty.
      simpl. rewrite !lookup_insert_eq. simpl.
      split; [done|]. split; [done|]. unfold file_holds, entry. simpl.
      rewrite lookup_insert_eq. simpl. by rewrite lookup_insert_eq.
Qed.

Lemma file_Create_id : file_Create_writes_id.
Proof.
  intros entity data d σ Hd. cbv zeta. unfold entry.
  pose proof (getEntityFile_not_next_id) as Hne.
  unfold JSONFileStore.Create, JSONFileStore.NextID, JSONFileStore.MkdirAll,
    JSONFileStore.WriteFile,
    mbind, M_bind, get_backend, put_backend, fail, mret, M_ret, assign, read.
  simpl.
  destruct (backend σ !! entity) as [dir|] eqn:Hdir; simpl.
  - rewrite Hdir. simpl.
    destruct (dir !! JSONFileStore.getNextIDFile) as [[c|]|] eqn:Hn; simpl.
    + rewrite Hd. simpl. rewrite !lookup_insert_eq. simpl.
      rewrite lookup_insert_ne by (by apply not_eq_sym).
      destruct (dir !! JSONFileStore.getEntityFile _) as [[c'|]|] eqn:Hf; simpl;
        rewrite ?lookup_insert_eq; (split; [done|]); try done;
        (split; [done|]); unfold file_holds, entry; simpl;
        rewrite lookup_insert_eq; simpl; by rewrite lookup_insert_eq.
    + by rewrite Hd.
    + rewrite Hd. simpl. rewrite !lookup_insert_eq. simpl.
      rewrite lookup_insert_ne by (by apply not_eq_sym).
      destruct (dir !! JSONFileStore.getEntityFile _) as [[c'|]|] eqn:Hf; simpl;
        rewrite ?lookup_insert_eq; (split; [done|]); try done;
        (split; [done|]); unfold file_holds, entry; simpl;
        rewrite lookup_insert_eq; simpl; by rewrite lookup_insert_eq.
  - rewrite lookup_insert_eq. simpl. rewrite !lookup_empty. simpl.
    rewrite Hd. simpl. rewrite !lookup_insert_eq. simpl.
    rewrite lookup_insert_ne by (by apply not_eq_sym). rewrite lookup_empty.
    simpl. rewrite !lookup_insert_eq. simpl.
    split; [done|]. split; [done|]. unfold file_holds, entry. simpl.
    rewrite lookup_insert_eq. simpl. by rewrite lookup_insert_eq.
Qed.


(** The assignment comes before the write: where a directory has the
    name of the file, [Create] fails and the caller's map holds the id. *)
Example caller_map_after_failed_write :
  let r := JSONFileStore.Create "users" 0
             (new {[ "name" := JString "A" ]} blocked_store).2 in
  r.1 = Err ErrIO ∧
  mem r.2 !! 0%nat = Some {[ "name" := JString "A"; "id" := JInt 1 ]}.
Proof. vm_compute. done. Qed.

End CallerMapProofs.


(** ** The order of List *)

Section ListOrder.
Import storage.

#[local] Instance id_le_total : Total SQLiteStore.id_le.
Proof. intros a b. unfold SQLiteStore.id_le. lia. Qed.

#[local] Instance id_le_trans : Transitive SQLiteStore.id_le.
Proof. intros a b c. unfold SQLiteStore.id_le. lia. Qed.

#[local] Instance name_le_total : Total JSONFileStore.name_le.
Proof. intros a b. unfold JSONFileStore.name_le. apply String.leb_total. Qed.

(** [ORDER BY id]: the selected rows are exactly the rows of the entity
    type, in ascending order of their ids. *)
Lemma select_by_type_sorted entity db :
  StronglySorted Z.le (SQLiteStore.select_by_type entity db).*1 ∧
  ∀ id v, (id, v) ∈ SQLiteStore.select_by_type entity db ↔
          SQLiteStore.entities db !! (entity, id) = Some v.
Proof.
  unfold SQLiteStore.select_by_type. split.
  - apply (StronglySorted_fmap fst SQLiteStore.id_le Z.le); [done|].
    apply StronglySorted_merge_sort; apply _.
  - intros id v. rewrite merge_sort_Permutation, list_elem_of_omap. split.
    + intros ([[e i] v'] & Hin & Hsome). simpl in Hsome.
      case_decide as He; [|done]. injection Hsome as <- <-. subst e.
      by apply elem_of_map_to_list in Hin.
    + intros Hl. exists (entity, id, v). split.
      * by apply elem_of_map_to_list.
      * simpl. by rewrite decide_True.
Qed.

(** What [List] of the relational backend returns is the decoding of
    those rows, in that order. *)
Lemma sql_List_rows entity docs (σ σ' : state SQLiteStore.DB) :
  SQLiteStore.List entity σ = (Ok docs, σ') →
  SQLiteStore.decode_rows (SQLiteStore.select_by_type entity (backend σ)) = Some docs.
Proof.
  unfold SQLiteStore.List, mbind, M_bind, get_backend. simpl.
  destruct (SQLiteStore.decode_rows _) as [ds|]; [|done]. by intros [= <- _].
Qed.

(** [os.ReadDir]: the entries of the file backend are walked in the
    order of their names. *)
Lemma ReadDir_sorted dir :
  Sorted JSONFileStore.name_le (JSONFileStore.ReadDir dir) ∧
  JSONFileStore.ReadDir dir ≡ₚ map_to_list dir.
Proof.
  unfold JSONFileStore.ReadDir. split.
  - apply Sorted_merge_sort. apply _.
  - apply merge_sort_Permutation.
Qed.

End ListOrder.

(** ** The graph file: what Save and Load do carry *)

Section Strings.

Lemma has_colon_has_char s : has_colon s = has_char ":" s.
Proof. induction s as [|c s IH]; simpl; [done | by rewrite IH]. Qed.

Lemma has_char_app c s t : has_char c (s +:+ t) = has_char c s || has_char c t.
Proof. induction s as [|c' s IH]; simpl; [done|]. by rewrite IH, orb_assoc. Qed.

Lemma plain_app s t : plain (s +:+ t) = plain s && plain t.
Proof. induction s as [|c' s IH]; simpl; [done|]. by rewrite IH, andb_assoc. Qed.

Lemma plain_no_space c s :
  gostrings.is_space c = true → plain s = true → has_char c s = false.
Proof.
  intros Hc. induction s as [|c' s IH]; simpl; [done|].
  intros H. apply andb_true_iff in H as [H1 H2]. rewrite (IH H2), orb_false_r.
  destruct (Ascii.eqb_spec c' c) as [->|]; [|done].
  unfold plain_byte in H1. by rewrite Hc in H1.
Qed.

Lemma string_app_assoc (s t u : string) : (s +:+ t) +:+ u = s +:+ (t +:+ u).
Proof.
  induction s as [|c s IH]; [done|].
  change (String c ((s +:+ t) +:+ u) = String c (s +:+ t +:+ u)). by f_equal.
Qed.

Lemma Cut_app sep a b :
  has_char sep a = false → gostrings.Cut sep (a +:+ String sep b) = Some (a, b).
Proof.
  induction a as [|c a IH]; simpl.
  - by rewrite Ascii.eqb_refl.
  - intros H. apply orb_false_iff in H as [H1 H2]. by rewrite H1, (IH H2).
Qed.

Lemma SplitN2_app sep a b :
  has_char sep a = false → gostrings.SplitN2 sep (a +:+ String sep b) = [a; b].
Proof. intros H. unfold gostrings.SplitN2. by rewrite Cut_app. Qed.

Lemma Split_no_sep sep a :
  has_char sep a = false → gostrings.Split sep a = [a].
Proof.
  induction a as [|c a IH]; simpl; [done|].
  intros H. apply orb_false_iff in H as [H1 H2]. by rewrite H1, (IH H2).
Qed.

Lemma Split_app sep a b :
  has_char sep a = false →
  gostrings.Split sep (a +:+ String sep b) = a :: gostrings.Split sep b.
Proof.
  induction a as [|c a IH]; simpl.
  - by rewrite Ascii.eqb_refl.
  - intros H. apply orb_false_iff in H as [H1 H2]. by rewrite H1, (IH H2).
Qed.

Lemma Join_cons t t' ts sep :
  gostrings.Join (t :: t' :: ts) sep = t +:+ sep +:+ gostrings.Join (t' :: ts) sep.
Proof. done. Qed.

Lemma Split_Join tokens :
  tokens ≠ [] →
  Forall (λ t, has_char " " t = false) tokens →
  gostrings.Split " " (gostrings.Join tokens " ") = tokens.
Proof.
  induction tokens as [|t ts IH]; [done|]. intros _ Hall.
  apply Forall_cons in Hall as [Ht Hts].
  destruct ts as [|t' ts].
  - simpl. by apply Split_no_sep.
  - rewrite Join_cons.
    change (t +:+ " " +:+ gostrings.Join (t' :: ts) " ")
      with (t +:+ String " " (gostrings.Join (t' :: ts) " ")).
    rewrite Split_app by done. f_equal. by apply IH.
Qed.

Lemma last_char_app s t :
  last_char (s +:+ t) =
  match last_char t with Some c => Some c | None => last_char s end.
Proof.
  induction s as [|c s IH].
  - change ("" +:+ t) with t. simpl. by destruct (last_char t).
  - change (String c s +:+ t) with (String c (s +:+ t)). simpl.
    rewrite IH. destruct (last_char t); [done|]. by destruct (last_char s).
Qed.

Lemma last_char_plain s c : plain s = true → last_char s = Some c → plain_byte c = true.
Proof.
  revert c. induction s as [|c' s IH]; intros c; simpl; [done|].
  intros H. apply andb_true_iff in H as [H1 H2].
  destruct (last_char s) as [d|]; simpl; intros [= <-]; [by apply IH | done].
Qed.

Lemma TrimLeft_id s :
  (∀ c s', s = String c s' → gostrings.is_space c = false) → gostrings.TrimLeft s = s.
Proof. destruct s as [|c s]; simpl; [done|]. intros H. by rewrite (H c s). Qed.

Lemma TrimRight_id s :
  (∀ c, last_char s = Some c → gostrings.is_space c = false) → gostrings.TrimRight s = s.
Proof.
  induction s as [|c s IH]; simpl; [done|]. intros H.
  destruct s as [|c' s'].
  - simpl. by rewrite (H c).
  - rewrite IH; [done|]. intros d Hd. apply H. simpl in *. by rewrite Hd.
Qed.

Lemma TrimSpace_id s :
  (∀ c s', s = String c s' → gostrings.is_space c = false) →
  (∀ c, last_char s = Some c → gostrings.is_space c = false) →
  gostrings.TrimSpace s = s.
Proof.
  intros H1 H2. unfold gostrings.TrimSpace. rewrite TrimLeft_id by done.
  by apply TrimRight_id.
Qed.

Lemma plain_byte_no_space c : plain_byte c = true → gostrings.is_space c = false.
Proof. unfold plain_byte. by destruct (gostrings.is_space c). Qed.

(** the last byte of joined tokens is the last byte of a token *)
Lemma Join_last_char (P : ascii → Prop) tokens :
  Forall (λ t, ∃ c, last_char t = Some c ∧ P c) tokens →
  tokens ≠ [] →
  ∃ c, last_char (gostrings.Join tokens " ") = Some c ∧ P c.
Proof.
  induction tokens as [|t ts IH]; [done|]. intros Hall _.
  apply Forall_cons in Hall as [Ht Hts].
  destruct ts as [|t' ts]; [apply Ht|].
  destruct (IH Hts) as (c & Hc & HP); [done|].
  exists c. split; [|done]. by rewrite Join_cons, !last_char_app, Hc.
Qed.

End Strings.
Section Codec.
Import graph.
#[local] Arguments Ascii.eqb : simpl never.

Lemma foldl_map_ext {A B C : Type} (f : A → B → A) (g : C → B) (h : A → C → A)
    (l : list C) (a : A) :
  (∀ x a, x ∈ l → f a (g x) = h a x) →
  foldl f a (map g l) = foldl h a l.
Proof.
  revert a. induction l as [|x l IH]; intros a H; simpl; [done|].
  rewrite H by left. apply IH. intros y b Hy. apply H. by right.
Qed.

Lemma codec_facts_of g :
  consistent g → codec_ok g = true → codec_facts (adjacency g).
Proof.
  intros [Hs Hm] Hok n m Hn.
  assert (Hnode : ∀ u mu, adjacency g !! u = Some mu →
            plain u = true ∧ has_colon u = false ∧
            Z.of_nat (String.length (line_body u mu)) < gostrings.MaxScanTokenSize ∧
            ∀ k r, mu !! k = Some r → plain r = true).
  { intros u mu Hu. unfold codec_ok in Hok. rewrite forallb_forall in Hok.
    specialize (Hok (u, mu)). simpl in Hok.
    assert (Hin : In (u, mu) (map_to_list (adjacency g))).
    { apply list_elem_of_In. by apply elem_of_map_to_list. }
    apply Hok in Hin. rewrite !andb_true_iff in Hin.
    destruct Hin as [[[H1 H2] H3] H4].
    split; [done|]. split; [by destruct (has_colon u)|].
    split; [by apply Z.ltb_lt|].
    intros k r Hk. rewrite forallb_forall in H4.
    apply (H4 (k, r)). apply list_elem_of_In. by apply elem_of_map_to_list. }
  destruct (Hnode n m Hn) as (H1 & H2 & H3 & H4).
  split; [done|]. split; [done|]. split; [done|].
  intros k r Hk.
  assert (Hk' : is_Some (adjacency g !! k)).
  { apply Hs. assert (He : edge (reverse g) k n = Some r).
    { apply Hm. unfold edge. rewrite Hn. done. }
    unfold edge in He. destruct (reverse g !! k); [by eexists | done]. }
  destruct Hk' as [mk Hmk]. destruct (Hnode k mk Hmk) as (? & ? & _).
  split; [done|]. split; [done|]. split; [by eapply H4 | by eexists].
Qed.

Lemma has_char_Join c tokens :
  Ascii.eqb " " c = false →
  Forall (λ t, has_char c t = false) tokens →
  has_char c (gostrings.Join tokens " ") = false.
Proof.
  intros Hc. induction tokens as [|t ts IH]; [done|]. intros Hall.
  apply Forall_cons in Hall as [Ht Hts].
  destruct ts as [|t' ts]; [done|].
  rewrite Join_cons, !has_char_app, Ht, (IH Hts). simpl. by rewrite Hc.
Qed.

Lemma space_not_colon c : gostrings.is_space c = true → Ascii.eqb ":" c = false.
Proof. intros H. destruct (Ascii.eqb_spec ":" c) as [<-|]; [done|done]. Qed.

Section Token.
Context (k r : string).
Hypothesis Hk : plain k = true.
Hypothesis Hkc : has_colon k = false.
Hypothesis Hr : plain r = true.

Lemma token_no_space c : gostrings.is_space c = true → has_char c (token (k, r)) = false.
Proof.
  intros Hc. unfold token; simpl. rewrite !has_char_app. simpl.
  rewrite !(plain_no_space c) by done. by rewrite (space_not_colon c).
Qed.

Lemma token_nonempty : token (k, r) ≠ "".
Proof. unfold token; simpl. by destruct k. Qed.

Lemma token_SplitN2 : gostrings.SplitN2 ":" (token (k, r)) = [k; r].
Proof. apply SplitN2_app. by rewrite <- has_colon_has_char. Qed.

Lemma token_last_char c : last_char (token (k, r)) = Some c → gostrings.is_space c = false.
Proof.
  change (token (k, r)) with (k +:+ String ":" r). rewrite last_char_app. simpl.
  destruct (last_char r) as [d|] eqn:Hd; simpl; intros [= <-]; [|reflexivity].
  apply plain_byte_no_space. by eapply last_char_plain.
Qed.

Lemma load_neighbor_token n ar :
  load_neighbor n (token (k, r)) ar = put_edge n k r (ensure_node k ar).
Proof.
  unfold load_neighbor. destruct (decide (token (k, r) = "")) as [E|_].
  - by destruct token_nonempty.
  - by rewrite token_SplitN2.
Qed.

End Token.

Section Line.
Context (adj : gmap string (gmap string string)) (n : string) (m : gmap string string).
Hypothesis Hadj : codec_facts adj.
Hypothesis Hn : adj !! n = Some m.

Local Abbreviation tokens := (map token (map_to_list m)).

Lemma line_body_eq : line_body n m = n +:+ String ":" (gostrings.Join tokens " ").
Proof. done. Qed.

Lemma tokens_facts kr :
  kr ∈ map_to_list m → plain kr.1 = true ∧ has_colon kr.1 = false ∧ plain kr.2 = true.
Proof.
  destruct kr as [k r]. intros Hkr. apply elem_of_map_to_list in Hkr.
  destruct (Hadj n m Hn) as (_ & _ & _ & H). destruct (H k r Hkr) as (? & ? & ? & _).
  done.
Qed.

Lemma tokens_Forall (P : string → Prop) :
  (∀ k r, plain k = true → has_colon k = false → plain r = true → P (token (k, r))) →
  Forall P tokens.
Proof.
  intros H. apply Forall_forall. intros t Ht.
  apply list_elem_of_fmap in Ht as ([k r] & -> & Hkr).
  destruct (tokens_facts _ Hkr) as (? & ? & ?). by apply H.
Qed.

Lemma line_body_no_space c :
  gostrings.is_space c = true → Ascii.eqb " " c = false →
  has_char c (line_body n m) = false.
Proof.
  intros Hc Hsp. destruct (Hadj n m Hn) as (Hp & _ & _ & _).
  rewrite line_body_eq, has_char_app. simpl.
  rewrite (plain_no_space c n), (space_not_colon c) by done. simpl.
  apply has_char_Join; [done|].
  apply tokens_Forall. intros k r ???. by apply token_no_space.
Qed.

Lemma line_body_TrimSpace : gostrings.TrimSpace (line_body n m) = line_body n m.
Proof.
  destruct (Hadj n m Hn) as (Hp & _ & _ & _).
  apply TrimSpace_id.
  - rewrite line_body_eq. destruct n as [|c' n']; simpl.
    + by intros c s' [= <- <-].
    + change (String c' n' +:+ ?t) with (String c' (n' +:+ t)).
      intros c s' [= <- <-]. simpl in Hp. apply andb_true_iff in Hp as [Hp _].
      by apply plain_byte_no_space.
  - intros c. rewrite line_body_eq, last_char_app. simpl.
    destruct (last_char (gostrings.Join tokens " ")) as [d|] eqn:Hd; simpl;
      intros [= <-]; [|done].
    destruct (Join_last_char (λ c, gostrings.is_space c = false) tokens) as (e & He & Hs).
    + apply tokens_Forall. intros k r ???.
      destruct (last_char (token (k, r))) as [e|] eqn:He.
      * exists e. split; [done|]. by eapply token_last_char.
      * by destruct k.
    + intros E. by rewrite E in Hd.
    + congruence.
Qed.

Lemma line_body_nonempty : line_body n m ≠ "".
Proof. rewrite line_body_eq. by destruct n. Qed.

Lemma line_body_SplitN2 :
  gostrings.SplitN2 ":" (line_body n m) = [n; gostrings.Join tokens " "].
Proof.
  destruct (Hadj n m Hn) as (_ & Hc & _ & _).
  rewrite line_body_eq. apply SplitN2_app. by rewrite <- has_colon_has_char.
Qed.

Lemma load_line_body ar :
  load_line (line_body n m) ar = add_node_edges n (map_to_list m) ar.
Proof.
  unfold load_line. cbv zeta. rewrite line_body_TrimSpace.
  destruct (decide (line_body n m = "")) as [E|_]; [by destruct line_body_nonempty|].
  rewrite line_body_SplitN2. unfold add_node_edges.
  destruct (map_to_list m) as [|kr kvs] eqn:Hm; [done|]. rewrite <- Hm.
  destruct (decide (gostrings.Join tokens " " = "")) as [E|_].
  - exfalso. rewrite Hm in E. destruct kr as [k r]. destruct kvs; simpl in E.
    + by destruct k.
    + by destruct k.
  - rewrite Split_Join.
    + apply foldl_map_ext. intros [k r] a Hkr. destruct a as [a|]; [|done]. simpl.
      destruct (tokens_facts _ Hkr) as (? & ? & ?). by apply load_neighbor_token.
    + by rewrite Hm.
    + apply tokens_Forall. intros k r ???. by apply token_no_space.
Qed.

Lemma line_body_fits :
  (Z.of_nat (String.length (line_body n m)) <? gostrings.MaxScanTokenSize) = true.
Proof. destruct (Hadj n m Hn) as (_ & _ & H & _). by apply Z.ltb_lt. Qed.

End Line.

Section File.
Context (adj : gmap string (gmap string string)).
Hypothesis Hadj : codec_facts adj.

Lemma save_line_body n m acc :
  save_line n m +:+ acc = line_body n m +:+ String "010" acc.
Proof. unfold save_line, line_body. by rewrite !string_app_assoc. Qed.

Lemma Save_Split L :
  (∀ nm, nm ∈ L → adj !! nm.1 = Some nm.2) →
  gostrings.Split "010" (foldr (λ nn acc, save_line nn.1 nn.2 +:+ acc) "" L)
  = map (λ nn, line_body nn.1 nn.2) L ++ [""].
Proof.
  induction L as [|[n m] L IH]; intros HL; simpl; [done|].
  rewrite save_line_body, Split_app.
  - f_equal. apply IH. intros nm Hnm. apply HL. by right.
  - apply (line_body_no_space adj n m Hadj); [|done|done]. apply (HL (n, m)). by left.
Qed.

Lemma scan_fitting_bodies L :
  (∀ nm, nm ∈ L → adj !! nm.1 = Some nm.2) →
  gostrings.scan_fitting (map (λ nn, line_body nn.1 nn.2) L)
  = map (λ nn, line_body nn.1 nn.2) L.
Proof.
  induction L as [|[n m] L IH]; intros HL; simpl; [done|].
  rewrite (line_body_fits adj n m Hadj) by (apply (HL (n, m)); by left).
  f_equal. apply IH. intros nm Hnm. apply HL. by right.
Qed.

Lemma ScanLines_Save L :
  (∀ nm, nm ∈ L → adj !! nm.1 = Some nm.2) →
  gostrings.ScanLines (foldr (λ nn acc, save_line nn.1 nn.2 +:+ acc) "" L)
  = map (λ nn, line_body nn.1 nn.2) L.
Proof.
  intros HL. unfold gostrings.ScanLines. rewrite Save_Split by done.
  rewrite reverse_app. simpl. rewrite reverse_involutive.
  by apply scan_fitting_bodies.
Qed.

Lemma load_lines_bodies L :
  (∀ nm, nm ∈ L → adj !! nm.1 = Some nm.2) →
  load_lines (map (λ nn, line_body nn.1 nn.2) L) = build L.
Proof.
  intros HL. unfold load_lines, build. apply foldl_map_ext.
  intros [n m] a Hnm. destruct a as [a|]; [|done]. simpl.
  apply (load_line_body adj n m Hadj). by apply (HL (n, m)).
Qed.

End File.
End Codec.
Section Rebuild.
Import graph.

Lemma foldl_option_prefix {A S : Type} (I : list A → S → Prop) (f : A → S → option S)
    (l : list A) (s : S) :
  I [] s →
  (∀ pre x suf s, l = pre ++ x :: suf → I pre s →
                  ∃ s', f x s = Some s' ∧ I (pre ++ [x]) s') →
  ∃ s', foldl (λ acc a, s ← acc; f a s) (Some s) l = Some s' ∧ I l s'.
Proof.
  intros H0 Hstep.
  assert (G : ∀ l' pre s, l = pre ++ l' → I pre s →
                ∃ s', foldl (λ acc a, s ← acc; f a s) (Some s) l' = Some s' ∧ I l s').
  { induction l' as [|x l' IH]; intros pre s0 El Hs; simpl.
    - exists s0. split; [done|]. by rewrite El, app_nil_r.
    - destruct (Hstep pre x l' s0 El Hs) as (s1 & -> & Hs1). simpl.
      apply (IH (pre ++ [x])); [|done]. by rewrite <- app_assoc. }
  by apply (G l []).
Qed.

(** one neighbour: what [ensure_node] and [put_edge] do to the adjacency map *)
Lemma read_neighbour n k r A R mn :
  pair_consistent (A, R) → A !! n = Some mn →
  ∃ A' R', put_edge n k r (ensure_node k (A, R)) = Some (A', R') ∧
           pair_consistent (A', R') ∧
           A' !! n = Some (<[k := r]> mn) ∧
           (k ≠ n → A' !! k = Some (default ∅ (A !! k))) ∧
           (∀ u, u ≠ n → u ≠ k → A' !! u = A !! u).
Proof.
  intros [Hs Hm] Hn.
  destruct (ensure_node_consistent k A R Hs Hm) as [Hs1 Hm1].
  assert (E1 : (ensure_node k (A, R)).1 !! n = Some mn).
  { unfold ensure_node; simpl. destruct (A !! k) eqn:Hk; simpl; [done|].
    rewrite lookup_insert_ne; [done|]. intros ->. congruence. }
  assert (Ek : (ensure_node k (A, R)).1 !! k = Some (default ∅ (A !! k))).
  { unfold ensure_node; simpl. destruct (A !! k) eqn:Hk; simpl; [done|].
    by rewrite lookup_insert_eq. }
  assert (Eu : ∀ u, u ≠ k → (ensure_node k (A, R)).1 !! u = A !! u).
  { intros u Hu. unfold ensure_node; simpl. destruct (A !! k) eqn:Hk; simpl; [done|].
    by rewrite lookup_insert_ne. }
  destruct (ensure_node k (A, R)) as [A1 R1]. simpl in *.
  destruct (put_edge_consistent n k r A1 R1 Hs1 Hm1) as (A' & R' & Hp & Hs2 & Hm2);
    [by eexists | by eexists |].
  exists A', R'. split; [done|]. split; [done|].
  unfold put_edge, store2 in Hp. simpl in Hp. rewrite E1 in Hp. simpl in Hp.
  destruct (R1 !! k); [|done]. simpl in Hp. injection Hp as <- <-.
  split; [by rewrite lookup_insert_eq|].
  split.
  - intros Hkn. by rewrite lookup_insert_ne.
  - intros u Hun Huk. rewrite lookup_insert_ne by done. by apply Eu.
Qed.

Section Node.
Context (adj : gmap string (gmap string string)).
Hypothesis Hadj : codec_facts adj.
Context (P : list (string * gmap string string)) (n : string) (m : gmap string string).
Hypothesis Hn : adj !! n = Some m.
Hypothesis HnP : n ∉ P.*1.

Lemma building_start ar :
  pair_consistent ar → built adj P ar.1 →
  pair_consistent (ensure_node n ar) ∧ building adj P n m [] (ensure_node n ar).1.
Proof.
  destruct ar as [A R]. intros [Hs Hm] (Ha & Hb & Hc). simpl in *.
  split; [by apply ensure_node_consistent|].
  unfold ensure_node; simpl. destruct (A !! n) as [x|] eqn:Hx; simpl.
  - split; [done|]. split; [by intros u y Hu _; apply Hb|]. split; [done|].
    exists x. split; [done|]. rewrite (Hb n x HnP Hx).
    split; [by intros k Hk; apply elem_of_nil in Hk | done].
  - split.
    { intros u mu Hu. rewrite lookup_insert_ne; [by apply Ha|].
      intros <-. apply HnP. apply list_elem_of_fmap. by exists (n, mu). }
    split.
    { intros u y Hu Hun. rewrite lookup_insert_ne by done. by apply Hb. }
    split.
    { intros u. destruct (decide (u = n)) as [->|Hun]; [by rewrite Hn; eexists|].
      rewrite lookup_insert_ne by done. apply Hc. }
    exists ∅. rewrite lookup_insert_eq. split; [done|].
    split; [by intros k Hk; apply elem_of_nil in Hk | done].
Qed.

Lemma building_step Q k r ar :
  m !! k = Some r →
  pair_consistent ar → building adj P n m Q ar.1 →
  ∃ ar', put_edge n k r (ensure_node k ar) = Some ar' ∧
         pair_consistent ar' ∧ building adj P n m (Q ++ [(k, r)]) ar'.1.
Proof.
  destruct ar as [A R]. intros Hk Hpc (Ha & Hb & Hc & mn & Hmn & Hin & Hout). simpl in *.
  destruct (read_neighbour n k r A R mn Hpc Hmn) as (A' & R' & -> & Hpc' & En & Ek & Eu).
  exists (A', R'). split; [done|]. split; [done|]. simpl.
  assert (Hkadj : is_Some (adj !! k)).
  { destruct (Hadj n m Hn) as (_ & _ & _ & H). by destruct (H k r Hk) as (_ & _ & _ & ?). }
  assert (HuP : ∀ u mu, (u, mu) ∈ P → u ≠ n).
  { intros u mu Hu ->. apply HnP. apply list_elem_of_fmap. by exists (n, mu). }
  split.
  { intros u mu Hu. destruct (decide (u = k)) as [->|Huk].
    - rewrite Ek by (by eapply HuP). by rewrite (Ha k mu Hu).
    - rewrite Eu; [by apply Ha | by eapply HuP | done]. }
  split.
  { intros u x Hu Hun. destruct (decide (u = k)) as [->|Huk].
    - rewrite Ek by done. intros [= <-]. destruct (A !! k) as [y|] eqn:Hy; [|done].
      simpl. by eapply Hb.
    - rewrite Eu by done. by apply Hb. }
  split.
  { intros u. destruct (decide (u = n)) as [->|Hun]; [by rewrite Hn; eexists|].
    destruct (decide (u = k)) as [->|Huk]; [done|]. rewrite Eu by done. apply Hc. }
  exists (<[k := r]> mn). split; [done|]. split.
  - intros k' Hk'. rewrite fmap_app, elem_of_app in Hk'. simpl in Hk'.
    destruct (decide (k' = k)) as [->|Hkk]; [by rewrite lookup_insert_eq|].
    rewrite lookup_insert_ne by done. apply Hin.
    destruct Hk' as [|Hk']; [done|]. apply list_elem_of_singleton in Hk'. done.
  - intros k' Hk'. rewrite fmap_app, not_elem_of_app in Hk'. simpl in Hk'.
    destruct Hk' as [Hk1 Hk2]. rewrite lookup_insert_ne; [by apply Hout|].
    intros <-. apply Hk2. by left.
Qed.

Lemma building_end ar :
  building adj P n m (map_to_list m) ar → built adj (P ++ [(n, m)]) ar.
Proof.
  intros (Ha & Hb & Hc & mn & Hmn & Hin & Hout).
  assert (Emn : mn = m).
  { apply map_eq. intros k. destruct (m !! k) as [r|] eqn:Hk.
    - rewrite Hin; [done|]. apply list_elem_of_fmap. exists (k, r).
      split; [done|]. by apply elem_of_map_to_list.
    - apply Hout. intros Hin'. apply list_elem_of_fmap in Hin' as ([k' r] & -> & Hkr).
      apply elem_of_map_to_list in Hkr. simpl in Hk. congruence. }
  subst mn. split.
  { intros u mu Hu. apply elem_of_app in Hu as [Hu|Hu]; [by apply Ha|].
    apply list_elem_of_singleton in Hu. by injection Hu as -> ->. }
  split; [|done].
  intros u x Hu. rewrite fmap_app, not_elem_of_app in Hu. destruct Hu as [Hu1 Hu2].
  apply Hb; [done|]. intros ->. apply Hu2. by left.
Qed.

Lemma add_node_edges_built ar :
  pair_consistent ar → built adj P ar.1 →
  ∃ ar', add_node_edges n (map_to_list m) ar = Some ar' ∧
         pair_consistent ar' ∧ built adj (P ++ [(n, m)]) ar'.1.
Proof.
  intros Hpc Hb. destruct (building_start ar Hpc Hb) as [Hpc1 Hb1].
  unfold add_node_edges.
  destruct (foldl_option_prefix
              (λ Q ar, pair_consistent ar ∧ building adj P n m Q ar.1)
              (λ kr ar, put_edge n kr.1 kr.2 (ensure_node kr.1 ar))
              (map_to_list m) (ensure_node n ar)) as (ar' & E & Hpc' & Hb').
  - done.
  - intros pre [k r] suf s El [Hs1 Hs2]. simpl.
    destruct (building_step pre k r s) as (s' & ? & ? & ?); [|done|done|by eauto].
    apply elem_of_map_to_list. rewrite El. apply elem_of_app. right. by left.
  - exists ar'. split; [done|]. split; [done|]. by apply building_end.
Qed.

End Node.

Lemma build_built adj :
  codec_facts adj →
  ∃ ar, build (map_to_list adj) = Some ar ∧
        pair_consistent ar ∧ built adj (map_to_list adj) ar.1.
Proof.
  intros Hadj. unfold build.
  apply (foldl_option_prefix (λ P ar, pair_consistent ar ∧ built adj P ar.1)
           (λ nm ar, add_node_edges nm.1 (map_to_list nm.2) ar)).
  - split.
    + apply NewIndexedGraph_consistent.
    + simpl. split; [by intros u mu Hu; apply elem_of_nil in Hu|].
      split; [by intros u x _ Hx; rewrite lookup_empty in Hx|].
      intros u [x Hx]. by rewrite lookup_empty in Hx.
  - intros pre [n m] suf ar El [Hpc Hb]. simpl.
    apply (add_node_edges_built adj Hadj); [| |done|done].
    + apply elem_of_map_to_list. rewrite El. apply elem_of_app. right. by left.
    + pose proof (NoDup_fst_map_to_list adj) as Hnd. rewrite El in Hnd.
      rewrite fmap_app in Hnd. apply NoDup_app in Hnd as (_ & Hnd & _).
      intros Hin. apply (Hnd n Hin). simpl. by left.
Qed.

End Rebuild.
Section RoundTrip.
Import graph.

Lemma built_all adj A : built adj (map_to_list adj) A → A = adj.
Proof.
  intros (Ha & _ & Hc). apply map_eq. intros u.
  destruct (adj !! u) as [mu|] eqn:Hu.
  - apply Ha. by apply elem_of_map_to_list.
  - destruct (A !! u) as [x|] eqn:Hx; [|done].
    destruct (Hc u) as [y Hy]; [by eexists | congruence].
Qed.

(** the reverse map is determined by the adjacency map *)
Lemma mirror_determines adj rev R :
  same_nodes adj rev → mirror_maps adj rev →
  same_nodes adj R → mirror_maps adj R → R = rev.
Proof.
  intros Hs Hm Hs' Hm'. apply map_eq. intros v.
  destruct (R !! v) as [x|] eqn:Hx, (rev !! v) as [y|] eqn:Hy.
  - f_equal. apply map_eq. intros u. apply option_eq. intros r.
    pose proof (Hm u v r) as H1. pose proof (Hm' u v r) as H2.
    unfold edge in H1, H2. rewrite Hy in H1. rewrite Hx in H2. simpl in *.
    by rewrite <- H2, H1.
  - assert (H : is_Some (rev !! v)) by (apply Hs, Hs'; by eexists).
    rewrite Hy in H. by destruct H.
  - assert (H : is_Some (R !! v)) by (apply Hs', Hs; by eexists).
    rewrite Hx in H. by destruct H.
  - done.
Qed.

(** For a graph with plain, colon-free node identifiers and plain
    relationships whose lines fit the scanner, [Load] reads back from the
    text of [Save] the two maps of the graph; the index is emptied. *)
Theorem Save_Load_plain g g0 :
  consistent g → codec_ok g = true →
  Load (Some (Save g)) g0
  = Some {| adjacency := adjacency g; reverse := reverse g; index := ∅ |}.
Proof.
  intros Hg Hok. pose proof (codec_facts_of g Hg Hok) as Hadj.
  assert (HL : ∀ nm, nm ∈ map_to_list (adjacency g) → adjacency g !! nm.1 = Some nm.2).
  { intros [n m] Hnm. by apply elem_of_map_to_list. }
  unfold Load, Save.
  rewrite (ScanLines_Save _ Hadj _ HL), (load_lines_bodies _ Hadj _ HL).
  destruct (build_built _ Hadj) as ([A R] & -> & [Hs Hm] & Hb). simpl in *.
  apply built_all in Hb. subst A. destruct Hg as [Hs0 Hm0].
  by rewrite (mirror_determines _ _ R Hs0 Hm0 Hs Hm).
Qed.

Lemma Save_Load_plain_witness :
  Load (Some (Save plain_graph)) NewIndexedGraph
  = Some {| adjacency := adjacency plain_graph; reverse := reverse plain_graph;
            index := ∅ |}.
Proof.
  apply (Save_Load_plain plain_graph NewIndexedGraph).
  - destruct (AddEdge_consistent "alice" "bob" "knows" NewIndexedGraph
                NewIndexedGraph_consistent) as (g' & E & Hg').
    unfold plain_graph. by rewrite E.
  - vm_compute. reflexivity.
Defined.

(** the text of that graph, in the order the model walks the map *)
Example Save_plain_graph :
  Save plain_graph
  = "alice:bob:knows" +:+ String "010" ("bob:" +:+ String "010" "").
Proof. vm_compute. reflexivity. Qed.

End RoundTrip.

(** ** Path search: outcomes *)

Section FindPathMore.
Import graph.
Implicit Types adj : gmap string (gmap string string).

#[local] Arguments bfs : simpl never.

Lemma enqueue_neighbors_nonempty path neighbors qv :
  Forall (λ p, p ≠ []) qv.1 →
  Forall (λ p, p ≠ []) (enqueue_neighbors path neighbors qv).1.
Proof.
  unfold enqueue_neighbors. revert qv.
  induction neighbors as [|nb nbs IH]; intros qv Hq; simpl; [done|].
  apply IH. case_decide; [done|]. simpl.
  apply Forall_app. split; [done|]. apply Forall_singleton. by destruct path.
Qed.

Lemma bfs_outcome fuel adj to maxDepth queue visited r :
  Forall (λ p, p ≠ []) queue →
  bfs fuel adj to maxDepth queue visited = Some r →
  r = ErrNoPath ∨ ∃ p, r = PathFound p.
Proof.
  revert queue visited. induction fuel as [|fuel IH]; intros queue visited Hq; [done|].
  rewrite bfs_S. destruct queue as [|path queue']; [by intros [= <-]; left|].
  apply Forall_cons in Hq as [Hp Hq].
  destruct (Z.of_nat (length path) >? maxDepth); [by apply IH|].
  destruct (last path) as [current|] eqn:Hlast.
  - case_decide; [by intros [= <-]; right; eexists|].
    cbv zeta. apply IH. by apply enqueue_neighbors_nonempty.
  - apply last_None in Hlast. done.
Qed.

(** [FindPath] always returns, and never by indexing an empty path: it
    answers "node not found" exactly when [from] or [to] is no node of the
    graph, and otherwise a path or "no path found". *)
Theorem FindPath_outcome from to maxDepth g :
  ∃ r, FindPath from to maxDepth g = Some r ∧ r ≠ PanicIndex ∧
       ((∃ n, r = ErrNodeNotFound n) ↔
        (adjacency g !! from = None ∨ adjacency g !! to = None)).
Proof.
  destruct (FindPath_terminates from to maxDepth g) as [r Hr].
  exists r. split; [done|]. revert Hr. unfold FindPath.
  destruct (adjacency g !! from) as [a|] eqn:Hf.
  - destruct (adjacency g !! to) as [b|] eqn:Ht.
    + intros Hb. apply bfs_outcome in Hb; [|by apply Forall_singleton].
      destruct Hb as [->|[p ->]].
      * split; [done|]. split; [by intros [? ?] | by intros [?|?]].
      * split; [done|]. split; [by intros [? ?] | by intros [?|?]].
    + intros [= <-]. split; [done|]. split; [by right | by eexists].
  - intros [= <-]. split; [done|]. split; [by left | by eexists].
Qed.

Lemma FindPath_sound_witness :
  head ["users:1"; "users:2"] = Some "users:1" ∧
  last ["users:1"; "users:2"] = Some "users:2" ∧
  is_path (adjacency one_edge_graph) ["users:1"; "users:2"] ∧
  Z.of_nat (length ["users:1"; "users:2"]) - 1 ≤ 2 - 1.
Proof.
  apply (FindPath_sound "users:1" "users:2" 2 one_edge_graph).
  vm_compute. reflexivity.
Defined.

Lemma FindPath_self_witness :
  FindPath "users:2" "users:2" 1 one_edge_graph = Some (PathFound ["users:2"]).
Proof.
  apply FindPath_self; [|lia]. eexists. vm_compute. reflexivity.
Defined.

End FindPathMore.

(** ** Path search: a shortest path is found *)

Section Shortest.
Import graph.
Implicit Types adj : gmap string (gmap string string).

#[local] Arguments bfs : simpl never.

Lemma is_path_app_l adj p1 p2 : is_path adj (p1 ++ p2) → is_path adj p1.
Proof.
  induction p1 as [|u [|v r] IH]; simpl; [done|done|].
  intros [He Hr]. split; [done|]. by apply IH.
Qed.

Lemma is_path_last_edge adj q y x :
  is_path adj (q ++ [x]) → last q = Some y → is_Some (edge adj y x).
Proof.
  induction q as [|u [|v r] IH]; simpl; [done| |].
  - by intros [He _] [= ->].
  - intros [_ Hr] Hl. by apply IH.
Qed.

Lemma elem_of_neighbors adj c w :
  w ∈ (map_to_list (default ∅ (adj !! c))).*1 ↔ is_Some (edge adj c w).
Proof.
  unfold edge. destruct (adj !! c) as [inner|]; simpl.
  - split.
    + intros Hw. apply list_elem_of_fmap in Hw as [[w' r] [-> Hw]].
      apply elem_of_map_to_list in Hw. by eexists.
    + intros [r Hr]. apply list_elem_of_fmap. exists (w, r).
      split; [done|]. by apply elem_of_map_to_list.
  - rewrite map_to_list_empty. split; [by intros ?%elem_of_nil | by intros [? ?]].
Qed.

(** what the inner loop adds: the paths to the neighbours not yet visited *)
Lemma enqueue_neighbors_spec path neighbors Q (V : gset string) :
  ∃ ws, enqueue_neighbors path neighbors (Q, V)
        = (Q ++ map (λ w, path ++ [w]) ws, list_to_set ws ∪ V) ∧
        (∀ w, w ∈ ws → w ∈ neighbors ∧ w ∉ V) ∧
        (∀ w, w ∈ neighbors → w ∈ V ∨ w ∈ ws).
Proof.
  unfold enqueue_neighbors. revert Q V.
  induction neighbors as [|nb nbs IH]; intros Q V; simpl.
  - exists []. simpl. rewrite app_nil_r. split.
    + f_equal. apply set_eq. intros x. rewrite elem_of_union, elem_of_empty. tauto.
    + split; [by intros w ?%elem_of_nil | by intros w ?%elem_of_nil].
  - destruct (decide (nb ∈ V)) as [Hin|Hout].
    + destruct (IH Q V) as (ws & -> & H1 & H2). exists ws. split; [done|]. split.
      * intros w Hw. destruct (H1 w Hw). split; [by right | done].
      * intros w Hw. apply elem_of_cons in Hw as [->|Hw]; [by left | by apply H2].
    + destruct (IH (Q ++ [path ++ [nb]]) ({[nb]} ∪ V)) as (ws & -> & H1 & H2).
      exists (nb :: ws). split; [|split].
      * simpl. rewrite <- app_assoc. simpl. f_equal.
        apply set_eq. intros x.
        rewrite !elem_of_union, elem_of_singleton. tauto.
      * intros w Hw. apply elem_of_cons in Hw as [->|Hw].
        -- split; [by left | done].
        -- destruct (H1 w Hw) as [Ha Hb]. split; [by right|].
           intros Hv. apply Hb. apply elem_of_union. by right.
      * intros w Hw. apply elem_of_cons in Hw as [->|Hw]; [by right; left|].
        destruct (H2 w Hw) as [Hv|Hv].
        -- apply elem_of_union in Hv as [Hv|Hv]; [|by left].
           apply elem_of_singleton in Hv. subst. right. by left.
        -- right. by right.
Qed.

Section Frontier.
Context (adj : gmap string (gmap string string)) (from to : string).
Context (Q : list (list string)) (V : gset string).
Hypothesis Hinv : bfs_inv adj from to Q V.

(** every path from [from] runs through the end of a queued path, unless
    it ends in an expanded node *)
Lemma frontier p x :
  path_from adj from p → last p = Some x →
  (∃ π p1 p2, π ∈ Q ∧ p = p1 ++ p2 ∧ p1 ≠ [] ∧ last p1 = last π ∧ (x ∉ V → p2 ≠ [])) ∨
  (x ∈ V ∧ x ≠ to ∧ ∀ w, is_Some (edge adj x w) → w ∈ V).
Proof.
  destruct Hinv as (Hfrom & _ & _ & _ & HE).
  revert x. induction p as [|x' q IH] using rev_ind; intros x [Hh Hp] Hl.
  { done. }
  rewrite last_snoc in Hl. injection Hl as ->.
  destruct (decide (x ∈ V)) as [Hx|Hx].
  - destruct (HE x Hx) as [(π & Hπ & Hlast)|[Hne Hexp]]; [left|by right].
    exists π, (q ++ [x]), []. rewrite app_nil_r, last_snoc.
    split; [done|]. split; [done|]. split; [by destruct q|]. split; [done|]. done.
  - destruct q as [|u q'] eqn:Eq.
    { simpl in Hh. injection Hh as ->. done. }
    rewrite <- Eq in *.
    assert (Hq : path_from adj from q).
    { split; [by rewrite Eq in Hh |- * | by eapply is_path_app_l]. }
    destruct (last q) as [y|] eqn:Hy; [|by rewrite Eq in Hy; apply last_None in Hy].
    destruct (IH y Hq eq_refl) as [(π & p1 & p2 & Hπ & -> & Hne & Hlast & _)|(Hy' & _ & Hexp)].
    + left. exists π, p1, (p2 ++ [x]). rewrite app_assoc.
      split; [done|]. split; [done|]. split; [done|]. split; [done|].
      intros _. by destruct p2.
    + exfalso. apply Hx, Hexp. by eapply is_path_last_edge.
Qed.

(** a queued path is at most as long as any path through its end *)
Lemma frontier_length p x π0 rest :
  Q = π0 :: rest →
  path_from adj from p → last p = Some x →
  x ∉ V ∨ x = to →
  (length π0 + (if decide (x ∈ V) then 0 else 1) ≤ length p)%nat.
Proof.
  intros EQ Hp Hl Hx.
  destruct Hinv as (Hfrom & HS & _ & HQ & _).
  destruct (frontier p x Hp Hl) as [(π & p1 & p2 & Hπ & -> & Hne & Hlast & Hp2)|(Hv & Hne & _)].
  - destruct (HQ π Hπ) as (_ & v & Hv & _ & Hmin).
    assert (Hp1 : path_from adj from p1).
    { destruct Hp as [Hh Hpath]. split; [by destruct p1 | by eapply is_path_app_l]. }
    assert (H1 : (length π ≤ length p1)%nat) by (apply Hmin; [done | congruence]).
    assert (H0 : (length π0 ≤ length π)%nat).
    { rewrite EQ in Hπ, HS. apply elem_of_cons in Hπ as [->|Hπ]; [done|].
      apply StronglySorted_inv in HS as [_ HF].
      rewrite Forall_forall in HF. by apply HF. }
    rewrite length_app. case_decide as Hd; [lia|].
    specialize (Hp2 Hd). destruct p2; [done|]. simpl. lia.
  - destruct Hx as [Hx|Hx]; done.
Qed.

End Frontier.

Lemma StronglySorted_same_length (path : list string) (ws : list string) :
  StronglySorted (λ a b : list string, (length a ≤ length b)%nat)
                 (map (λ w, path ++ [w]) ws).
Proof.
  induction ws as [|w ws IH]; simpl; constructor; [done|].
  apply Forall_forall. intros π Hπ. apply list_elem_of_fmap in Hπ as (w' & -> & _).
  rewrite !length_app. simpl. lia.
Qed.

Lemma bfs_inv_expand adj from to π0 Q' V c :
  bfs_inv adj from to (π0 :: Q') V →
  last π0 = Some c → c ≠ to →
  bfs_inv adj from to
    (enqueue_neighbors π0 (map_to_list (default ∅ (adj !! c))).*1 (Q', V)).1
    (enqueue_neighbors π0 (map_to_list (default ∅ (adj !! c))).*1 (Q', V)).2.
Proof.
  intros Hinv Hc Hne.
  pose proof Hinv as (Hfrom & HS & Hspan & HQ & HE).
  destruct (enqueue_neighbors_spec π0 (map_to_list (default ∅ (adj !! c))).*1 Q' V)
    as (ws & -> & Hws & Hnb). simpl.
  assert (Hlen : ∀ π, π ∈ map (λ w, π0 ++ [w]) ws → length π = S (length π0)).
  { intros π Hπ. apply list_elem_of_fmap in Hπ as (w & -> & _).
    rewrite length_app. simpl. lia. }
  apply StronglySorted_inv in HS as [HS' Hhead]. rewrite Forall_forall in Hhead.
  split; [|split; [|split; [|split]]].
  - apply elem_of_union. by right.
  - apply StronglySorted_app_2; [|done | apply StronglySorted_same_length].
    intros a b Ha Hb. rewrite (Hlen b Hb). by eapply Hspan.
  - intros h rest π EQ Hπ. destruct Q' as [|h' Q''].
    + simpl in EQ. assert (Hh : h ∈ map (λ w, π0 ++ [w]) ws) by (rewrite EQ; by left).
      assert (Hπ' : π ∈ map (λ w, π0 ++ [w]) ws) by (rewrite EQ; by right).
      rewrite (Hlen h Hh), (Hlen π Hπ'). lia.
    + simpl in EQ. injection EQ as <- <-.
      assert (H0 : (length π0 ≤ length h')%nat) by (apply Hhead; by left).
      apply elem_of_app in Hπ as [Hπ|Hπ].
      * assert ((length π ≤ S (length π0))%nat); [|lia].
        eapply Hspan; [done|]. by right.
      * rewrite (Hlen π Hπ). lia.
  - intros π Hπ. apply elem_of_app in Hπ as [Hπ|Hπ].
    + destruct (HQ π) as (Hp & v & Hv & HvV & Hmin); [by right|].
      split; [done|]. exists v. split; [done|]. split; [|done].
      apply elem_of_union. by right.
    + apply list_elem_of_fmap in Hπ as (w & -> & Hw).
      destruct (Hws w Hw) as [Hwn HwV].
      destruct (HQ π0) as ([Hh Hp] & _); [by left|].
      split.
      { split; [by destruct π0|]. eapply is_path_snoc; [done|done|].
        by apply elem_of_neighbors. }
      exists w. rewrite last_snoc. split; [done|]. split.
      { apply elem_of_union. left. by apply elem_of_list_to_set. }
      intros p Hpp Hpl.
      pose proof (frontier_length adj from to (π0 :: Q') V Hinv p w π0 Q' eq_refl Hpp Hpl) as Hf.
      rewrite decide_False in Hf by done. rewrite length_app. simpl.
      apply Hf. by left.
  - intros v Hv. apply elem_of_union in Hv as [Hv|Hv].
    + apply elem_of_list_to_set in Hv. left. exists (π0 ++ [v]).
      split; [|by rewrite last_snoc].
      apply elem_of_app. right. apply list_elem_of_fmap. by exists v.
    + assert (Hsub : ∀ w, w ∈ V → w ∈ list_to_set ws ∪ V)
        by (intros w Hw; apply elem_of_union; by right).
      destruct (HE v Hv) as [(π & Hπ & Hl)|[Hvt Hexp]].
      * apply elem_of_cons in Hπ as [->|Hπ].
        -- right. assert (v = c) as -> by congruence. split; [done|].
           intros w Hw. apply elem_of_neighbors in Hw.
           destruct (Hnb w Hw) as [?|Hin]; [by apply Hsub|].
           apply elem_of_union. left. by apply elem_of_list_to_set.
        -- left. exists π. split; [|done]. apply elem_of_app. by left.
      * right. split; [done|]. intros w Hw. by apply Hsub, Hexp.
Qed.

Lemma bfs_shortest fuel adj from to maxDepth Q V p r :
  bfs_inv adj from to Q V →
  path_from adj from p → last p = Some to → Z.of_nat (length p) ≤ maxDepth →
  bfs fuel adj to maxDepth Q V = Some r →
  ∃ q, r = PathFound q ∧ (length q ≤ length p)%nat.
Proof.
  intros Hinv Hp Hl Hd. revert Q V Hinv.
  induction fuel as [|fuel IH]; intros Q V Hinv; [done|].
  rewrite bfs_S. destruct Q as [|π0 Q'].
  { exfalso. destruct (frontier adj from to [] V Hinv p to Hp Hl)
      as [(π & _ & _ & Hπ & _)|(_ & Hne & _)]; [by apply elem_of_nil in Hπ | done]. }
  pose proof (frontier_length adj from to (π0 :: Q') V Hinv p to π0 Q' eq_refl Hp Hl
                (or_intror eq_refl)) as Hlen.
  destruct (Z.gtb_spec (Z.of_nat (length π0)) maxDepth) as [Hgt|_].
  { exfalso. destruct (decide (to ∈ V)); lia. }
  pose proof Hinv as (_ & _ & _ & HQ & _).
  destruct (HQ π0) as (_ & c & Hc & HcV & Hmin); [by left|]. rewrite Hc.
  destruct (decide (c = to)) as [->|Hne].
  - intros [= <-]. exists π0. split; [done|]. by apply Hmin.
  - cbv zeta. apply IH. by apply bfs_inv_expand.
Qed.

(** When some path from [from] to [to] has at most [maxDepth] nodes,
    [FindPath] returns a path, and none is shorter than the one it
    returns. *)
Theorem FindPath_shortest from to maxDepth g p :
  head p = Some from → last p = Some to → is_path (adjacency g) p →
  is_Some (adjacency g !! from) → is_Some (adjacency g !! to) →
  Z.of_nat (length p) ≤ maxDepth →
  ∃ q, FindPath from to maxDepth g = Some (PathFound q) ∧ (length q ≤ length p)%nat.
Proof.
  intros Hh Hl Hp [a Ha] [b Hb] Hd.
  destruct (FindPath_terminates from to maxDepth g) as [r Hr].
  rewrite Hr. revert Hr. unfold FindPath. rewrite Ha, Hb. intros Hr.
  destruct (bfs_shortest (bfs_fuel (adjacency g)) (adjacency g) from to maxDepth
              [[from]] {[from]} p r)
    as (q & -> & Hq); [|done|done|done|done|by exists q].
  split; [by apply elem_of_singleton|].
  split; [repeat constructor|].
  split; [by intros π0 rest π [= <- <-] ?%elem_of_nil|].
  split.
  - intros π Hπ. apply list_elem_of_singleton in Hπ as ->.
    split; [done|]. exists from. split; [done|]. split; [by apply elem_of_singleton|].
    intros p' [Hh' _] _. destruct p'; [done|]. simpl. lia.
  - intros v Hv. apply elem_of_singleton in Hv as ->. left. exists [from].
    split; [by apply list_elem_of_singleton | done].
Qed.

Lemma FindPath_shortest_witness :
  ∃ q, FindPath "a" "d" 4 diamond_graph = Some (PathFound q) ∧ (length q ≤ 4)%nat.
Proof.
  apply (FindPath_shortest "a" "d" 4 diamond_graph ["a"; "b"; "c"; "d"]).
  - reflexivity.
  - reflexivity.
  - vm_compute. repeat split; by eexists.
  - eexists. vm_compute. reflexivity.
  - eexists. vm_compute. reflexivity.
  - simpl. lia.
Defined.

(** there the search takes the short way *)
Example FindPath_diamond :
  FindPath "a" "d" 4 diamond_graph = Some (PathFound ["a"; "d"]).
Proof. vm_compute. reflexivity. Qed.

End Shortest.

(** ** Graph operations: what they add and remove *)

Section GraphOperations.
Import graph.
Implicit Types adj rev : gmap string (gmap string string).

Lemma ensure_node_edge n adj rev u v :
  edge (ensure_node n (adj, rev)).1 u v = edge adj u v.
Proof.
  unfold ensure_node; simpl. destruct (adj !! n) as [inner|] eqn:Hn; simpl; [done|].
  rewrite edge_insert. destruct (decide (u = n)) as [->|_]; [|done].
  by rewrite edge_None.
Qed.

Lemma ensure_node_keys n adj rev k :
  is_Some ((ensure_node n (adj, rev)).1 !! k) ↔ k = n ∨ is_Some (adj !! k).
Proof.
  unfold ensure_node; simpl. destruct (adj !! n) as [inner|] eqn:Hn; simpl.
  - split; [by right|]. intros [->|H]; [by rewrite Hn | done].
  - destruct (decide (k = n)) as [->|Hk].
    + rewrite lookup_insert_eq. split; [by left | by eexists].
    + rewrite lookup_insert_ne by done. split; [by right|]. by intros [?|?].
Qed.

(** what [AddEdge] does to the adjacency map, when it returns *)
Lemma AddEdge_adjacency from to rel g g' :
  AddEdge from to rel g = Some g' →
  (∀ u v, edge (adjacency g') u v =
          if decide (u = from ∧ v = to) then Some rel else edge (adjacency g) u v) ∧
  (∀ n, is_Some (adjacency g' !! n) ↔ n = from ∨ n = to ∨ is_Some (adjacency g !! n)).
Proof.
  unfold AddEdge, put_edge. intros Hadd.
  destruct (ensure_node from (adjacency g, reverse g)) as [adj1 rev1] eqn:E1.
  destruct (ensure_node to (adj1, rev1)) as [adj2 rev2] eqn:E2. simpl in Hadd.
  destruct (store2 from to rel adj2) as [adj3|] eqn:E3; [|done]; simpl in Hadd.
  destruct (store2 to from rel rev2) as [rev3|]; [|done]; simpl in Hadd.
  injection Hadd as <-. simpl. split.
  - intros u v. rewrite (edge_store2 _ _ _ _ _ u v E3).
    case_decide; [done|].
    pose proof (ensure_node_edge to adj1 rev1 u v) as H2. rewrite E2 in H2.
    pose proof (ensure_node_edge from (adjacency g) (reverse g) u v) as H1.
    rewrite E1 in H1. simpl in *. congruence.
  - intros n. rewrite (store2_keys _ _ _ _ _ n E3).
    pose proof (ensure_node_keys to adj1 rev1 n) as H2. rewrite E2 in H2.
    pose proof (ensure_node_keys from (adjacency g) (reverse g) n) as H1.
    rewrite E1 in H1. simpl in *. rewrite H2, H1. tauto.
Qed.

(** On a graph whose maps mirror each other, [AddEdge(from, to, rel)]
    succeeds; afterwards [GetNeighbors(from)] holds [to] and
    [GetIncomingEdges(to)] holds [from], both with [rel], the two nodes
    exist, and every other adjacency entry and node is as before. *)
Theorem AddEdge_adds from to rel g :
  consistent g →
  ∃ g', AddEdge from to rel g = Some g' ∧
        GetNeighbors from g' !! to = Some rel ∧
        GetIncomingEdges to g' !! from = Some rel ∧
        (∀ u v, (u, v) ≠ (from, to) →
                edge (adjacency g') u v = edge (adjacency g) u v) ∧
        (∀ n, is_Some (adjacency g' !! n) ↔
              n = from ∨ n = to ∨ is_Some (adjacency g !! n)).
Proof.
  intros Hg. destruct (AddEdge_consistent from to rel g Hg) as (g' & Hadd & [_ Hm]).
  exists g'. split; [done|].
  destruct (AddEdge_adjacency _ _ _ _ _ Hadd) as [He Hk].
  assert (H1 : edge (adjacency g') from to = Some rel).
  { rewrite He. by rewrite decide_True. }
  assert (H2 : edge (reverse g') to from = Some rel) by by apply Hm.
  split.
  { unfold GetNeighbors. unfold edge in H1. by destruct (adjacency g' !! from). }
  split.
  { unfold GetIncomingEdges. unfold edge in H2. by destruct (reverse g' !! to). }
  split; [|done].
  intros u v Hne. rewrite He. rewrite decide_False; [done|].
  intros [-> ->]. done.
Qed.

Lemma AddEdge_adds_witness :
  ∃ g', AddEdge "users:1" "users:2" "next" NewIndexedGraph = Some g' ∧
        GetNeighbors "users:1" g' !! "users:2" = Some "next" ∧
        GetIncomingEdges "users:2" g' !! "users:1" = Some "next" ∧
        (∀ u v, (u, v) ≠ ("users:1", "users:2") →
                edge (adjacency g') u v = edge (adjacency NewIndexedGraph) u v) ∧
        (∀ n, is_Some (adjacency g' !! n) ↔
              n = "users:1" ∨ n = "users:2" ∨ is_Some (adjacency NewIndexedGraph !! n)).
Proof.
  apply (AddEdge_adds "users:1" "users:2" "next" NewIndexedGraph).
  apply NewIndexedGraph_consistent.
Defined.

(** [RemoveNode(n)] leaves no trace of [n]: it is no node, no adjacency
    or reverse entry starts or ends at it, and no index list names it; all
    entries between other nodes stay, and no index list is left empty. *)
Theorem RemoveNode_removes n g :
  adjacency (RemoveNode n g) !! n = None ∧
  reverse (RemoveNode n g) !! n = None ∧
  (∀ u v, edge (adjacency (RemoveNode n g)) u v =
          if decide (u = n ∨ v = n) then None else edge (adjacency g) u v) ∧
  (∀ u v, edge (reverse (RemoveNode n g)) u v =
          if decide (u = n ∨ v = n) then None else edge (reverse g) u v) ∧
  (∀ u, u ≠ n →
        (is_Some (adjacency (RemoveNode n g) !! u) ↔ is_Some (adjacency g !! u))) ∧
  (∀ key nodes, index (RemoveNode n g) !! key = Some nodes →
                nodes ≠ [] ∧ (n ∉ nodes) ∧
                ∃ old, index g !! key = Some old ∧ nodes = filter (λ x, x ≠ n) old).
Proof.
  unfold RemoveNode; simpl.
  split; [by rewrite lookup_fmap, lookup_delete_eq|].
  split; [by rewrite lookup_fmap, lookup_delete_eq|].
  split; [by intros; apply edge_remove_node|].
  split; [by intros; apply edge_remove_node|].
  split.
  - intros u Hu. by rewrite lookup_fmap, fmap_is_Some, lookup_delete_ne.
  - intros key nodes. rewrite lookup_omap.
    destruct (index g !! key) as [old|] eqn:Hold; simpl; [|done].
    destruct (filter (λ x, x ≠ n) old) as [|x xs] eqn:Hf; [done|].
    intros [= <-]. split; [done|]. split.
    + rewrite <- Hf. intros Hin. apply list_elem_of_filter in Hin as [Hne _]. done.
    + by exists old.
Qed.

(** [RemoveEdge] after [AddEdge] removes the adjacency entry again, yet
    both nodes stay and the relationship index still lists [from]. *)
Theorem AddEdge_RemoveEdge from to rel g :
  consistent g →
  ∃ g', AddEdge from to rel g = Some g' ∧
        edge (adjacency (RemoveEdge from to g')) from to = None ∧
        edge (reverse (RemoveEdge from to g')) to from = None ∧
        is_Some (adjacency (RemoveEdge from to g') !! from) ∧
        is_Some (adjacency (RemoveEdge from to g') !! to) ∧
        from ∈ default [] (index (RemoveEdge from to g') !! ("relationship:" +:+ rel)).
Proof.
  intros Hg. destruct (AddEdge_consistent from to rel g Hg) as (g' & Hadd & Hg').
  exists g'. split; [done|].
  destruct (AddEdge_adjacency _ _ _ _ _ Hadd) as [He Hk].
  unfold RemoveEdge; simpl.
  split; [by rewrite edge_alter_delete, decide_True|].
  split; [by rewrite edge_alter_delete, decide_True|].
  split; [rewrite lookup_alter_is_Some; apply Hk; tauto|].
  split; [rewrite lookup_alter_is_Some; apply Hk; tauto|].
  revert Hadd. unfold AddEdge.
  destruct (put_edge from to rel _) as [ar|]; [|done]. simpl. intros [= <-]. simpl.
  unfold index_append. rewrite lookup_insert_eq. simpl.
  apply elem_of_app. right. by left.
Qed.

Lemma AddEdge_RemoveEdge_witness :
  ∃ g', AddEdge "users:1" "users:2" "next" NewIndexedGraph = Some g' ∧
        edge (adjacency (RemoveEdge "users:1" "users:2" g')) "users:1" "users:2" = None ∧
        edge (reverse (RemoveEdge "users:1" "users:2" g')) "users:2" "users:1" = None ∧
        is_Some (adjacency (RemoveEdge "users:1" "users:2" g') !! "users:1") ∧
        is_Some (adjacency (RemoveEdge "users:1" "users:2" g') !! "users:2") ∧
        "users:1" ∈ default [] (index (RemoveEdge "users:1" "users:2" g')
                                  !! ("relationship:" +:+ "next")).
Proof.
  apply (AddEdge_RemoveEdge "users:1" "users:2" "next" NewIndexedGraph).
  apply NewIndexedGraph_consistent.
Defined.

(** [UpdateFromEntity] makes [entity:id] a node and gives it an
    adjacency entry to the target of every reference field of the
    document; the relationship of the entry is the name of a field that
    refers to that target (of one of them, when several do). *)
Theorem UpdateFromEntity_adds_edges entity id data g :
  consistent g →
  ∃ g', UpdateFromEntity entity id data g = Some g' ∧
        is_Some (adjacency g' !! node_id entity id) ∧
        ∀ k v t, data !! k = Some v → field_target (k, v) = Some t →
                 ∃ k' v', data !! k' = Some v' ∧ field_target (k', v') = Some t ∧
                          edge (adjacency g') (node_id entity id) t = Some k'.
Proof.
  intros Hg. unfold UpdateFromEntity.
  destruct (foldl_option_prefix
    (λ pre g', consistent g' ∧ is_Some (adjacency g' !! node_id entity id) ∧
               ∀ kv t, kv ∈ pre → field_target kv = Some t →
                       ∃ kv', kv' ∈ pre ∧ field_target kv' = Some t ∧
                              edge (adjacency g') (node_id entity id) t = Some kv'.1)
    (λ kv g', match models.IsReference kv.2 with
              | Some ref => AddEdge (node_id entity id)
                              (node_id (models.Entity ref) (models.ID ref)) kv.1 g'
              | None => Some g'
              end)
    (map_to_list data)
    (AddNode (node_id entity id) (default "" (as_string (data !! "type"))) g))
    as (g' & Hrun & _ & Hnode & Hedges).
  - split; [by apply AddNode_consistent|]. split.
    + unfold AddNode; simpl. apply ensure_node_keys. by left.
    + by intros kv t Hkv%elem_of_nil.
  - intros pre [k v] suf s _ (Hs & Hn & IH). unfold field_target in *. simpl in *.
    destruct (models.IsReference v) as [ref|] eqn:Hv.
    + destruct (AddEdge_consistent (node_id entity id)
                  (node_id (models.Entity ref) (models.ID ref)) k s Hs) as (s' & Hadd & Hs').
      exists s'. split; [done|]. split; [done|].
      destruct (AddEdge_adjacency _ _ _ _ _ Hadd) as [He Hk].
      split; [apply Hk; tauto|].
      intros kv t Hkv Ht. rewrite He.
      destruct (decide (t = node_id (models.Entity ref) (models.ID ref))) as [->|Hne].
      * exists (k, v). simpl. rewrite Hv. simpl.
        split; [apply elem_of_app; right; by left|]. split; [done|].
        by rewrite decide_True.
      * apply elem_of_app in Hkv as [Hkv|Hkv].
        -- destruct (IH kv t Hkv Ht) as (kv' & Hkv' & Ht' & He').
           exists kv'. split; [apply elem_of_app; by left|]. split; [done|].
           rewrite decide_False; [done|]. by intros [_ ?].
        -- apply list_elem_of_singleton in Hkv as ->. simpl in Ht. rewrite Hv in Ht.
           simpl in Ht. congruence.
    + exists s. split; [done|]. split; [done|]. split; [done|].
      intros kv t Hkv Ht. apply elem_of_app in Hkv as [Hkv|Hkv].
      * destruct (IH kv t Hkv Ht) as (kv' & Hkv' & Ht' & He').
        exists kv'. split; [apply elem_of_app; by left | done].
      * apply list_elem_of_singleton in Hkv as ->. simpl in Ht. by rewrite Hv in Ht.
  - exists g'. split; [done|]. split; [done|].
    intros k v t Hk Ht.
    destruct (Hedges (k, v) t) as ([k' v'] & Hkv' & Ht' & He'); [|done|].
    { by apply elem_of_map_to_list. }
    exists k', v'. split; [by apply elem_of_map_to_list | done].
Qed.

Lemma UpdateFromEntity_adds_edges_witness :
  ∃ g', UpdateFromEntity "users" 2 two_refs NewIndexedGraph = Some g' ∧
        is_Some (adjacency g' !! node_id "users" 2) ∧
        ∀ k v t, two_refs !! k = Some v → field_target (k, v) = Some t →
                 ∃ k' v', two_refs !! k' = Some v' ∧ field_target (k', v') = Some t ∧
                          edge (adjacency g') (node_id "users" 2) t = Some k'.
Proof.
  apply (UpdateFromEntity_adds_edges "users" 2 two_refs NewIndexedGraph).
  apply NewIndexedGraph_consistent.
Defined.

(** the two entries of that document's node *)
Example UpdateFromEntity_two_refs :
  GetNeighbors "users:2" <$> UpdateFromEntity "users" 2 two_refs NewIndexedGraph
  = Some {[ "users:1" := "manager"; "teams:7" := "team" ]}.
Proof. vm_compute. reflexivity. Qed.

Lemma count_entries_insert adj k x :
  (count_entries (<[k := x]> adj) + size (default ∅ (adj !! k)) =
   count_entries adj + size x)%nat.
Proof.
  unfold count_entries.
  assert (Hcomm : ∀ (m : gmap string (gmap string string)) i y,
            m !! i = None →
            map_fold (λ _ nb c, (c + size nb)%nat) 0%nat (<[i := y]> m)
            = (map_fold (λ _ nb c, (c + size nb)%nat) 0%nat m + size y)%nat).
  { intros m i y Hi. apply (map_fold_insert_L (λ _ nb c, (c + size nb)%nat)); [|done].
    intros. lia. }
  destruct (adj !! k) as [y|] eqn:Hk; simpl.
  - rewrite <- (insert_delete_id adj k y Hk) at 2.
    rewrite <- (insert_delete_eq adj k x).
    rewrite !Hcomm by apply lookup_delete_eq. lia.
  - rewrite Hcomm by done. rewrite map_size_empty. lia.
Qed.

Lemma count_entries_ensure_node n adj rev :
  count_entries (ensure_node n (adj, rev)).1 = count_entries adj.
Proof.
  unfold ensure_node; simpl. destruct (adj !! n) as [inner|] eqn:Hn; simpl; [done|].
  pose proof (count_entries_insert adj n ∅) as H. rewrite Hn in H. simpl in H.
  rewrite map_size_empty in H. lia.
Qed.

(** [EdgeCount] counts every pair of nodes once: [AddEdge] raises it by
    one when [from] had no entry for [to], and leaves it as it is when the
    entry is overwritten. *)
Theorem AddEdge_EdgeCount from to rel g g' :
  AddEdge from to rel g = Some g' →
  EdgeCount g' = if decide (is_Some (edge (adjacency g) from to))
                 then EdgeCount g else S (EdgeCount g).
Proof.
  unfold AddEdge, put_edge. intros Hadd.
  destruct (ensure_node from (adjacency g, reverse g)) as [adj1 rev1] eqn:E1.
  destruct (ensure_node to (adj1, rev1)) as [adj2 rev2] eqn:E2. simpl in Hadd.
  destruct (store2 from to rel adj2) as [adj3|] eqn:E3; [|done]; simpl in Hadd.
  destruct (store2 to from rel rev2) as [rev3|]; [|done]; simpl in Hadd.
  injection Hadd as <-. unfold EdgeCount. simpl.
  change (count_entries adj3 = if decide (is_Some (edge (adjacency g) from to))
                               then count_entries (adjacency g)
                               else S (count_entries (adjacency g))).
  pose proof (count_entries_ensure_node from (adjacency g) (reverse g)) as C1.
  pose proof (count_entries_ensure_node to adj1 rev1) as C2.
  pose proof (ensure_node_edge from (adjacency g) (reverse g) from to) as H1.
  pose proof (ensure_node_edge to adj1 rev1 from to) as H2.
  rewrite E1 in C1, H1. rewrite E2 in C2, H2. simpl in *.
  rewrite <- H1, <- H2, <- C1, <- C2.
  unfold store2 in E3. destruct (adj2 !! from) as [inner|] eqn:Hf; [|done].
  injection E3 as <-.
  pose proof (count_entries_insert adj2 from (<[to := rel]> inner)) as Hc.
  rewrite Hf in Hc. simpl in Hc. unfold edge. rewrite Hf. simpl.
  destruct (inner !! to) as [r|] eqn:Ht.
  - rewrite decide_True by by eexists.
    assert (size (<[to := rel]> inner) = size inner); [|lia].
    rewrite <- (insert_delete_id inner to r Ht) at 2.
    rewrite <- (insert_delete_eq inner to rel).
    by rewrite !map_size_insert_None by apply lookup_delete_eq.
  - rewrite decide_False by (by intros [? ?]).
    rewrite map_size_insert_None in Hc by done. lia.
Qed.

Lemma AddEdge_EdgeCount_witness :
  EdgeCount one_edge_graph
  = if decide (is_Some (edge (adjacency NewIndexedGraph) "users:1" "users:2"))
    then EdgeCount NewIndexedGraph else S (EdgeCount NewIndexedGraph).
Proof.
  apply (AddEdge_EdgeCount "users:1" "users:2" "next" NewIndexedGraph one_edge_graph).
  vm_compute. reflexivity.
Defined.

End GraphOperations.
